(** * Cancellable playout source: a shallow embedding of
    [livekit/agents/voice_assistant/cancellable_source.py]

    The file embeds [PlayoutHandle], [CancellableAudioSource.play],
    [CancellableAudioSource.aclose] and the coroutine
    [CancellableAudioSource._playout_task], and proves properties of them.

    Conventions.
    - Python floats are IEEE 754 binary64 numbers and are modelled by Rocq's
      primitive floats, whose [+], [-], [*] and [/] round to nearest, ties to
      even, as CPython's do.  [int / int] on 16-bit samples and on window
      lengths converts both operands exactly and divides.
    - [rtc.AudioFrame.data] is a [memoryview] of signed 16-bit samples over
      the frame's own byte buffer: a slice of it is a view on the same
      buffer, item assignment writes through and rejects values outside the
      16-bit range with [ValueError].  Received frames therefore live in an
      object store and are referred to by reference.
    - A coroutine is embedded as a resumption machine: one call of [resume]
      runs the body from one suspension point ([await]) to the next. *)

From Stdlib Require Import ZArith QArith Qround Qabs Lia List Bool Floats.
From stdpp Require Import base option list gmap.
Import ListNotations.

Local Open Scope nat_scope.

(** ** Data model *)

(** [rtc.AudioFrame]: interleaved signed 16-bit PCM samples and the frame
    geometry. *)
Record AudioFrame := mkAudioFrame {
  data : list Z;
  sample_rate : nat;
  num_channels : nat;
  samples_per_channel : nat }.

#[global] Instance AudioFrame_inhabited : Inhabited AudioFrame :=
  populate (mkAudioFrame [] 0 0 0).

Definition set_data (d : list Z) (f : AudioFrame) : AudioFrame :=
  mkAudioFrame d (sample_rate f) (num_channels f) (samples_per_channel f).

(** Python exceptions that can travel through the playout task.  [Failure]
    stands for whatever the playout source or the sink raises. *)
Inductive exn :=
| CancelledError
| ZeroDivisionError
| ValueError
| OverflowError
| InvalidStateError
| Failure (tag : nat).

(** [PlayoutHandle]: the interrupted flag and the completion future
    ([done_fut] is [true] once the future is resolved). *)
Record PlayoutHandle := mkHandle {
  interrupted : bool;
  done_fut : bool }.

(** [PlayoutHandle.__init__] *)
Definition new_handle : PlayoutHandle := mkHandle false false.

(** [PlayoutHandle.playing] *)
Definition playing (h : PlayoutHandle) : bool := negb (done_fut h).

(** [PlayoutHandle.interrupt] *)
Definition interrupt (h : PlayoutHandle) : PlayoutHandle :=
  if negb (playing h) then h else mkHandle true (done_fut h).

(** ** Numeric helpers *)

(** The float of a Python [int] that binary64 represents exactly (every
    integer below 2^53 in magnitude: samples and window lengths). *)
Definition Z2float (z : Z) : float :=
  match z with
  | Z0 => 0%float
  | Zpos p => PrimFloat.of_uint63 (Uint63.of_Z (Zpos p))
  | Zneg p => PrimFloat.opp (PrimFloat.of_uint63 (Uint63.of_Z (Zpos p)))
  end.

(** The exact value of a finite float. *)
Definition float_value (f : float) : option Q :=
  match Prim2SF f with
  | S754_zero _ => Some 0%Q
  | S754_finite s m e =>
      let n := if s then Zneg m else Zpos m in
      Some (match e with
            | Z0 => inject_Z n
            | Zpos p => inject_Z (n * 2 ^ Zpos p)
            | Zneg p => Qmake n (2 ^ p)
            end)
  | S754_infinity _ | S754_nan => None
  end.

(** A rational with its fraction cut off. *)
Definition trunc (q : Q) : Z := Z.quot (Qnum q) (Z.pos (Qden q)).

(** Python's [int(x)] on a float: truncation toward zero; [OverflowError]
    on an infinity and [ValueError] on a NaN. *)
Definition py_int (f : float) : exn + Z :=
  match Prim2SF f with
  | S754_nan => inl ValueError
  | S754_infinity _ => inl OverflowError
  | _ => match float_value f with
         | Some q => inr (trunc q)
         | None => inl ValueError
         end
  end.

(** Line 121: [int((data[si] / 32768) * vol * 32768)]. *)
Definition scale_sample (s : Z) (vol : float) : exn + Z :=
  py_int (Z2float s / 32768 * vol * 32768)%float.

(** The sample line 121 writes when the conversion succeeds. *)
Definition scaled (s : Z) (vol : float) : Z :=
  match scale_sample s vol with inr z => z | inl _ => 0%Z end.

(** The scaling as the specification words it, [round(sample *
    filterValue)], with [round] the nearest integer and ties going to the
    even one. *)
Definition spec_round (q : Q) : Z :=
  let f := Qfloor q in
  match Qcompare (q - inject_Z f) (1 # 2) with
  | Lt => f
  | Eq => if Z.even f then f else (f + 1)%Z
  | Gt => (f + 1)%Z
  end.

Definition spec_scale_sample (s : Z) (vol : float) : option Z :=
  match float_value vol with
  | Some q => Some (spec_round (inject_Z s * q)%Q)
  | None => None
  end.

(** Values a [memoryview] of format ['h'] accepts on item assignment. *)
Definition int16_ok (v : Z) : bool := ((-32768 <=? v) && (v <=? 32767))%Z.

(** Line 82: [eps = 1e-6], the binary64 number nearest to 10^-6. *)
Definition eps : float := 0x1.0c6f7a0b5ed8dp-20%float.

(** ** The volume filter interface

    [utils.ExpFilter] is used through [apply(exp, sample)], which advances
    the filter and returns the new value, and [filtered()], which reads the
    current value. *)
Class VolFilter (F : Type) := {
  filter_apply : float -> float -> F -> float * F;
  filtered : F -> float }.

(** ** Observable effects and suspension points *)

(** What a playout task does to its surroundings, in program order. *)
Inductive Event :=
| PlayoutStarted                  (* self.emit("playout_started") *)
| PlayoutStopped (c : bool)       (* self.emit("playout_stopped", cancelled) *)
| CaptureFrame (f : AudioFrame)   (* self._source.capture_frame(chunk_frame) *)
| CancelTask (t : nat)            (* old_task.cancel() *)
| SetResult.                      (* handle._done_fut.set_result(None) *)

(** Where the coroutine [_playout_task] is suspended.  [AwaitCapture] keeps
    the locals [frame], [ms20] and [i] that are live across line 129. *)
Inductive Point :=
| Created                               (* create_task done, body not entered *)
| AwaitOld                              (* line 92: await old_task *)
| AwaitNext                             (* line 94: next item of the source *)
| AwaitCapture (frame ms20 i : nat)     (* line 129: await capture_frame *)
| Finished (r : option exn).            (* returned ([None]) or raised *)

(** What the event loop hands to a suspended coroutine. *)
Inductive Resume :=
| Resumed             (* the awaited operation completed *)
| Frame (fr : nat)    (* the source yielded the frame object [fr] *)
| Stop                (* the source is exhausted (StopAsyncIteration) *)
| Raised (e : exn).   (* the awaited operation raised, or the task was
                         cancelled while waiting ([CancelledError]) *)

(** One playout task: the arguments and locals of [_playout_task]. *)
Record Task := mkTask {
  old_task : option nat;
  handle : PlayoutHandle;
  first_frame : bool;
  cancelled : bool;
  point : Point }.

Definition set_point (p : Point) (t : Task) : Task :=
  mkTask (old_task t) (handle t) (first_frame t) (cancelled t) p.
Definition set_cancelled (c : bool) (t : Task) : Task :=
  mkTask (old_task t) (handle t) (first_frame t) c (point t).
Definition set_first_frame (b : bool) (t : Task) : Task :=
  mkTask (old_task t) (handle t) b (cancelled t) (point t).
Definition set_handle (h : PlayoutHandle) (t : Task) : Task :=
  mkTask (old_task t) h (first_frame t) (cancelled t) (point t).

(** The task [play] creates (lines 69-72, with the locals of lines 85-86). *)
Definition new_task (old : option nat) : Task :=
  mkTask old new_handle true false Created.

Definition is_created (t : Task) : bool :=
  match point t with Created => true | _ => false end.

Definition is_finished (t : Task) : bool :=
  match point t with Finished _ => true | _ => false end.

Section Playout.
Context {F : Type} `{VolFilter F}.

(** The fields of [CancellableAudioSource] a playout task touches, and the
    store of frame objects received from playout sources. *)
Record World := mkWorld {
  target_volume : float;
  vol_filter : F;
  frames : gmap nat AudioFrame }.

(** Lines 81-83. *)
Definition should_break (w : World) (t : Task) : bool :=
  interrupted (handle t) && PrimFloat.leb (filtered (vol_filter w)) eps.

(** Lines 119-121: the per-sample loop over the window view that starts
    at [off] in the frame buffer [buf]; [n] samples are left, [si] is the
    loop index.  A conversion that fails, or an assignment the view
    rejects, raises and leaves the earlier writes in place. *)
Fixpoint gain_loop (n off si : nat) (dt tv : float) (flt : F) (buf : list Z)
  : F * list Z * option exn :=
  match n with
  | O => (flt, buf, None)
  | S n' =>
      let '(vol, flt') := filter_apply dt tv flt in
      match scale_sample (buf !!! (off + si)) vol with
      | inl e => (flt', buf, Some e)
      | inr v =>
          if int16_ok v
          then gain_loop n' off (S si) dt tv flt' (<[off + si := v]> buf)
          else (flt', buf, Some ValueError)
      end
  end.

(** Lines 113-128: one window of the frame [fr], from offset [i].  Returns
    the new world and either the exception raised or the chunk frame with
    the next offset. *)
Definition process_window (w : World) (t : Task) (fr ms20 i : nat)
  : World * (exn + AudioFrame * nat) :=
  let frame := frames w !!! fr in
  let rem := min ms20 (length (data frame) - i) in
  let tv := if negb (interrupted (handle t)) then target_volume w else 0%float in
  if rem =? 0 then (w, inl ZeroDivisionError)
  else
    let dt := (1 / Z2float (Z.of_nat rem))%float in
    let '(flt, buf, r) := gain_loop rem i 0 dt tv (vol_filter w) (data frame) in
    let w' := mkWorld (target_volume w) flt (<[fr := set_data buf frame]> (frames w)) in
    match r with
    | Some e => (w', inl e)
    | None =>
        (w', inr (mkAudioFrame (take rem (drop i buf)) (sample_rate frame)
                               (num_channels frame) rem, i + rem))
    end.

(** Lines 130-134, the [finally] block; [r] is what the [try] body
    produced.  [set_result] on a resolved future raises. *)
Definition finalize (r : option exn) (t : Task) : Task * list Event :=
  let evs := if first_frame t then [] else [PlayoutStopped (cancelled t)] in
  if done_fut (handle t)
  then (set_point (Finished (Some InvalidStateError)) t, evs)
  else (set_point (Finished r) (set_handle (mkHandle (interrupted (handle t)) true) t),
        evs ++ [SetResult]).

(** Lines 106-129: the [while] loop entered or re-entered at offset [i],
    run up to the next suspension. *)
Definition window_loop (w : World) (t : Task) (fr ms20 i : nat)
  : World * Task * list Event :=
  if i <? length (data (frames w !!! fr)) then
    if should_break w t then
      (w, set_point AwaitNext (set_cancelled true t), [])
    else
      match process_window w t fr ms20 i with
      | (w', inl e) => let '(t', evs) := finalize (Some e) t in (w', t', evs)
      | (w', inr (chunk, i')) =>
          (w', set_point (AwaitCapture fr ms20 i') t, [CaptureFrame chunk])
      end
  else (w, set_point AwaitNext t, []).

(** Lines 95-105: the head of the [async for] body for the frame [fr]. *)
Definition on_frame (w : World) (t : Task) (fr : nat) : World * Task * list Event :=
  let '(t1, evs1) :=
    if first_frame t then (set_first_frame false t, [PlayoutStarted]) else (t, []) in
  if should_break w t1 then
    let '(t2, evs2) := finalize None (set_cancelled true t1) in
    (w, t2, evs1 ++ evs2)
  else
    let ms20 := sample_rate (frames w !!! fr) / 100 in
    let '(w', t2, evs2) := window_loop w t1 fr ms20 0 in
    (w', t2, evs1 ++ evs2).

(** [_playout_task], from the current suspension point to the next one.
    An input that does not fit the suspension point is no resumption of
    the coroutine and leaves it as it is; a coroutine that receives an
    exception before its first step never enters its body. *)
Definition resume (inp : Resume) (w : World) (t : Task) : World * Task * list Event :=
  match point t, inp with
  | Created, Resumed =>
      match old_task t with
      | Some o => (w, set_point AwaitOld t, [CancelTask o])
      | None => (w, set_point AwaitNext t, [])
      end
  | Created, Raised e => (w, set_point (Finished (Some e)) t, [])
  | AwaitOld, Resumed => (w, set_point AwaitNext t, [])
  | AwaitOld, Raised CancelledError => (w, set_point AwaitNext t, [])
  | AwaitOld, Raised e => let '(t', evs) := finalize (Some e) t in (w, t', evs)
  | AwaitNext, Frame fr => on_frame w t fr
  | AwaitNext, Stop => let '(t', evs) := finalize None t in (w, t', evs)
  | AwaitNext, Raised e => let '(t', evs) := finalize (Some e) t in (w, t', evs)
  | AwaitCapture fr ms20 i, Resumed => window_loop w t fr ms20 i
  | AwaitCapture _ _ _, Raised e => let '(t', evs) := finalize (Some e) t in (w, t', evs)
  | _, _ => (w, t, [])
  end.

(** What a caller can do while the task is suspended. *)
Inductive Caller :=
| CallInterrupt              (* handle.interrupt() *)
| CallSetVolume (v : float).     (* source.target_volume = v, lines 52-54 *)

Definition call (c : Caller) (w : World) (t : Task) : World * Task :=
  match c with
  | CallInterrupt => (w, set_handle (interrupt (handle t)) t)
  | CallSetVolume v => (mkWorld v (vol_filter w) (frames w), t)
  end.

(** What can happen to a task and its world, one thing at a time. *)
Inductive Act :=
| Call (c : Caller)
| Run (inp : Resume).        (* the event loop resumes the task *)

Definition act (a : Act) (w : World) (t : Task) : World * Task * list Event :=
  match a with
  | Call c => let '(w', t') := call c w t in (w', t', [])
  | Run inp => resume inp w t
  end.

(** A task driven through a script, with the events it produced. *)
Fixpoint run_script (sc : list Act) (w : World) (t : Task) : World * Task * list Event :=
  match sc with
  | [] => (w, t, [])
  | a :: sc' =>
      let '(w1, t1, evs1) := act a w t in
      let '(w2, t2, evs2) := run_script sc' w1 t1 in
      (w2, t2, evs1 ++ evs2)
  end.


(** The filter advanced [n] times with the same arguments: the values
    [apply] returned, in order, and the filter afterwards. *)
Fixpoint filter_steps (n : nat) (dt tv : float) (flt : F) : list float * F :=
  match n with
  | O => ([], flt)
  | S n' =>
      let '(v, flt1) := filter_apply dt tv flt in
      let '(vs, flt2) := filter_steps n' dt tv flt1 in
      (v :: vs, flt2)
  end.

(** *** A task run to completion against its surroundings *)

(** An item of a playout source: a frame object, or an exception out of
    the source (a cancellation that arrives while the task waits for the
    source shows up the same way). *)
Inductive SourceItem :=
| Yield (fr : nat)
| Throw (e : exn).

(** The surroundings of one playout: how waiting for the predecessor
    turns out and what the sink answers at each step ([None]: no
    exception), and what callers do before each step. *)
Record Env := mkEnv {
  env_old : option exn;
  env_sink : nat -> option exn;
  env_calls : nat -> list Caller }.

Definition calls (cs : list Caller) (w : World) (t : Task) : World * Task :=
  foldl (fun wt c => call c (fst wt) (snd wt)) (w, t) cs.

(** What the event loop hands to the task at its [k]-th step, and the
    rest of the source. *)
Definition next_input (e : Env) (k : nat) (src : list SourceItem) (p : Point)
  : Resume * list SourceItem :=
  match p with
  | Created => (Resumed, src)
  | AwaitOld =>
      (match env_old e with None => Resumed | Some ex => Raised ex end, src)
  | AwaitNext =>
      match src with
      | [] => (Stop, [])
      | Yield fr :: src' => (Frame fr, src')
      | Throw ex :: src' => (Raised ex, src')
      end
  | AwaitCapture _ _ _ =>
      (match env_sink e k with None => Resumed | Some ex => Raised ex end, src)
  | Finished _ => (Resumed, src)
  end.

(** The task resumed again and again, at most [fuel] times, until it has
    finished; [k] counts the steps. *)
Fixpoint drive (fuel k : nat) (e : Env) (src : list SourceItem)
               (w : World) (t : Task) : World * Task * list Event :=
  match fuel with
  | O => (w, t, [])
  | S fuel' =>
      if is_finished t then (w, t, [])
      else
        let '(w0, t0) := calls (env_calls e k) w t in
        let '(inp, src') := next_input e k src (point t0) in
        let '(w1, t1, evs1) := resume inp w0 t0 in
        let '(w2, t2, evs2) := drive fuel' (S k) e src' w1 t1 in
        (w2, t2, evs1 ++ evs2)
  end.

(** Steps that suffice for a source: one per sample and two more per
    frame, and three around the frame loop. *)
Definition frame_cost (w : World) (it : SourceItem) : nat :=
  match it with
  | Yield fr => length (data (frames w !!! fr)) + 2
  | Throw _ => 1
  end.

Definition budget (w : World) (src : list SourceItem) : nat :=
  3 + list_sum (map (frame_cost w) src).


End Playout.

(** ** The orchestrator and its tasks under the event loop *)

(** What callers and the event loop can do to an orchestrator. *)
Inductive SysAct :=
| Play                            (* a caller runs [play(...)] *)
| Close                           (* a caller starts [aclose()] *)
| CloseResume (k : nat)           (* the event loop resumes the [k]-th [aclose()] *)
| HandleInterrupt (tid : nat)     (* a caller runs [interrupt()] on a handle *)
| Volume (v : float)                  (* a caller sets [target_volume] *)
| Step (tid : nat) (inp : Resume). (* the event loop resumes a playout task *)

Inductive SysEvent :=
| TaskEvent (tid : nat) (e : Event)
| PlayReturned (h : nat)
| PlayRaised (e : exn)
| CloseReturned (k : nat)
| CloseRaised (k : nat) (e : exn).

Section Orchestrator.
Context {F : Type} `{VolFilter F}.

(** [CancellableAudioSource] with everything it runs: the playout tasks
    in creation order (a task is named by its position, and so is its
    handle), the tasks with a cancellation waiting to be delivered
    ([asyncio.Task._must_cancel]), and the [aclose()] calls made so far
    ([Some t]: suspended on task [t]; [None]: completed). *)
Record System := mkSystem {
  world : @World F;
  playout_atask : option nat;
  closed : bool;
  tasks : list Task;
  must_cancel : gset nat;
  closers : list (option nat) }.

(** [CancellableAudioSource.__init__] (lines 40-46), with the filter the
    constructor builds and the frame objects that exist. *)
Definition init_system (flt : F) (fs : gmap nat AudioFrame) : System :=
  mkSystem (mkWorld 1 flt fs) None false [] ∅ [].

(** [CancellableAudioSource.play] (lines 65-73). *)
Definition play (s : System) : exn + System * nat :=
  if closed s then inl ValueError
  else
    let tid := length (tasks s) in
    inr (mkSystem (world s) (Some tid) (closed s)
                  (tasks s ++ [new_task (playout_atask s)])
                  (must_cancel s) (closers s), tid).

(** [CancellableAudioSource.aclose] (lines 56-63) up to its [await]:
    the new state and the task the call is suspended on, if any. *)
Definition aclose (s : System) : System * option nat :=
  if closed s then (s, None)
  else
    (mkSystem (world s) (playout_atask s) true (tasks s) (must_cancel s) (closers s),
     playout_atask s).

(** [asyncio.Task.cancel]: no effect on a finished task; a task that
    waits for an unfinished task passes the request on to it; otherwise
    the cancellation is delivered at the task's next step. *)
Fixpoint cancel_task (fuel : nat) (s : System) (tid : nat) : System :=
  let mark :=
    mkSystem (world s) (playout_atask s) (closed s) (tasks s)
             ({[tid]} ∪ must_cancel s) (closers s) in
  match tasks s !! tid with
  | None => s
  | Some t =>
      match point t with
      | Finished _ => s
      | AwaitOld =>
          match old_task t, fuel with
          | Some o, S fuel' =>
              match is_finished <$> tasks s !! o with
              | Some false => cancel_task fuel' s o
              | _ => mark
              end
          | _, _ => mark
          end
      | _ => mark
      end
  end.

(** How awaiting the task [o] turns out once it has finished. *)
Definition await_task (s : System) (o : nat) : option Resume :=
  match point <$> tasks s !! o with
  | Some (Finished None) => Some Resumed
  | Some (Finished (Some e)) => Some (Raised e)
  | _ => None
  end.

(** What the event loop delivers when it resumes task [tid] and the
    surroundings offer [inp]; [None] when the task cannot be resumed so.
    First steps run in creation order; a pending cancellation is
    delivered instead of the awaited result. *)
Definition delivered (s : System) (tid : nat) (t : Task) (inp : Resume)
  : option Resume :=
  let pending := bool_decide (tid ∈ must_cancel s) in
  match point t with
  | Finished _ => None
  | Created =>
      if forallb (fun u => negb (is_created u)) (take tid (tasks s)) then
        if pending then Some (Raised CancelledError)
        else match inp with Resumed => Some Resumed | _ => None end
      else None
  | AwaitOld =>
      match old_task t with
      | Some o =>
          match await_task s o with
          | Some r => Some (if pending then Raised CancelledError else r)
          | None => None
          end
      | None => None
      end
  | AwaitNext =>
      if pending then Some (Raised CancelledError)
      else match inp with
           | Frame _ | Stop | Raised _ => Some inp
           | Resumed => None
           end
  | AwaitCapture _ _ _ =>
      if pending then Some (Raised CancelledError)
      else match inp with
           | Resumed | Raised _ => Some inp
           | Frame _ | Stop => None
           end
  end.

(** The effect of a task's events on the other tasks. *)
Definition effect (s : System) (e : Event) : System :=
  match e with
  | CancelTask o => cancel_task (S o) s o
  | _ => s
  end.

(** One action on the system; [None] when the action is not possible. *)
Definition sys_step (a : SysAct) (s : System) : option (System * list SysEvent) :=
  match a with
  | Play =>
      match play s with
      | inl e => Some (s, [PlayRaised e])
      | inr (s', h) => Some (s', [PlayReturned h])
      end
  | Close =>
      let k := length (closers s) in
      match aclose s with
      | (s', None) =>
          Some (mkSystem (world s') (playout_atask s') (closed s') (tasks s')
                         (must_cancel s') (closers s' ++ [None]),
                [CloseReturned k])
      | (s', Some t) =>
          Some (mkSystem (world s') (playout_atask s') (closed s') (tasks s')
                         (must_cancel s') (closers s' ++ [Some t]), [])
      end
  | CloseResume k =>
      match closers s !! k with
      | Some (Some t) =>
          match await_task s t with
          | Some r =>
              Some (mkSystem (world s) (playout_atask s) (closed s) (tasks s)
                             (must_cancel s) (<[k := None]> (closers s)),
                    [match r with Raised e => CloseRaised k e | _ => CloseReturned k end])
          | None => None
          end
      | _ => None
      end
  | HandleInterrupt tid =>
      match tasks s !! tid with
      | Some t =>
          Some (mkSystem (world s) (playout_atask s) (closed s)
                         (<[tid := set_handle (interrupt (handle t)) t]> (tasks s))
                         (must_cancel s) (closers s), [])
      | None => None
      end
  | Volume v =>
      Some (mkSystem (mkWorld v (vol_filter (world s)) (frames (world s)))
                     (playout_atask s) (closed s) (tasks s) (must_cancel s)
                     (closers s), [])
  | Step tid inp =>
      match tasks s !! tid with
      | Some t =>
          match delivered s tid t inp with
          | Some r =>
              let '(w', t', evs) := resume r (world s) t in
              let s1 := mkSystem w' (playout_atask s) (closed s)
                                 (<[tid := t']> (tasks s))
                                 (must_cancel s ∖ {[tid]}) (closers s) in
              Some (foldl effect s1 evs, map (TaskEvent tid) evs)
          | None => None
          end
      | None => None
      end
  end.

(** A sequence of actions, with the events in the order they happen. *)
Fixpoint sys_run (acts : list SysAct) (s : System) : option (System * list SysEvent) :=
  match acts with
  | [] => Some (s, [])
  | a :: acts' =>
      match sys_step a s with
      | Some (s1, evs1) =>
          match sys_run acts' s1 with
          | Some (s2, evs2) => Some (s2, evs1 ++ evs2)
          | None => None
          end
      | None => None
      end
  end.

End Orchestrator.

(** ** A concrete filter *)

(** Modelled from the spec: [utils.ExpFilter] is not among the sources.
    Per the specification the filter holds a smoothing coefficient [alpha]
    and the current smoothed value, which starts at 1.0; [apply(dt, target)]
    replaces the value by the convex blend [a * value + (1 - a) * target]
    with [a = alpha ** dt] and returns it; [filtered()] reads it. *)
Record ExpFilter := mkExpFilter {
  alpha : float;
  smoothed : float }.

(** [a ** e].  Python computes it with the C library's [pow], which has an
    exact model only at [e = 1], where the result is [a]; for any other
    exponent 1.0 stands in for it.  Every run evaluated in this file is
    independent of the stand-in: its windows either hold one sample, so
    that [dt = 1], or are processed with value and target both 1.0, where
    the blend [a * 1 + (1 - a) * 1] is 1.0 in binary64 for every [a]
    between 0.5 and 1. *)
Definition pow_whole (a e : float) : float :=
  if PrimFloat.eqb e 1 then a else 1%float.

Definition ExpFilter_apply (dt target : float) (f : ExpFilter) : float * ExpFilter :=
  let a := pow_whole (alpha f) dt in
  let v := (a * smoothed f + (1 - a) * target)%float in
  (v, mkExpFilter (alpha f) v).

#[global] Instance ExpFilter_ops : VolFilter ExpFilter :=
  {| filter_apply := ExpFilter_apply; filtered := smoothed |}.

(** [utils.ExpFilter(alpha=alpha)] *)
Definition new_filter (a : float) : ExpFilter := mkExpFilter a 1.

(** The orchestrator's default, [alpha = 0.95]: the binary64 number
    nearest to 19/20. *)
Definition alpha_default : float := 0x1.e666666666666p-1%float.


(** ** Invariants of a playout task *)

Section Invariants.
Context {F : Type} `{VolFilter F}.

(** Two states of a frame object with the same geometry. *)
Definition same_geometry (f f' : AudioFrame) : Prop :=
  sample_rate f' = sample_rate f /\ num_channels f' = num_channels f /\
  samples_per_channel f' = samples_per_channel f /\
  length (data f') = length (data f).

Definition frames_stable (w w' : @World F) : Prop :=
  forall fr, same_geometry (frames w !!! fr) (frames w' !!! fr).

(** What holds when the [while] loop is entered or re-entered at offset
    [i]: the handle is unresolved, a frame has been seen, no break has
    happened, and [i] is a window boundary. *)
Definition window_pre (w : @World F) (t : Task) (fr ms20 i : nat) : Prop :=
  done_fut (handle t) = false /\ first_frame t = false /\ cancelled t = false /\
  ms20 = sample_rate (frames w !!! fr) / 100 /\
  i <= length (data (frames w !!! fr)) /\
  ((exists k, i = k * ms20) \/ i = length (data (frames w !!! fr))).

(** What holds of the locals at each suspension point. *)
Definition task_inv (w : @World F) (t : Task) : Prop :=
  (cancelled t = true -> should_break w t = true /\ first_frame t = false) /\
  match point t with
  | Created =>
      first_frame t = true /\ cancelled t = false /\ done_fut (handle t) = false
  | AwaitOld =>
      first_frame t = true /\ cancelled t = false /\ done_fut (handle t) = false
  | AwaitNext => done_fut (handle t) = false
  | AwaitCapture fr ms20 i => window_pre w t fr ms20 i /\ 0 < ms20
  | Finished _ => done_fut (handle t) = false -> first_frame t = true
  end.

(** The task has entered its body, and has resolved its handle if it has
    finished. *)
Definition entered (t : Task) : Prop :=
  match point t with
  | Created => False
  | Finished _ => done_fut (handle t) = true
  | _ => True
  end.

(** The events of a task so far, by the phase they belong to. *)
Definition handoff_events (t : Task) : list Event :=
  match old_task t with Some o => [CancelTask o] | None => [] end.

Definition stream_events (t : Task) (chunks : list AudioFrame) : list Event :=
  if first_frame t then [] else PlayoutStarted :: map CaptureFrame chunks.

Definition final_events (t : Task) : list Event :=
  (if first_frame t then [] else [PlayoutStopped (cancelled t)]) ++ [SetResult].

Definition streaming_shape (t : Task) (evs : list Event) : Prop :=
  exists chunks, evs = handoff_events t ++ stream_events t chunks.

Definition trace_shape (t : Task) (evs : list Event) : Prop :=
  match point t with
  | Created => evs = []
  | Finished _ =>
      if done_fut (handle t)
      then exists evs0, streaming_shape t evs0 /\ evs = evs0 ++ final_events t
      else evs = []
  | _ => streaming_shape t evs
  end.

(** Counting events of one kind in a trace. *)
Definition is_started (e : Event) : bool :=
  match e with PlayoutStarted => true | _ => false end.
Definition is_stopped (e : Event) : bool :=
  match e with PlayoutStopped _ => true | _ => false end.
Definition is_set_result (e : Event) : bool :=
  match e with SetResult => true | _ => false end.

Fixpoint count (p : Event -> bool) (evs : list Event) : nat :=
  match evs with
  | [] => 0
  | e :: evs' => (if p e then 1 else 0) + count p evs'
  end.

(** Steps left for a task, given what is left of its source. *)
Definition steps_left (w : @World F) (t : Task) (src : list SourceItem) : nat :=
  match point t with
  | Created => 3 + list_sum (map (frame_cost w) src)
  | AwaitOld => 2 + list_sum (map (frame_cost w) src)
  | AwaitNext => 1 + list_sum (map (frame_cost w) src)
  | AwaitCapture fr _ i =>
      (length (data (frames w !!! fr)) - i) + 2 + list_sum (map (frame_cost w) src)
  | Finished _ => 0
  end.

End Invariants.

(** ** Invariants of the orchestrator *)

(** The predecessor a task is handed: the task created just before it. *)
Definition pred_task (k : nat) : option nat :=
  match k with O => None | S j => Some j end.

(** The task is past the hand-off: it has been to its playout source. *)
Definition past_handoff (t : Task) : bool :=
  match point t with
  | AwaitNext | AwaitCapture _ _ _ | Finished _ => true
  | Created | AwaitOld => false
  end.

Section OrchestratorInvariants.
Context {F : Type} `{VolFilter F}.

Record sys_inv (s : @System F) : Prop := mkSysInv {
  inv_chain : forall k t, tasks s !! k = Some t -> old_task t = pred_task k;
  inv_fifo : forall j k tj tk, j < k ->
    tasks s !! j = Some tj -> tasks s !! k = Some tk ->
    is_created tj = true -> is_created tk = true;
  inv_handoff : forall j k tj tk, j < k ->
    tasks s !! j = Some tj -> tasks s !! k = Some tk ->
    past_handoff tk = true -> is_finished tj = true;
  inv_cancel : forall k, k ∈ must_cancel s ->
    exists t, tasks s !! k = Some t /\ is_created t = false;
  inv_done : forall k t, tasks s !! k = Some t ->
    done_fut (handle t) = is_finished t;
  inv_atask : playout_atask s = pred_task (length (tasks s));
  inv_open : closed s = false -> closers s = [];
  inv_closed : closed s = true -> closers s <> [];
  inv_closer : forall t, closers s !! 0 = Some (Some t) -> playout_atask s = Some t;
  inv_drained : closers s !! 0 = Some None ->
    forall k t, tasks s !! k = Some t -> is_finished t = true }.

(** No interleaving: when a playout hands a frame to the sink, it has
    asked for the cancellation of its predecessor, every earlier playout
    has completed its handle, and no earlier playout does anything
    afterwards. *)
Definition no_interleaving (tr : list SysEvent) : Prop :=
  forall tr1 k c tr2,
    tr = tr1 ++ TaskEvent k (CaptureFrame c) :: tr2 ->
    (forall o, k = S o -> In (TaskEvent k (CancelTask o)) tr1) /\
    (forall j, j < k ->
       In (TaskEvent j SetResult) tr1 /\ forall e, ~ In (TaskEvent j e) tr2).

Record trace_inv (s : @System F) (tr : list SysEvent) : Prop := mkTraceInv {
  tr_done : forall k t, tasks s !! k = Some t ->
    is_finished t = true -> In (TaskEvent k SetResult) tr;
  tr_cancel : forall k t o, tasks s !! k = Some t ->
    is_created t = false -> old_task t = Some o ->
    In (TaskEvent k (CancelTask o)) tr;
  tr_capture : forall k c, In (TaskEvent k (CaptureFrame c)) tr ->
    exists t, tasks s !! k = Some t /\ past_handoff t = true;
  tr_order : no_interleaving tr;
  tr_close : (In (CloseReturned 0) tr \/ exists e, In (CloseRaised 0 e) tr) ->
    closers s !! 0 = Some None }.

End OrchestratorInvariants.

(** ** Concrete playouts *)

(** A mono frame of three samples at 100 Hz, so that a window is one sample
    and [dt = 1]; an orchestrator with [ExpFilter(alpha = 1/4)] and target
    volume 1.0 that has received it as frame object 0. *)
Definition frame_a : AudioFrame := mkAudioFrame [100; 3; -7]%Z 100 1 3.

Definition world_a : @World ExpFilter :=
  mkWorld 1 (new_filter 0.25) {[0 := frame_a]}.

(** A playout of [frame_a] that is interrupted after its first window. *)
Definition interrupted_start : list (@Act) :=
  [Run Resumed; Run (Frame 0); Call CallInterrupt].

(** Where [interrupted_start] leaves the orchestrator and the task: the
    first window has gone out at gain 1.0, the handle is interrupted, the
    second window is due. *)
Definition world_a1 : @World ExpFilter :=
  mkWorld 1 (mkExpFilter 0.25 1) {[0 := frame_a]}.

Definition task_a1 : Task :=
  mkTask None (mkHandle true false) false false (AwaitCapture 0 1 1).

(** The whole interrupted playout, to the end of the source. *)
Definition interrupted_playout : list (@Act) :=
  interrupted_start ++ [Run Resumed; Run Resumed; Run Resumed; Run Stop].

(** A frame of four samples under [ExpFilter(alpha = 1/1024)], whose value
    is below 1e-6 after two steps toward 0. *)
Definition frame_c : AudioFrame := mkAudioFrame [100; 3; -7; 5]%Z 100 1 4.

Definition world_c : @World ExpFilter :=
  mkWorld 1 (new_filter 0x1p-10) {[0 := frame_c]}.

(** A mono frame of five samples at 200 Hz (two samples per window) under
    the default [ExpFilter(alpha = 0.95)] and target volume 1.0. *)
Definition frame_b : AudioFrame := mkAudioFrame [10; 20; 30; 40; 50]%Z 200 1 5.

Definition world_b : @World ExpFilter :=
  mkWorld 1 (new_filter alpha_default) {[0 := frame_b]}.

(** An orchestrator with the default filter that can receive [frame_b]. *)
Definition system_b : @System ExpFilter :=
  init_system (new_filter alpha_default) {[0 := frame_b]}.

(** ** Further notions *)

(** The samples a trace of a task hands to the sink. *)
Fixpoint samples_out (evs : list Event) : nat :=
  match evs with
  | [] => 0
  | CaptureFrame c :: evs' => length (data c) + samples_out evs'
  | _ :: evs' => samples_out evs'
  end.

Definition is_cancel_request (e : Event) : bool :=
  match e with CancelTask _ => true | _ => false end.

(** Playouts are serialized: apart from the request to cancel its
    predecessor, whatever a playout does happens after every earlier
    playout has completed its handle, and no earlier playout does anything
    afterwards. *)
Definition serialized (tr : list SysEvent) : Prop :=
  forall tr1 k e tr2,
    tr = tr1 ++ TaskEvent k e :: tr2 ->
    is_cancel_request e = false ->
    forall j, j < k ->
      In (TaskEvent j SetResult) tr1 /\ forall e', ~ In (TaskEvent j e') tr2.

(** A task as an action that is no step of it leaves it: the coroutine
    is where it was, with its locals, and its handle can only have become
    interrupted. *)
Definition same_locals (x0 x : Task) : Prop :=
  point x = point x0 /\ first_frame x = first_frame x0 /\
  cancelled x = cancelled x0 /\ old_task x = old_task x0 /\
  done_fut (handle x) = done_fut (handle x0) /\
  (interrupted (handle x0) = true -> interrupted (handle x) = true) /\
  (interrupted (handle x) = true ->
   interrupted (handle x0) = true \/ done_fut (handle x0) = false).

Section FurtherNotions.
Context {F : Type} `{VolFilter F}.

(** The samples of the frames a task takes from its source along a
    script, by the size the frames have when they arrive. *)
Fixpoint samples_in (sc : list Act) (w : @World F) (t : Task) : nat :=
  match sc with
  | [] => 0
  | a :: sc' =>
      (match a, point t with
       | Run (Frame fr), AwaitNext => length (data (frames w !!! fr))
       | _, _ => 0
       end)
      + (let '(w1, t1, _) := act a w t in samples_in sc' w1 t1)
  end.

(** The samples of the frames a playout source holds. *)
Definition source_samples (w : @World F) (src : list SourceItem) : nat :=
  list_sum (map (fun it => match it with
                           | Yield fr => length (data (frames w !!! fr))
                           | Throw _ => 0
                           end) src).

(** The samples of the frame in hand that are still to be sent. *)
Definition pending_samples (w : @World F) (t : Task) : nat :=
  match point t with
  | AwaitCapture fr _ i => length (data (frames w !!! fr)) - i
  | _ => 0
  end.

(** The playout is on its way: it has neither raised nor met the break
    condition. *)
Definition undisturbed (t : Task) : bool :=
  negb (cancelled t) &&
  match point t with Finished (Some _) => false | _ => true end.

(** What the orchestrator keeps about the locals of its tasks, and what
    the trace says about the order of playouts: a task that is not past
    the hand-off has its locals as created; a task sets [cancelled] only
    for an interrupted handle; a task that has done more than ask for a
    cancellation is past the hand-off; a completed handle and an emitted
    [playout_stopped] belong to a finished task. *)
Record order_inv (s : @System F) (tr : list SysEvent) : Prop := mkOrderInv {
  ord_fresh : forall k t, tasks s !! k = Some t -> past_handoff t = false ->
    first_frame t = true /\ cancelled t = false;
  ord_cancelled : forall k t, tasks s !! k = Some t -> cancelled t = true ->
    interrupted (handle t) = true;
  ord_acted : forall k e, In (TaskEvent k e) tr -> is_cancel_request e = false ->
    exists t, tasks s !! k = Some t /\ past_handoff t = true;
  ord_result : forall k, In (TaskEvent k SetResult) tr ->
    exists t, tasks s !! k = Some t /\ is_finished t = true;
  ord_stopped : forall k c, In (TaskEvent k (PlayoutStopped c)) tr ->
    exists t, tasks s !! k = Some t /\ is_finished t = true /\ cancelled t = c;
  ord_serial : serialized tr }.

End FurtherNotions.

(** A frame at 50 Hz, for which [sample_rate // 100] is 0, and an empty
    frame, under the default filter. *)
Definition frame_slow : AudioFrame := mkAudioFrame [7; 8]%Z 50 1 2.

Definition frame_empty : AudioFrame := mkAudioFrame [] 100 1 0.

Definition world_d : @World ExpFilter :=
  mkWorld 1 (new_filter alpha_default) {[0 := frame_slow; 1 := frame_empty; 2 := frame_b]}.

(** An orchestrator with [ExpFilter(alpha = 1/4)] that can receive
    [frame_a]. *)
Definition system_a : @System ExpFilter :=
  init_system (new_filter 0.25) {[0 := frame_a]}.

(** An orchestrator whose filter falls below 1e-6 in two steps toward 0,
    which can receive [frame_c]. *)
Definition system_c : @System ExpFilter :=
  init_system (new_filter 0x1p-10) {[0 := frame_c]}.

Definition system_d : @System ExpFilter :=
  init_system (new_filter alpha_default) {[0 := frame_slow; 1 := frame_empty; 2 := frame_b]}.

(** * Properties *)

(** ** One window: the per-sample loop *)

Section WindowFacts.
Context {F : Type} `{VolFilter F}.

Lemma gain_loop_length n : forall off si dt tv (flt : F) buf flt' buf' r,
  gain_loop n off si dt tv flt buf = (flt', buf', r) ->
  length buf' = length buf.
Proof.
  induction n as [|n IH]; simpl; intros off si dt tv flt buf flt' buf' r Hg.
  - by inversion Hg.
  - destruct (filter_apply dt tv flt) as [vol flt1].
    destruct (scale_sample _ vol) as [e|v]; [by inversion Hg|].
    destruct (int16_ok _).
    + apply IH in Hg. by rewrite length_insert in Hg.
    + by inversion Hg.
Qed.

(** A loop that runs through has advanced the filter once per sample, in
    order, and has overwritten exactly the window; every conversion has
    succeeded. *)
Lemma gain_loop_ok n : forall off si dt tv (flt : F) buf flt' buf',
  gain_loop n off si dt tv flt buf = (flt', buf', None) ->
  off + si + n <= length buf ->
  flt' = snd (filter_steps n dt tv flt) /\
  buf' = take (off + si) buf
         ++ zip_with scaled (take n (drop (off + si) buf))
                     (fst (filter_steps n dt tv flt))
         ++ drop (off + si + n) buf /\
  Forall2 (fun s vol => scale_sample s vol = inr (scaled s vol))
          (take n (drop (off + si) buf)) (fst (filter_steps n dt tv flt)).
Proof.
  induction n as [|n IH]; simpl; intros off si dt tv flt buf flt' buf' Hg Hlen.
  - inversion Hg; subst. split; [done|].
    rewrite Nat.add_0_r. simpl. rewrite take_drop. split; [done|constructor].
  - destruct (filter_apply dt tv flt) as [vol flt1] eqn:Hap.
    destruct (scale_sample _ vol) as [e|v] eqn:Hsc; [by inversion Hg|].
    destruct (int16_ok _) eqn:Hok; [|by inversion Hg].
    apply IH in Hg; [|rewrite length_insert; lia].
    destruct (filter_steps n dt tv flt1) as [vs flt2] eqn:Hfs.
    simpl in *. destruct Hg as (-> & -> & Hall).
    destruct (lookup_lt_is_Some_2 buf (off + si)) as [x Hx]; [lia|].
    rewrite (list_lookup_total_correct _ _ _ Hx) in *.
    assert (Hv : v = scaled x vol) by (unfold scaled; by rewrite Hsc). subst v.
    replace (off + S si) with (S (off + si)) in * by lia.
    rewrite !drop_insert_lt in Hall by lia.
    split; [done|]. split.
    + rewrite (take_S_r _ _ (scaled x vol));
        [|by rewrite list_lookup_insert_eq; [|eapply lookup_lt_Some]].
      rewrite take_insert_ge by lia.
      rewrite !drop_insert_lt by lia.
      rewrite (drop_S _ _ _ Hx). simpl.
      rewrite <- app_assoc. simpl.
      by replace (S (off + si + n)) with (off + si + S n) by lia.
    + rewrite (drop_S _ _ _ Hx). simpl. by constructor.
Qed.

Lemma filter_steps_length n : forall dt tv (flt : F),
  length (fst (filter_steps n dt tv flt)) = n.
Proof.
  induction n as [|n IH]; simpl; intros dt tv flt; [done|].
  destruct (filter_apply dt tv flt) as [v flt1].
  specialize (IH dt tv flt1).
  destruct (filter_steps n dt tv flt1) as [vs flt2]. simpl in *. by rewrite IH.
Qed.

(** What a window that goes through leaves behind. *)
Lemma process_window_ok w t fr ms20 i w' chunk i' :
  process_window w t fr ms20 i = (w', inr (chunk, i')) ->
  let frame := frames w !!! fr in
  let n := min ms20 (length (data frame) - i) in
  let tv := if negb (interrupted (handle t)) then target_volume w else 0%float in
  let dt := (1 / Z2float (Z.of_nat n))%float in
  let out := zip_with scaled (take n (drop i (data frame)))
                      (fst (filter_steps n dt tv (vol_filter w))) in
  0 < n /\ i + n <= length (data frame) /\ i' = i + n /\ length out = n /\
  chunk = mkAudioFrame out (sample_rate frame) (num_channels frame) n /\
  w' = mkWorld (target_volume w) (snd (filter_steps n dt tv (vol_filter w)))
         (<[fr := set_data (take i (data frame) ++ out ++ drop (i + n) (data frame)) frame]>
            (frames w)).
Proof.
  unfold process_window. intros Hp. cbv zeta.
  set (frame := frames w !!! fr) in *.
  set (n := min ms20 (length (data frame) - i)) in *.
  destruct (n =? 0) eqn:Hn; [by inversion Hp|].
  apply Nat.eqb_neq in Hn.
  destruct (gain_loop _ _ _ _ _ _ _) as [[flt buf] r] eqn:Hg.
  destruct r as [e|]; [by inversion Hp|].
  apply gain_loop_ok in Hg; [|lia].
  rewrite Nat.add_0_r in Hg. destruct Hg as (-> & -> & _).
  assert (Hout : length (zip_with scaled (take n (drop i (data frame)))
     (fst (filter_steps n (1 / Z2float (Z.of_nat n))
             (if negb (interrupted (handle t)) then target_volume w else 0%float)
             (vol_filter w)))) = n).
  { rewrite length_zip_with_l_eq; rewrite length_take, length_drop, ?filter_steps_length; lia. }
  inversion Hp; subst. repeat split; try lia; try done.
  f_equal.
  rewrite drop_app_length'; [|rewrite length_take; lia].
  rewrite take_app_length'; done.
Qed.

(** In a window that goes through, every sample is converted without an
    exception. *)
Lemma process_window_scaled w t fr ms20 i w' chunk i' :
  process_window w t fr ms20 i = (w', inr (chunk, i')) ->
  let frame := frames w !!! fr in
  let n := min ms20 (length (data frame) - i) in
  let tv := if negb (interrupted (handle t)) then target_volume w else 0%float in
  let dt := (1 / Z2float (Z.of_nat n))%float in
  Forall2 (fun s vol => scale_sample s vol = inr (scaled s vol))
          (take n (drop i (data frame))) (fst (filter_steps n dt tv (vol_filter w))).
Proof.
  unfold process_window. intros Hp. cbv zeta.
  set (frame := frames w !!! fr) in *.
  set (n := min ms20 (length (data frame) - i)) in *.
  destruct (n =? 0) eqn:Hn; [by inversion Hp|].
  apply Nat.eqb_neq in Hn.
  destruct (gain_loop _ _ _ _ _ _ _) as [[flt buf] r] eqn:Hg.
  destruct r as [e|]; [by inversion Hp|].
  apply gain_loop_ok in Hg; [|lia].
  rewrite Nat.add_0_r in Hg. by destruct Hg as (_ & _ & Hall).
Qed.

(** Cutting the fraction off: the result is no farther from zero than the
    argument, less than one away from it, and on the same side. *)
Lemma trunc_truncates (q : Q) :
  (Qabs (inject_Z (trunc q)) <= Qabs q)%Q /\
  (Qabs q < Qabs (inject_Z (trunc q)) + 1)%Q /\
  (0 <= Qnum q -> 0 <= trunc q)%Z /\ (Qnum q <= 0 -> trunc q <= 0)%Z.
Proof.
  destruct q as [n d]. unfold trunc, Qle, Qlt, Qabs, inject_Z. simpl.
  pose proof (Z.quot_rem' n (Z.pos d)) as Hqr.
  assert (Hd : (Z.pos d <> 0)%Z) by lia.
  pose proof (Z.rem_bound_abs n (Z.pos d) Hd) as Hr.
  pose proof (Z.rem_sign_mul n (Z.pos d) Hd) as Hs.
  set (r := Z.rem n (Z.pos d)) in *. set (z := (n ÷ Z.pos d)%Z) in *.
  assert (Hp : (0 < Z.pos d)%Z) by lia.
  clearbody r z. remember (Z.pos d) as D eqn:HD. clear HD d.
  change (Z.pos (1 * 1)) with 1%Z.
  destruct (Z.lt_trichotomy n 0) as [Hn|[Hn|Hn]];
    destruct (Z.lt_trichotomy z 0) as [Hz|[Hz|Hz]];
    destruct (Z.lt_trichotomy r 0) as [Hr0|[Hr0|Hr0]];
    split_and!; nia.
Qed.

(** [int] of a float that succeeds cuts the fraction of the float's exact
    value off. *)
Lemma py_int_truncates (f : float) (z : Z) :
  py_int f = inr z ->
  exists q, float_value f = Some q /\ z = trunc q /\
    (Qabs (inject_Z z) <= Qabs q)%Q /\ (Qabs q < Qabs (inject_Z z) + 1)%Q.
Proof.
  unfold py_int. intros Hz.
  assert (Hv : exists q, float_value f = Some q /\ z = trunc q).
  { destruct (Prim2SF f); try done;
      destruct (float_value f) as [q|]; try done; exists q; by simplify_eq. }
  destruct Hv as (q & Hq & ->). exists q.
  destruct (trunc_truncates q) as (H1 & H2 & _). by split_and!.
Qed.

(** C1, amended.  For every window that is processed: the target gain is
    0.0 if the handle is interrupted and the orchestrator's target volume
    otherwise, [dt] is 1 over the number of samples of the window, the
    filter is advanced exactly once per sample, in order, with these
    arguments, and each output sample is [int((sample / 32768) * value *
    32768)], evaluated in binary64 as the code does, for the value that
    step of the filter returned: the product with its fraction cut off,
    not rounded. *)
Theorem window_gain_is_truncated w t fr ms20 i w' chunk i' :
  process_window w t fr ms20 i = (w', inr (chunk, i')) ->
  let n := length (data chunk) in
  let tv := if interrupted (handle t) then 0%float else target_volume w in
  let dt := (1 / Z2float (Z.of_nat n))%float in
  let vols := fst (filter_steps n dt tv (vol_filter w)) in
  0 < n /\ n = min ms20 (length (data (frames w !!! fr)) - i) /\
  length vols = n /\
  vol_filter w' = snd (filter_steps n dt tv (vol_filter w)) /\
  Forall2 (fun out sv =>
             let product := (Z2float (fst sv) / 32768 * snd sv * 32768)%float in
             py_int product = inr out /\
             exists q, float_value product = Some q /\ out = trunc q /\
               (Qabs (inject_Z out) <= Qabs q)%Q /\
               (Qabs q < Qabs (inject_Z out) + 1)%Q)
          (data chunk) (zip (take n (drop i (data (frames w !!! fr)))) vols).
Proof.
  intros Hp. pose proof (process_window_scaled _ _ _ _ _ _ _ _ Hp) as Hall.
  apply process_window_ok in Hp. cbv zeta in Hp, Hall.
  destruct Hp as (Hn & Hin & -> & Hout & -> & ->). simpl.
  rewrite Hout.
  replace (if interrupted (handle t) then 0%float else target_volume w)
    with (if negb (interrupted (handle t)) then target_volume w else 0%float)
    by (by destruct (interrupted (handle t))).
  split_and!; try done; [apply filter_steps_length|].
  revert Hall. generalize (take (ms20 `min` (length (data (frames w !!! fr)) - i))
                             (drop i (data (frames w !!! fr)))) as xs.
  generalize (fst (filter_steps (ms20 `min` (length (data (frames w !!! fr)) - i))
                (1 / Z2float (Z.of_nat (ms20 `min` (length (data (frames w !!! fr)) - i))))
                (if negb (interrupted (handle t)) then target_volume w else 0%float)
                (vol_filter w))) as vols.
  clear. intros vols xs Hall. induction Hall as [|x v xs vols Hx Hall IH]; [constructor|].
  simpl. constructor; [|exact IH]. cbn.
  split; [exact Hx|]. by apply py_int_truncates.
Qed.

(** After a window has gone through, the frame buffer holds at the
    window's position what the chunk holds. *)
Lemma process_window_copy w t fr ms20 i w' chunk i' :
  process_window w t fr ms20 i = (w', inr (chunk, i')) ->
  take (length (data chunk)) (drop i (data (frames w' !!! fr))) = data chunk.
Proof.
  intros Hp. apply process_window_ok in Hp. cbv zeta in Hp.
  destruct Hp as (Hn & Hin & -> & Hout & -> & ->). simpl.
  rewrite Hout, lookup_total_insert_eq. simpl.
  rewrite drop_app_length'; [|rewrite length_take; lia].
  by rewrite take_app_length'.
Qed.

(** C9, amended.  Gain application hands the sink a new frame that holds a
    copy of the scaled window, and it writes the scaled samples through the
    window view into the received frame: after a window is processed the
    buffer of the received frame holds the samples of the chunk at the
    window's position and is unchanged elsewhere, and no other frame object
    is touched. *)
Theorem window_overwrites_received_frame w t fr ms20 i w' chunk i' :
  process_window w t fr ms20 i = (w', inr (chunk, i')) ->
  let f := frames w !!! fr in
  i' = i + length (data chunk) /\
  frames w' =
    <[fr := set_data (take i (data f) ++ data chunk ++ drop i' (data f)) f]> (frames w) /\
  take (length (data chunk)) (drop i (data (frames w' !!! fr))) = data chunk /\
  (forall fr', fr' <> fr -> frames w' !! fr' = frames w !! fr').
Proof.
  intros Hp. pose proof (process_window_copy _ _ _ _ _ _ _ _ Hp) as Hcopy.
  apply process_window_ok in Hp. cbv zeta in Hp.
  destruct Hp as (Hn & Hin & -> & Hout & -> & ->). simpl in *.
  rewrite Hout in *. split_and!; try done.
  intros fr' Hne. by rewrite lookup_insert_ne.
Qed.

End WindowFacts.

(** ** One step of a playout task *)

Section StepFacts.
Context {F : Type} `{VolFilter F}.

Lemma same_geometry_refl f : same_geometry f f.
Proof. by repeat split. Qed.

Lemma frames_stable_refl (w : @World F) : frames_stable w w.
Proof. intros fr. apply same_geometry_refl. Qed.

Lemma frames_stable_trans (w1 w2 w3 : @World F) :
  frames_stable w1 w2 -> frames_stable w2 w3 -> frames_stable w1 w3.
Proof.
  intros H12 H23 fr. destruct (H12 fr) as (?&?&?&?), (H23 fr) as (?&?&?&?).
  repeat split; congruence.
Qed.

(** Whatever a window does, it leaves the target volume and the geometry
    of all frames alone, and touches no other frame. *)
Lemma process_window_stable w t fr ms20 i w' r :
  process_window w t fr ms20 i = (w', r) ->
  target_volume w' = target_volume w /\ frames_stable w w' /\
  forall fr', fr' <> fr -> frames w' !! fr' = frames w !! fr'.
Proof.
  unfold process_window. intros Hp.
  destruct (_ =? 0).
  { inversion Hp; subst. split; [done|]. split; [apply frames_stable_refl|done]. }
  destruct (gain_loop _ _ _ _ _ _ _) as [[flt buf] e] eqn:Hg.
  apply gain_loop_length in Hg.
  assert (w' = mkWorld (target_volume w) flt
                 (<[fr := set_data buf (frames w !!! fr)]> (frames w))) as ->
    by (destruct e; by inversion Hp).
  simpl. split; [done|]. split.
  - intros fr'. simpl. destruct (decide (fr' = fr)) as [->|Hne].
    + rewrite lookup_total_insert_eq. by repeat split.
    + rewrite lookup_total_insert_ne by done. apply same_geometry_refl.
  - intros fr' Hne. by rewrite lookup_insert_ne.
Qed.

Lemma should_break_ext (w w' : @World F) t t' :
  vol_filter w' = vol_filter w ->
  interrupted (handle t') = interrupted (handle t) ->
  should_break w' t' = should_break w t.
Proof. unfold should_break. by intros -> ->. Qed.

(** The [finally] block of a task whose handle is unresolved. *)
Lemma finalize_spec r t t' evs :
  finalize r t = (t', evs) ->
  done_fut (handle t) = false ->
  t' = mkTask (old_task t) (mkHandle (interrupted (handle t)) true)
              (first_frame t) (cancelled t) (Finished r) /\
  evs = final_events t.
Proof.
  unfold finalize, final_events. intros Hf Hd. rewrite Hd in Hf.
  by inversion Hf.
Qed.

(** A caller changes neither the suspension point nor the frames. *)
Lemma call_spec c (w : @World F) t w' t' :
  call c w t = (w', t') ->
  frames w' = frames w /\ vol_filter w' = vol_filter w /\
  point t' = point t /\ first_frame t' = first_frame t /\
  cancelled t' = cancelled t /\ old_task t' = old_task t /\
  done_fut (handle t') = done_fut (handle t) /\
  (interrupted (handle t) = true -> interrupted (handle t') = true).
Proof.
  destruct c; simpl; intros Hc; inversion Hc; subst; simpl; repeat split; try done.
  - unfold interrupt. by destruct (negb _).
  - unfold interrupt. by destruct (negb _).
Qed.

Lemma call_inv c (w : @World F) t w' t' :
  call c w t = (w', t') -> task_inv w t -> task_inv w' t'.
Proof.
  intros Hc [Hcan Hpt].
  destruct (call_spec _ _ _ _ _ Hc) as (Hfr & Hflt & Hp & Hff & Hca & Hold & Hd & Hint).
  split.
  - rewrite Hca, Hff. intros Ht. destruct (Hcan Ht) as [Hsb ?]. split; [|done].
    unfold should_break in *. rewrite Hflt.
    apply andb_true_iff in Hsb as [Hi Hq]. rewrite Hq, (Hint Hi). done.
  - unfold window_pre in *. rewrite Hp, Hff, Hca, Hd, Hfr. exact Hpt.
Qed.

(** The [while] loop keeps the invariant. *)
Lemma window_loop_inv w t fr ms20 i w' t' evs :
  window_pre w t fr ms20 i ->
  window_loop w t fr ms20 i = (w', t', evs) ->
  task_inv w' t' /\ frames_stable w w' /\ target_volume w' = target_volume w.
Proof.
  intros (Hd & Hff & Hca & Hms & Hle & Hk) Hw. unfold window_loop in Hw.
  destruct (i <? _) eqn:Hi.
  2:{ inversion Hw; subst. split; [|split; [apply frames_stable_refl|done]].
      split; simpl; [by rewrite Hca|done]. }
  apply Nat.ltb_lt in Hi.
  destruct (should_break w t) eqn:Hsb.
  { inversion Hw; subst. split; [|split; [apply frames_stable_refl|done]].
    split; simpl; [|done]. intros _. split; [|done].
    rewrite <- Hsb. by apply should_break_ext. }
  destruct (process_window w t fr ms20 i) as [w1 [e|[chunk i1]]] eqn:Hp.
  - destruct (finalize (Some e) t) as [t1 evs1] eqn:Hf. inversion Hw; subst.
    destruct (process_window_stable _ _ _ _ _ _ _ Hp) as (Htv & Hst & _).
    apply finalize_spec in Hf as [-> _]; [|done].
    split; [|done]. split; simpl; [by rewrite Hca|done].
  - inversion Hw; subst.
    destruct (process_window_stable _ _ _ _ _ _ _ Hp) as (Htv & Hst & _).
    apply process_window_ok in Hp. cbv zeta in Hp.
    destruct Hp as (Hn & Hin & -> & _ & _ & _).
    split; [|done]. split; cbn -[Nat.div Nat.min]; [by rewrite Hca|].
    destruct (Hst fr) as (Hsr & _ & _ & Hlen).
    unfold window_pre. cbn -[Nat.div Nat.min]. rewrite Hsr, Hlen.
    set (q := sample_rate (frames w !!! fr) / 100) in *.
    set (len := length (data (frames w !!! fr))) in *.
    repeat split; try done; try lia.
    destruct Hk as [[k ->] | ->]; [|lia].
    destruct (Nat.min_spec q (len - k * q)) as [[_ ->]|[_ ->]].
    + left. exists (S k). lia.
    + right. lia.
Qed.

Lemma finalize_inv r (w : @World F) t t' evs :
  finalize r t = (t', evs) -> done_fut (handle t) = false ->
  (cancelled t = true -> should_break w t = true /\ first_frame t = false) ->
  task_inv w t'.
Proof.
  intros Hf Hd Hc. apply finalize_spec in Hf as [-> _]; [|done].
  split; simpl; [|done]. intros Ht. destruct (Hc Ht) as [Hsb ?]. split; [|done].
  rewrite <- Hsb. by apply should_break_ext.
Qed.

(** The head of the frame loop keeps the invariant. *)
Lemma on_frame_inv w t fr w' t' evs :
  task_inv w t -> point t = AwaitNext ->
  on_frame w t fr = (w', t', evs) ->
  task_inv w' t' /\ frames_stable w w' /\ target_volume w' = target_volume w.
Proof.
  intros [Hcan Hpt] Hp Ho. rewrite Hp in Hpt. unfold on_frame in Ho.
  set (t1 := if first_frame t then set_first_frame false t else t) in *.
  assert (Ht1 : first_frame t1 = false /\ handle t1 = handle t /\
                cancelled t1 = cancelled t /\ old_task t1 = old_task t).
  { subst t1. destruct (first_frame t) eqn:Hff; simpl; by rewrite ?Hff. }
  destruct Ht1 as (Hff1 & Hh1 & Hc1 & Ho1).
  assert (Hsb1 : should_break w t1 = should_break w t)
    by (apply should_break_ext; [done|by rewrite Hh1]).
  replace (if first_frame t then (set_first_frame false t, [PlayoutStarted]) else (t, []))
    with (t1, if first_frame t then [PlayoutStarted] else @nil Event) in Ho
    by (subst t1; by destruct (first_frame t)).
  cbv iota beta in Ho.
  destruct (should_break w t1) eqn:Hsb.
  - destruct (finalize None (set_cancelled true t1)) as [t2 evs2] eqn:Hf.
    inversion Ho; subst w' t' evs.
    split; [|split; [apply frames_stable_refl|done]].
    eapply finalize_inv; [exact Hf| |]; simpl; [by rewrite Hh1|].
    intros _. split; [|done]. rewrite <- Hsb. by apply should_break_ext.
  - destruct (window_loop _ _ _ _ _) as [[w2 t2] evs2] eqn:Hw.
    inversion Ho; subst w' t' evs.
    eapply window_loop_inv; [|exact Hw].
    unfold window_pre. rewrite Hh1, Hc1.
    repeat split; try done; try lia.
    + destruct (cancelled t) eqn:Hc; [|done].
      destruct (Hcan eq_refl) as [Hx _]. congruence.
    + left. by exists 0.
Qed.

(** Every step of the task keeps the invariant, the geometry of the
    frames and the target volume. *)
Lemma resume_inv inp w t w' t' evs :
  task_inv w t -> resume inp w t = (w', t', evs) ->
  task_inv w' t' /\ frames_stable w w' /\ target_volume w' = target_volume w.
Proof.
  intros Hinv Hr. unfold resume in Hr.
  destruct (point t) as [| | |fr ms20 i|r] eqn:Hp.
  - (* Created *)
    destruct Hinv as [Hcan Hpt]. rewrite Hp in Hpt. destruct Hpt as (Hff & Hca & Hd).
    destruct inp as [| | |e]; try destruct (old_task t); inversion Hr; subst;
      (split; [|split; [apply frames_stable_refl|done]]);
      (split; simpl; rewrite ?Hp; [by rewrite Hca|auto]).
  - (* AwaitOld *)
    destruct Hinv as [Hcan Hpt]. rewrite Hp in Hpt. destruct Hpt as (Hff & Hca & Hd).
    destruct inp as [| | |e].
    1-3: inversion Hr; subst; (split; [|split; [apply frames_stable_refl|done]]);
         split; simpl; rewrite ?Hp; try done; by rewrite Hca.
    assert (Hfin : forall e', (let '(t1, evs1) := finalize (Some e') t in (w, t1, evs1))
              = (w', t', evs) ->
              task_inv w' t' /\ frames_stable w w' /\ target_volume w' = target_volume w).
    { intros e' He'. destruct (finalize (Some e') t) as [t1 evs1] eqn:Hf.
      inversion He'; subst. split; [|split; [apply frames_stable_refl|done]].
      eapply finalize_inv; [exact Hf|done|done]. }
    destruct e; try (by apply (Hfin _ Hr)).
    inversion Hr; subst; (split; [|split; [apply frames_stable_refl|done]]);
         split; simpl; [by rewrite Hca|done].
  - (* AwaitNext *)
    pose proof Hinv as [Hcan Hpt]. rewrite Hp in Hpt.
    destruct inp as [|fr| |e].
    + inversion Hr; subst. split; [|split; [apply frames_stable_refl|done]].
      split; [done|by rewrite Hp].
    + by eapply on_frame_inv.
    + destruct (finalize None t) as [t1 evs1] eqn:Hf. inversion Hr; subst.
      split; [|split; [apply frames_stable_refl|done]].
      eapply finalize_inv; [exact Hf|done|done].
    + destruct (finalize (Some e) t) as [t1 evs1] eqn:Hf. inversion Hr; subst.
      split; [|split; [apply frames_stable_refl|done]].
      eapply finalize_inv; [exact Hf|done|done].
  - (* AwaitCapture *)
    pose proof Hinv as [Hcan Hpt]. rewrite Hp in Hpt. destruct Hpt as [Hpre Hms].
    destruct inp as [| | |e].
    + by eapply window_loop_inv.
    + inversion Hr; subst. split; [|split; [apply frames_stable_refl|done]].
      split; [done|by rewrite Hp].
    + inversion Hr; subst. split; [|split; [apply frames_stable_refl|done]].
      split; [done|by rewrite Hp].
    + destruct (finalize (Some e) t) as [t1 evs1] eqn:Hf. inversion Hr; subst.
      split; [|split; [apply frames_stable_refl|done]].
      eapply finalize_inv; [exact Hf|apply Hpre|done].
  - (* Finished *)
    inversion Hr; subst. split; [|split; [apply frames_stable_refl|done]]. done.
Qed.

Lemma act_inv a w t w' t' evs :
  task_inv w t -> act a w t = (w', t', evs) ->
  task_inv w' t' /\ frames_stable w w'.
Proof.
  intros Hinv Ha. destruct a as [c|inp]; simpl in Ha.
  - destruct (call c w t) as [w1 t1] eqn:Hc. inversion Ha; subst.
    split; [by eapply call_inv|].
    apply call_spec in Hc as (Hfr & _). intros fr. rewrite Hfr.
    apply same_geometry_refl.
  - by destruct (resume_inv _ _ _ _ _ _ Hinv Ha) as (? & ? & _).
Qed.

Lemma run_script_inv sc : forall w t w' t' evs,
  task_inv w t -> run_script sc w t = (w', t', evs) ->
  task_inv w' t' /\ frames_stable w w'.
Proof.
  induction sc as [|a sc IH]; simpl; intros w t w' t' evs Hinv Hr.
  - inversion Hr; subst. split; [done|apply frames_stable_refl].
  - destruct (act a w t) as [[w1 t1] evs1] eqn:Ha.
    destruct (run_script sc w1 t1) as [[w2 t2] evs2] eqn:Hs.
    inversion Hr; subst.
    destruct (act_inv _ _ _ _ _ _ Hinv Ha) as [Hinv1 Hst1].
    destruct (IH _ _ _ _ _ Hinv1 Hs) as [Hinv2 Hst2].
    split; [done|by eapply frames_stable_trans].
Qed.

Lemma new_task_inv (w : @World F) old : task_inv w (new_task old).
Proof. by split. Qed.


(** A task that has entered its body resolves its handle when it
    finishes, whatever makes it finish. *)
Lemma resume_entered inp w t w' t' evs :
  task_inv w t -> entered t \/ (point t = Created /\ inp = Resumed) ->
  resume inp w t = (w', t', evs) -> entered t'.
Proof.
  unfold task_inv, window_pre, entered, resume, on_frame, window_loop, finalize.
  intros [_ Hpt] He Hr.
  repeat case_match; simplify_eq; simpl in *; try done;
    try (destruct He as [He|[? ?]]; done);
    try (destruct Hpt as (? & ? & ?); congruence);
    try (destruct Hpt as ((? & ?) & ?); congruence);
    try congruence;
    try (destruct He as [He|[? ?]]; congruence).
Qed.

Lemma streaming_shape_ext t t' evs :
  old_task t' = old_task t -> first_frame t' = first_frame t ->
  streaming_shape t evs -> streaming_shape t' evs.
Proof.
  unfold streaming_shape, handoff_events, stream_events. by intros -> ->.
Qed.

Lemma finalize_shape r t t' evs evs0 :
  finalize r t = (t', evs) -> done_fut (handle t) = false ->
  streaming_shape t evs0 -> trace_shape t' (evs0 ++ evs).
Proof.
  intros Hf Hd Hs. apply finalize_spec in Hf as [-> ->]; [|done].
  unfold trace_shape. simpl. exists evs0. split; [|done].
  by eapply streaming_shape_ext; [| |exact Hs].
Qed.

Lemma streaming_shape_capture t evs0 chunk :
  first_frame t = false -> streaming_shape t evs0 ->
  streaming_shape t (evs0 ++ [CaptureFrame chunk]).
Proof.
  unfold streaming_shape, stream_events. intros -> [chunks ->].
  exists (chunks ++ [chunk]). by rewrite map_app, <- app_assoc.
Qed.

Lemma window_loop_shape w t fr ms20 i w' t' evs evs0 :
  done_fut (handle t) = false -> first_frame t = false ->
  streaming_shape t evs0 ->
  window_loop w t fr ms20 i = (w', t', evs) ->
  trace_shape t' (evs0 ++ evs).
Proof.
  intros Hd Hff Hs Hw. unfold window_loop in Hw.
  repeat case_match; simplify_eq.
  - rewrite app_nil_r. unfold trace_shape. simpl.
    by eapply streaming_shape_ext; [| |exact Hs].
  - by eapply finalize_shape.
  - unfold trace_shape. simpl. apply streaming_shape_capture; [done|].
    by eapply streaming_shape_ext; [| |exact Hs].
  - rewrite app_nil_r. unfold trace_shape. simpl.
    by eapply streaming_shape_ext; [| |exact Hs].
Qed.

Lemma on_frame_shape w t fr w' t' evs evs0 :
  done_fut (handle t) = false -> streaming_shape t evs0 ->
  on_frame w t fr = (w', t', evs) ->
  trace_shape t' (evs0 ++ evs).
Proof.
  intros Hd Hs Ho. unfold on_frame in Ho.
  set (t1 := if first_frame t then set_first_frame false t else t) in *.
  assert (Ht1 : first_frame t1 = false /\ handle t1 = handle t /\
                old_task t1 = old_task t).
  { subst t1. destruct (first_frame t) eqn:Hff; simpl; by rewrite ?Hff. }
  destruct Ht1 as (Hff1 & Hh1 & Ho1).
  set (evs1 := if first_frame t then [PlayoutStarted] else @nil Event) in *.
  assert (Hs1 : streaming_shape t1 (evs0 ++ evs1)).
  { subst t1 evs1. destruct (first_frame t) eqn:Hff.
    - destruct Hs as [chunks ->]. exists [].
      unfold handoff_events, stream_events. simpl. rewrite Hff.
      by rewrite app_nil_r.
    - by rewrite app_nil_r. }
  replace (if first_frame t then (set_first_frame false t, [PlayoutStarted]) else (t, []))
    with (t1, evs1) in Ho by (subst t1 evs1; by destruct (first_frame t)).
  cbv iota beta in Ho.
  destruct (should_break w t1).
  - destruct (finalize None (set_cancelled true t1)) as [t2 evs2] eqn:Hf.
    inversion Ho; subst w' t' evs. rewrite app_assoc.
    eapply finalize_shape; [exact Hf| |]; simpl; [by rewrite Hh1|].
    by eapply streaming_shape_ext; [| |exact Hs1].
  - destruct (window_loop _ _ _ _ _) as [[w2 t2] evs2] eqn:Hw.
    inversion Ho; subst w' t' evs. rewrite app_assoc.
    eapply window_loop_shape; [| | |exact Hw]; try done. by rewrite Hh1.
Qed.

(** The events of a task always have the shape the three phases give. *)
Lemma resume_shape inp w t w' t' evs evs0 :
  task_inv w t -> trace_shape t evs0 ->
  resume inp w t = (w', t', evs) -> trace_shape t' (evs0 ++ evs).
Proof.
  intros [_ Hpt] Hs Hr. unfold resume in Hr. unfold trace_shape in Hs.
  destruct (point t) as [| | |fr ms20 i|r] eqn:Hp.
  - destruct Hpt as (Hff & _ & Hd). subst evs0.
    destruct inp as [| | |e]; try destruct (old_task t) eqn:Hold; simplify_eq;
      unfold trace_shape; simpl; rewrite ?Hp, ?Hd; try done.
    + exists []. unfold handoff_events, stream_events. simpl.
      by rewrite Hold, Hff.
    + exists []. unfold handoff_events, stream_events. simpl.
      by rewrite Hold, Hff.
  - destruct Hpt as (_ & _ & Hd).
    destruct inp as [| | |e]; simplify_eq; rewrite ?app_nil_r;
      try (unfold trace_shape; simpl; rewrite ?Hp; done).
    destruct e; try (destruct (finalize _ t) as [t1 evs1] eqn:Hf; simplify_eq;
                     by eapply finalize_shape).
    simplify_eq. rewrite app_nil_r. by unfold trace_shape.
  - destruct inp as [|fr| |e]; simplify_eq; rewrite ?app_nil_r;
      try (unfold trace_shape; simpl; rewrite ?Hp; done).
    + by eapply on_frame_shape.
    + destruct (finalize _ t) as [t1 evs1] eqn:Hf; simplify_eq.
      by eapply finalize_shape.
    + destruct (finalize _ t) as [t1 evs1] eqn:Hf; simplify_eq.
      by eapply finalize_shape.
  - destruct Hpt as [(Hd & Hff & _) _].
    destruct inp as [| | |e]; simplify_eq; rewrite ?app_nil_r;
      try (unfold trace_shape; simpl; rewrite ?Hp; done).
    + by eapply window_loop_shape.
    + destruct (finalize _ t) as [t1 evs1] eqn:Hf; simplify_eq.
      by eapply finalize_shape.
  - simplify_eq. rewrite app_nil_r. unfold trace_shape. by rewrite Hp.
Qed.

Lemma finalize_no_capture r t t' evs c :
  finalize r t = (t', evs) -> ~ In (CaptureFrame c) evs.
Proof.
  unfold finalize. intros Hf Hin.
  repeat case_match; simplify_eq; simpl in Hin; intuition discriminate.
Qed.

(** The window the [while] loop hands to the sink. *)
Lemma window_loop_capture w t fr ms20 i w' t' evs c :
  window_pre w t fr ms20 i ->
  window_loop w t fr ms20 i = (w', t', evs) ->
  In (CaptureFrame c) evs ->
  let f := frames w !!! fr in
  let n := length (data c) in
  evs = [CaptureFrame c] /\
  point t' = AwaitCapture fr ms20 (i + n) /\
  (exists k, i = k * ms20) /\
  sample_rate c = sample_rate f /\ num_channels c = num_channels f /\
  samples_per_channel c = n /\ 0 < n /\
  (n = ms20 \/ (n < ms20 /\ i + n = length (data f))) /\
  data c = take n (drop i (data (frames w' !!! fr))).
Proof.
  intros (Hd & Hff & Hca & Hms & Hle & Hk) Hw Hin. unfold window_loop in Hw.
  destruct (i <? _) eqn:Hi; [|by simplify_eq].
  apply Nat.ltb_lt in Hi.
  destruct (should_break w t); [by simplify_eq|].
  destruct (process_window w t fr ms20 i) as [w1 [e|[chunk i1]]] eqn:Hp.
  { destruct (finalize (Some e) t) as [t1 evs1] eqn:Hf. simplify_eq.
    by destruct (finalize_no_capture _ _ _ _ _ Hf Hin). }
  simplify_eq. destruct Hin as [Hin|[]]. simplify_eq.
  pose proof (process_window_copy _ _ _ _ _ _ _ _ Hp) as Hcopy.
  apply process_window_ok in Hp. cbv zeta in Hp.
  destruct Hp as (Hn & Hin & -> & Hout & -> & ->).
  cbn -[Nat.div Nat.min] in *. rewrite Hout in *.
  set (q := sample_rate (frames w !!! fr) / 100) in *.
  set (len := length (data (frames w !!! fr))) in *.
  split_and!; try done.
  - destruct Hk as [Hk | ->]; [done|lia].
  - destruct (Nat.min_spec q (len - i)) as [[? ->]|[? ->]]; lia.
Qed.

End StepFacts.

(** ** A task along a script *)

Section ScriptFacts.
Context {F : Type} `{VolFilter F}.

Lemma count_app p l1 l2 : count p (l1 ++ l2) = count p l1 + count p l2.
Proof. induction l1 as [|e l1 IH]; simpl; [done|]. rewrite IH. lia. Qed.

Lemma count_captures p chunks :
  (forall f, p (CaptureFrame f) = false) -> count p (map CaptureFrame chunks) = 0.
Proof. intros Hp. induction chunks as [|c cs IH]; simpl; [done|]. by rewrite Hp, IH. Qed.


Lemma streaming_shape_counts t evs :
  streaming_shape t evs ->
  count is_started evs = (if first_frame t then 0 else 1) /\
  count is_stopped evs = 0 /\ count is_set_result evs = 0.
Proof.
  intros [chunks ->]. unfold handoff_events, stream_events.
  rewrite !count_app.
  destruct (old_task t), (first_frame t); simpl;
    rewrite ?count_captures; done.
Qed.

Lemma call_shape c (w : @World F) t w' t' evs :
  call c w t = (w', t') -> trace_shape t evs -> trace_shape t' evs.
Proof.
  destruct c; simpl; intros Hc; inversion Hc; subst; [|done].
  unfold trace_shape, streaming_shape, handoff_events, stream_events,
    final_events, interrupt. simpl.
  by destruct (negb (playing (handle t))).
Qed.





(** *** Running to completion *)

Lemma finalize_finished r t t' evs :
  finalize r t = (t', evs) -> is_finished t' = true.
Proof. unfold finalize. intros Hf. by case_match; simplify_eq. Qed.

Lemma window_loop_point w t fr ms20 i w' t' evs :
  window_loop w t fr ms20 i = (w', t', evs) ->
  is_finished t' = true \/ point t' = AwaitNext \/
  exists i', point t' = AwaitCapture fr ms20 i' /\ i < i' /\
             i' <= length (data (frames w !!! fr)).
Proof.
  unfold window_loop. intros Hw.
  repeat case_match; simplify_eq; simpl; auto.
  - left. by eapply finalize_finished.
  - right. right. eexists. split; [done|].
    match goal with Hp : process_window _ _ _ _ _ = _ |- _ =>
      apply process_window_ok in Hp; cbv zeta in Hp;
      destruct Hp as (? & ? & -> & _) end.
    lia.
Qed.

Lemma on_frame_point w t fr w' t' evs :
  on_frame w t fr = (w', t', evs) ->
  is_finished t' = true \/ point t' = AwaitNext \/
  exists ms20 i', point t' = AwaitCapture fr ms20 i' /\ 0 < i' /\
                  i' <= length (data (frames w !!! fr)).
Proof.
  unfold on_frame. intros Ho.
  repeat case_match; simplify_eq;
    try (left; by eapply finalize_finished);
    match goal with Hw : window_loop _ _ _ _ _ = _ |- _ =>
      apply window_loop_point in Hw as [?|[?|(i' & ? & ? & ?)]] end;
    eauto 8.
Qed.

Lemma frame_cost_stable (w w' : @World F) src :
  frames_stable w w' ->
  list_sum (map (frame_cost w') src) = list_sum (map (frame_cost w) src).
Proof.
  intros Hst. induction src as [|[fr|e] src IH]; simpl; [done| |by rewrite IH].
  destruct (Hst fr) as (_ & _ & _ & ->). by rewrite IH.
Qed.

(** Every step brings the task closer to its end. *)
Lemma resume_progress e k src w t inp src' w' t' evs :
  task_inv w t -> is_finished t = false ->
  next_input e k src (point t) = (inp, src') ->
  resume inp w t = (w', t', evs) ->
  steps_left w' t' src' < steps_left w t src.
Proof.
  intros Hinv Hnf Hn Hr.
  destruct (resume_inv _ _ _ _ _ _ Hinv Hr) as (_ & Hst & _).
  assert (Hfin : is_finished t' = true -> steps_left w' t' src' = 0).
  { unfold is_finished, steps_left. by destruct (point t'). }
  unfold resume in Hr. unfold steps_left at 2.
  destruct (point t) as [| | |fr ms20 i|r] eqn:Hp; simpl in Hn;
    [| | | |by unfold is_finished in Hnf; rewrite Hp in Hnf].
  - inversion Hn; subst. unfold steps_left.
    destruct (old_task t); inversion Hr; subst; simpl; lia.
  - assert (src' = src) as -> by (by inversion Hn).
    assert (is_finished t' = true \/ point t' = AwaitNext) as [Hf|Hpt'].
    { destruct (env_old e) as [ex|]; inversion Hn; subst inp;
        [destruct ex|]; try (inversion Hr; subst; simpl; by auto);
        destruct (finalize _ t) as [t1 evs1] eqn:Hf; inversion Hr; subst;
        left; by eapply finalize_finished. }
    + rewrite (Hfin Hf). lia.
    + unfold steps_left. rewrite Hpt', (frame_cost_stable _ _ _ Hst). lia.
  - destruct src as [|[fr|ex] src0]; inversion Hn; subst.
    + destruct (finalize None t) as [t1 evs1] eqn:Hf. inversion Hr; subst.
      apply finalize_finished in Hf. rewrite (Hfin Hf). lia.
    + simpl. destruct (Hst fr) as (_ & _ & _ & Hlen).
      apply on_frame_point in Hr as [Hf|[Hpt'|(ms & i' & Hpt' & ? & ?)]].
      * rewrite (Hfin Hf). lia.
      * unfold steps_left. rewrite Hpt', (frame_cost_stable _ _ _ Hst). lia.
      * unfold steps_left. rewrite Hpt', (frame_cost_stable _ _ _ Hst), Hlen. lia.
    + destruct (finalize _ t) as [t1 evs1] eqn:Hf. inversion Hr; subst.
      apply finalize_finished in Hf. rewrite (Hfin Hf). lia.
  - assert (src' = src) as -> by (by inversion Hn).
    destruct (Hst fr) as (_ & _ & _ & Hlen).
    destruct (env_sink e k) as [ex|]; inversion Hn; subst inp.
    + destruct (finalize _ t) as [t1 evs1] eqn:Hf. inversion Hr; subst.
      apply finalize_finished in Hf. rewrite (Hfin Hf). lia.
    + apply window_loop_point in Hr as [Hf|[Hpt'|(i' & Hpt' & ? & ?)]].
      * rewrite (Hfin Hf). lia.
      * unfold steps_left. rewrite Hpt', (frame_cost_stable _ _ _ Hst). lia.
      * unfold steps_left. rewrite Hpt', (frame_cost_stable _ _ _ Hst), Hlen. lia.
Qed.

Lemma calls_spec cs : forall (w : @World F) t w' t',
  calls cs w t = (w', t') -> task_inv w t ->
  task_inv w' t' /\ point t' = point t /\ frames w' = frames w /\
  done_fut (handle t') = done_fut (handle t) /\
  forall evs, trace_shape t evs -> trace_shape t' evs.
Proof.
  unfold calls. induction cs as [|c cs IH]; simpl; intros w t w' t' Hc Hinv.
  - inversion Hc; subst. by split_and!.
  - destruct (call c w t) as [w1 t1] eqn:Hc1. simpl in Hc.
    destruct (IH _ _ _ _ Hc (call_inv _ _ _ _ _ Hc1 Hinv)) as (? & Hp & Hf & Hd & Hs).
    destruct (call_spec _ _ _ _ _ Hc1) as (Hf1 & _ & Hp1 & _ & _ & _ & Hd1 & _).
    split_and!; try done; try congruence.
    intros evs Hevs. apply Hs. by eapply call_shape.
Qed.

Lemma steps_left_ext (w w' : @World F) t t' src :
  point t' = point t -> frames w' = frames w ->
  steps_left w' t' src = steps_left w t src.
Proof.
  unfold steps_left. intros -> Hf.
  assert (Hc : map (frame_cost w') src = map (frame_cost w) src).
  { apply map_ext. intros [fr|ex]; simpl; by rewrite ?Hf. }
  rewrite Hc, Hf. done.
Qed.

(** With enough steps the task finishes, with its handle resolved. *)
Lemma drive_finishes e fuel : forall k src w t evs0 w' t' evs,
  task_inv w t -> entered t \/ point t = Created -> trace_shape t evs0 ->
  steps_left w t src <= fuel ->
  drive fuel k e src w t = (w', t', evs) ->
  is_finished t' = true /\ entered t' /\ trace_shape t' (evs0 ++ evs).
Proof.
  induction fuel as [|fuel IH]; intros k src w t evs0 w' t' evs Hinv Hent Hs Hfuel Hd.
  - simpl in Hd. inversion Hd; subst. rewrite app_nil_r.
    unfold steps_left in Hfuel. unfold is_finished, entered in *.
    destruct (point t'); try lia. destruct Hent as [?|?]; done.
  - simpl in Hd. destruct (is_finished t) eqn:Hfin.
    { inversion Hd; subst. rewrite app_nil_r. split; [done|]. split; [|done].
      unfold is_finished, entered in *. destruct (point t'); try done.
      by destruct Hent. }
    destruct (calls (env_calls e k) w t) as [w0 t0] eqn:Hc.
    destruct (calls_spec _ _ _ _ _ Hc Hinv) as (Hinv0 & Hp0 & Hf0 & Hd0 & Hs0).
    destruct (next_input e k src (point t0)) as [inp src'] eqn:Hn.
    destruct (resume inp w0 t0) as [[w1 t1] evs1] eqn:Hr.
    destruct (drive fuel (S k) e src' w1 t1) as [[w2 t2] evs2] eqn:Hdr.
    inversion Hd; subst. rewrite app_assoc.
    assert (Hnf0 : is_finished t0 = false) by (unfold is_finished in *; by rewrite Hp0).
    pose proof (resume_progress _ _ _ _ _ _ _ _ _ _ Hinv0 Hnf0 Hn Hr) as Hlt.
    rewrite (steps_left_ext _ _ _ _ src Hp0 Hf0) in Hlt.
    destruct (resume_inv _ _ _ _ _ _ Hinv0 Hr) as (Hinv1 & _ & _).
    eapply (IH (S k) src' w1 t1 (evs0 ++ evs1)); [exact Hinv1| | |lia|exact Hdr].
    + left. eapply resume_entered; [exact Hinv0| |exact Hr].
      unfold entered in *. rewrite Hp0, Hd0.
      destruct Hent as [He|He]; [by left|].
      right. split; [done|]. rewrite Hp0, He in Hn. by inversion Hn.
    + eapply resume_shape; [exact Hinv0| |exact Hr]. by apply Hs0.
Qed.

(** C2.  Whatever the predecessor, the source, the sink and the callers
    do (a source that ends or raises, a sink that raises, a cancellation
    delivered at any wait), a playout task that is resumed as often as
    the length of its source requires finishes, and when it does its
    handle is resolved, [set_result] has been called exactly once, and
    that call is the last thing the task did. *)
Theorem playout_always_signals_completion (e : Env) (src : list SourceItem)
    (w : @World F) (old : option nat) (extra : nat) :
  let '(_, t', evs) := drive (budget w src + extra) 0 e src w (new_task old) in
  is_finished t' = true /\ done_fut (handle t') = true /\
  count is_set_result evs = 1 /\ exists pre, evs = pre ++ [SetResult].
Proof.
  destruct (drive _ _ _ _ _ _) as [[w' t'] evs] eqn:Hd.
  destruct (drive_finishes e (budget w src + extra) 0 src w (new_task old) [] w' t' evs)
    as (Hf & He & Hs);
    [apply new_task_inv|by right|done|unfold steps_left, budget; simpl; lia|exact Hd|].
  simpl in Hs. unfold is_finished, entered, trace_shape in *.
  destruct (point t'); try done. rewrite He in *.
  destruct Hs as (evs0 & Hs0 & ->).
  destruct (streaming_shape_counts _ _ Hs0) as (_ & _ & H3).
  repeat split; try done.
  - unfold final_events. rewrite !count_app, H3. by destruct (first_frame t').
  - unfold final_events. rewrite app_assoc. by eexists.
Qed.

(** *** A playout run to completion is a script *)





(** C8.  Whenever a playout task hands a frame to the sink, it is working
    on a frame [fr] it received, at an offset [i] that is a multiple of
    [sample_rate / 100]; the chunk has the sample rate and channel count of
    [fr] and [samples_per_channel] equal to its number of samples; it holds
    the samples of [fr] from [i] on, exactly [sample_rate / 100] of them
    unless fewer are left, in which case it is the last window of the
    frame; and the next window starts where this one ends. *)
Theorem windows_are_consecutive_20ms_chunks (old : option nat) (w0 : @World F)
    (sc : list Act) w t evs0 a w' t' evs c :
  run_script sc w0 (new_task old) = (w, t, evs0) ->
  act a w t = (w', t', evs) ->
  In (CaptureFrame c) evs ->
  exists fr i,
    let f := frames w !!! fr in
    let ms20 := sample_rate f / 100 in
    let n := length (data c) in
    ((point t = AwaitCapture fr ms20 i /\ a = Run Resumed) \/
     (point t = AwaitNext /\ a = Run (Frame fr) /\ i = 0)) /\
    point t' = AwaitCapture fr ms20 (i + n) /\
    (exists k, i = k * ms20) /\
    sample_rate c = sample_rate f /\ num_channels c = num_channels f /\
    samples_per_channel c = n /\ 0 < n /\
    (n = ms20 \/ (n < ms20 /\ i + n = length (data f))) /\
    data c = take n (drop i (data (frames w' !!! fr))).
Proof.
  intros Hrun Ha Hin.
  destruct (run_script_inv _ _ _ _ _ _ (new_task_inv w0 old) Hrun) as [[Hcan Hpt] _].
  destruct a as [cl|inp]; simpl in Ha.
  { destruct (call cl w t). by simplify_eq. }
  unfold resume in Ha.
  destruct (point t) as [| | |fr ms20 i|r] eqn:Hp.
  - destruct inp; try destruct (old_task t); simplify_eq; simpl in Hin;
      intuition discriminate.
  - destruct inp as [| | |e]; try destruct e; simplify_eq; try done;
      destruct (finalize _ t) as [t1 evs1] eqn:Hf; simplify_eq;
      by destruct (finalize_no_capture _ _ _ _ _ Hf Hin).
  - destruct inp as [|fr| |e]; simplify_eq; try done.
    2,3: destruct (finalize _ t) as [t1 evs1] eqn:Hf; simplify_eq;
         by destruct (finalize_no_capture _ _ _ _ _ Hf Hin).
    unfold on_frame in Ha.
    set (t1 := if first_frame t then set_first_frame false t else t) in *.
    assert (Ht1 : first_frame t1 = false /\ handle t1 = handle t /\
                  cancelled t1 = cancelled t).
    { subst t1. destruct (first_frame t) eqn:Hff; simpl; by rewrite ?Hff. }
    destruct Ht1 as (Hff1 & Hh1 & Hc1).
    set (evs1 := if first_frame t then [PlayoutStarted] else @nil Event) in *.
    replace (if first_frame t then (set_first_frame false t, [PlayoutStarted]) else (t, []))
      with (t1, evs1) in Ha by (subst t1 evs1; by destruct (first_frame t)).
    cbv iota beta in Ha.
    assert (Hin1 : ~ In (CaptureFrame c) evs1)
      by (subst evs1; destruct (first_frame t); simpl; intuition discriminate).
    destruct (should_break w t1) eqn:Hsb.
    { destruct (finalize None _) as [t2 evs2] eqn:Hf. simplify_eq.
      apply in_app_or in Hin as [?|Hin]; [done|].
      by destruct (finalize_no_capture _ _ _ _ _ Hf Hin). }
    destruct (window_loop _ _ _ _ _) as [[w2 t2] evs2] eqn:Hw. simplify_eq.
    apply in_app_or in Hin as [?|Hin]; [done|].
    eapply window_loop_capture in Hw; [| |exact Hin].
    + cbv zeta in Hw. destruct Hw as (_ & Hw).
      exists fr, 0. cbv zeta. split; [right; done|]. exact Hw.
    + unfold window_pre. rewrite Hh1, Hc1.
      split_and!; try done; try lia.
      * destruct (cancelled t) eqn:Hc; [|done].
        destruct (Hcan eq_refl) as [Hx _].
        rewrite <- Hx, <- Hsb. symmetry. apply should_break_ext; [done|by rewrite Hh1].
      * left. by exists 0.
  - destruct Hpt as [Hpre Hms].
    destruct inp as [| | |e]; simplify_eq; try done.
    2: destruct (finalize _ t) as [t1 evs1] eqn:Hf; simplify_eq;
       by destruct (finalize_no_capture _ _ _ _ _ Hf Hin).
    pose proof Hpre as (_ & _ & _ & Hq & _).
    eapply window_loop_capture in Ha; [|exact Hpre|exact Hin].
    cbv zeta in Ha. destruct Ha as (_ & Ha).
    exists fr, i. cbv zeta. rewrite <- Hq. split; [left; done|]. exact Ha.
  - by simplify_eq.
Qed.

(** Once the break condition holds, no step processes a window: nothing
    goes to the sink, the filter and the frames stay as they are, and the
    condition keeps holding. *)
Lemma act_after_break a w t w' t' evs :
  should_break w t = true -> act a w t = (w', t', evs) ->
  (forall c, ~ In (CaptureFrame c) evs) /\ vol_filter w' = vol_filter w /\
  frames w' = frames w /\ should_break w' t' = true.
Proof.
  intros Hsb Ha. destruct a as [cl|inp]; simpl in Ha.
  - destruct (call cl w t) as [w1 t1] eqn:Hc.
    destruct (call_spec _ _ _ _ _ Hc) as (Hfr & Hflt & _ & _ & _ & _ & _ & Hint).
    inversion Ha; subst w' t' evs.
    split_and!; [by intros c []|done|done|].
    unfold should_break in *. rewrite Hflt.
    apply andb_true_iff in Hsb as [Hi Hq]. by rewrite (Hint Hi), Hq.
  - unfold resume, on_frame, window_loop, finalize in Ha.
    unfold should_break in *.
    repeat case_match; simplify_eq; simpl in *; try congruence;
      (split_and!; [intros c Hin; simpl in Hin; intuition discriminate|done..]).
Qed.



(** C10.  When the break condition is found to hold at a window check with
    samples of the frame still left, the task leaves the frame, records the
    cancellation and goes back to its source for the next frame, without
    finishing.  It stays there whatever callers do; it finishes, with
    [playout_stopped(True)] and the completion of the handle, only when the
    source answers: a further frame is taken and dropped unprocessed, the
    end of the source or an exception ends the task as well. *)
Theorem mid_frame_break_defers_termination (old : option nat) (w0 : @World F)
    (sc : list Act) w t evs0 fr ms20 i :
  run_script sc w0 (new_task old) = (w, t, evs0) ->
  point t = AwaitCapture fr ms20 i ->
  i < length (data (frames w !!! fr)) ->
  should_break w t = true ->
  exists t1,
    resume Resumed w t = (w, t1, []) /\
    point t1 = AwaitNext /\ cancelled t1 = true /\
    forall cs w2 t2, calls cs w t1 = (w2, t2) ->
      point t2 = AwaitNext /\
      forall inp, inp <> Resumed ->
        exists t3,
          resume inp w2 t2 = (w2, t3, [PlayoutStopped true; SetResult]) /\
          point t3 = Finished (match inp with Raised e => Some e | _ => None end) /\
          done_fut (handle t3) = true.
Proof.
  intros Hrun Hp Hi Hsb.
  destruct (run_script_inv _ _ _ _ _ _ (new_task_inv w0 old) Hrun) as [Hinv _].
  pose proof Hinv as [_ Hpt]. rewrite Hp in Hpt.
  destruct Hpt as [(Hd & Hff & _) _].
  exists (set_point AwaitNext (set_cancelled true t)).
  assert (Hr : resume Resumed w t = (w, set_point AwaitNext (set_cancelled true t), [])).
  { unfold resume. rewrite Hp. unfold window_loop.
    apply Nat.ltb_lt in Hi. by rewrite Hi, Hsb. }
  split_and!; try done.
  intros cs w2 t2 Hc.
  destruct (resume_inv _ _ _ _ _ _ Hinv Hr) as (Hinv1 & _ & _).
  assert (Hgen : forall cs (w1 : @World F) t1 w2 t2,
             calls cs w1 t1 = (w2, t2) ->
             should_break w1 t1 = true -> should_break w2 t2 = true /\
             point t2 = point t1 /\ first_frame t2 = first_frame t1 /\
             cancelled t2 = cancelled t1 /\ done_fut (handle t2) = done_fut (handle t1)).
  { clear. unfold calls. induction cs as [|c cs IH]; simpl; intros w1 t1 w2 t2 Hc Hsb.
    - by simplify_eq.
    - destruct (call c w1 t1) as [w3 t3] eqn:Hc3. simpl in Hc.
      destruct (act_after_break (Call c) w1 t1 w3 t3 [] Hsb) as (_ & _ & _ & Hsb3).
      { simpl. by rewrite Hc3. }
      destruct (call_spec _ _ _ _ _ Hc3) as (_ & _ & ? & ? & ? & _ & ? & _).
      destruct (IH _ _ _ _ Hc Hsb3) as (? & ? & ? & ? & ?).
      split_and!; congruence. }
  destruct (Hgen cs w (set_point AwaitNext (set_cancelled true t)) w2 t2 Hc)
    as (Hsb2 & Hp2 & Hff2 & Hca2 & Hd2).
  { rewrite <- Hsb. by apply should_break_ext. }
  simpl in *. split; [done|].
  intros inp Hinp. unfold resume. rewrite Hp2.
  destruct inp as [|fr'| |e]; [done| | |].
  - unfold on_frame. rewrite Hff2, Hff, Hsb2. unfold finalize. simpl.
    rewrite Hff2, Hff, Hd2, Hd. simpl. eexists. by split_and!.
  - unfold finalize. rewrite Hff2, Hff, Hd2, Hd, Hca2. simpl. eexists. by split_and!.
  - unfold finalize. rewrite Hff2, Hff, Hd2, Hd, Hca2. simpl. eexists. by split_and!.
Qed.

End ScriptFacts.

(** ** Concrete runs of a playout task *)

Lemma interrupted_start_state :
  run_script interrupted_start world_a (new_task None) =
    (world_a1, task_a1, [PlayoutStarted; CaptureFrame (mkAudioFrame [100%Z] 100 1 1)]).
Proof. vm_compute; reflexivity. Qed.

(** C1, counterexample.  Under [alpha = 1/4] the first window goes out at
    gain 1.0; the handle is then interrupted, so the second sample, 3, meets
    the filter value 1/4: the task hands [int(0.75) = 0] to the sink, where
    the claim's [round(3 * 0.25)] is 1. *)
Lemma scaled_sample_is_not_rounded :
  run_script (interrupted_start ++ [Run Resumed]) world_a (new_task None) =
    (mkWorld 1 (mkExpFilter 0.25 0.25)
             {[0 := mkAudioFrame [100; 0; -7]%Z 100 1 3]},
     mkTask None (mkHandle true false) false false (AwaitCapture 0 1 2),
     [PlayoutStarted; CaptureFrame (mkAudioFrame [100%Z] 100 1 1);
      CaptureFrame (mkAudioFrame [0%Z] 100 1 1)]) /\
  scale_sample 3 0.25 = inr 0%Z /\
  spec_scale_sample 3 0.25 = Some 1%Z.
Proof. split_and!; vm_compute; reflexivity. Qed.

(** The product is rounded to binary64 before [int] cuts its fraction
    off: for the sample 3 and the gain 0x1.5555555555555p-2, just below
    1/3, the exact product is below 1, the binary64 product is 1.0, and
    line 121 writes 1. *)
Lemma scaled_sample_follows_binary64 :
  scale_sample 3 0x1.5555555555555p-2 = inr 1%Z /\
  exists q, float_value 0x1.5555555555555p-2 = Some q /\
            trunc (inject_Z 3 * q) = 0%Z.
Proof.
  split; [vm_compute; reflexivity|].
  eexists. split; [vm_compute; reflexivity|]. vm_compute; reflexivity.
Qed.

Lemma window_gain_is_truncated_witness :
  let w' := mkWorld 1 (mkExpFilter 0.25 0.25)
                    {[0 := mkAudioFrame [100; 0; -7]%Z 100 1 3]} in
  let chunk := mkAudioFrame [0%Z] 100 1 1 in
  process_window world_a1 task_a1 0 1 1 = (w', inr (chunk, 2)) /\
  (let n := length (data chunk) in
   let tv := if interrupted (handle task_a1) then 0%float else target_volume world_a1 in
   let dt := (1 / Z2float (Z.of_nat n))%float in
   let vols := fst (filter_steps n dt tv (vol_filter world_a1)) in
   0 < n /\ n = min 1 (length (data (frames world_a1 !!! 0)) - 1) /\
   length vols = n /\
   vol_filter w' = snd (filter_steps n dt tv (vol_filter world_a1)) /\
   Forall2 (fun out sv =>
              let product := (Z2float (fst sv) / 32768 * snd sv * 32768)%float in
              py_int product = inr out /\
              exists q, float_value product = Some q /\ out = trunc q /\
                (Qabs (inject_Z out) <= Qabs q)%Q /\
                (Qabs q < Qabs (inject_Z out) + 1)%Q)
           (data chunk) (zip (take n (drop 1 (data (frames world_a1 !!! 0)))) vols)).
Proof.
  intros w' chunk.
  assert (Hp : process_window world_a1 task_a1 0 1 1 = (w', inr (chunk, 2)))
    by (vm_compute; reflexivity).
  split; [exact Hp|].
  exact (window_gain_is_truncated world_a1 task_a1 0 1 1 w' chunk 2 Hp).
Defined.

(** C9, counterexample.  The interrupted playout of [frame_a] hands the
    samples 100, 0, 0 to the sink; afterwards the frame object received from
    the source holds these values instead of 100, 3, -7. *)
Lemma received_frame_is_overwritten :
  frames world_a !! 0 = Some (mkAudioFrame [100; 3; -7]%Z 100 1 3) /\
  run_script interrupted_playout world_a (new_task None) =
    (mkWorld 1 (mkExpFilter 0.25 0.0625)
             {[0 := mkAudioFrame [100; 0; 0]%Z 100 1 3]},
     mkTask None (mkHandle true true) false false (Finished None),
     [PlayoutStarted; CaptureFrame (mkAudioFrame [100%Z] 100 1 1);
      CaptureFrame (mkAudioFrame [0%Z] 100 1 1);
      CaptureFrame (mkAudioFrame [0%Z] 100 1 1);
      PlayoutStopped false; SetResult]).
Proof. split; vm_compute; reflexivity. Qed.

Lemma window_overwrites_received_frame_witness :
  process_window world_a1 task_a1 0 1 1 =
    (mkWorld 1 (mkExpFilter 0.25 0.25)
             {[0 := mkAudioFrame [100; 0; -7]%Z 100 1 3]},
     inr (mkAudioFrame [0%Z] 100 1 1, 2)) /\
  (2 = 1 + length [0%Z] /\
   ({[0 := mkAudioFrame [100; 0; -7]%Z 100 1 3]} : gmap nat AudioFrame) =
     <[0 := set_data (take 1 (data (frames world_a1 !!! 0)) ++ [0%Z]
                      ++ drop 2 (data (frames world_a1 !!! 0)))
                     (frames world_a1 !!! 0)]> (frames world_a1) /\
   take (length [0%Z])
        (drop 1 (data (({[0 := mkAudioFrame [100; 0; -7]%Z 100 1 3]}
                         : gmap nat AudioFrame) !!! 0))) = [0%Z] /\
   (forall fr', fr' <> 0 ->
      ({[0 := mkAudioFrame [100; 0; -7]%Z 100 1 3]} : gmap nat AudioFrame) !! fr'
      = frames world_a1 !! fr')).
Proof.
  split; [vm_compute; reflexivity|].
  assert (Hp : process_window world_a1 task_a1 0 1 1 =
    (mkWorld 1 (mkExpFilter 0.25 0.25)
             {[0 := mkAudioFrame [100; 0; -7]%Z 100 1 3]},
     inr (mkAudioFrame [0%Z] 100 1 1, 2))) by (vm_compute; reflexivity).
  exact (window_overwrites_received_frame _ _ _ _ _ _ _ _ Hp).
Defined.

Lemma windows_are_consecutive_20ms_chunks_witness :
  run_script [Run Resumed; Run (Frame 0); Run Resumed] world_b (new_task None) =
    (world_b, mkTask None new_handle false false (AwaitCapture 0 2 4),
     [PlayoutStarted; CaptureFrame (mkAudioFrame [10; 20]%Z 200 1 2);
      CaptureFrame (mkAudioFrame [30; 40]%Z 200 1 2)]) /\
  act (Run Resumed) world_b (mkTask None new_handle false false (AwaitCapture 0 2 4)) =
    (world_b, mkTask None new_handle false false (AwaitCapture 0 2 5),
     [CaptureFrame (mkAudioFrame [50%Z] 200 1 1)]) /\
  In (CaptureFrame (mkAudioFrame [50%Z] 200 1 1))
     [CaptureFrame (mkAudioFrame [50%Z] 200 1 1)] /\
  exists fr i,
    let f := frames world_b !!! fr in
    let ms20 := sample_rate f / 100 in
    let n := length (data (mkAudioFrame [50%Z] 200 1 1)) in
    ((point (mkTask None new_handle false false (AwaitCapture 0 2 4))
        = AwaitCapture fr ms20 i /\ Run Resumed = Run Resumed) \/
     (point (mkTask None new_handle false false (AwaitCapture 0 2 4)) = AwaitNext /\
      Run Resumed = Run (Frame fr) /\ i = 0)) /\
    point (mkTask None new_handle false false (AwaitCapture 0 2 5))
      = AwaitCapture fr ms20 (i + n) /\
    (exists k, i = k * ms20) /\
    sample_rate (mkAudioFrame [50%Z] 200 1 1) = sample_rate f /\
    num_channels (mkAudioFrame [50%Z] 200 1 1) = num_channels f /\
    samples_per_channel (mkAudioFrame [50%Z] 200 1 1) = n /\ 0 < n /\
    (n = ms20 \/ (n < ms20 /\ i + n = length (data f))) /\
    data (mkAudioFrame [50%Z] 200 1 1) = take n (drop i (data (frames world_b !!! fr))).
Proof.
  split; [vm_compute; reflexivity|].
  split; [vm_compute; reflexivity|].
  split; [by left|].
  apply (windows_are_consecutive_20ms_chunks None world_b
           [Run Resumed; Run (Frame 0); Run Resumed]
           world_b (mkTask None new_handle false false (AwaitCapture 0 2 4))
           [PlayoutStarted; CaptureFrame (mkAudioFrame [10; 20]%Z 200 1 2);
            CaptureFrame (mkAudioFrame [30; 40]%Z 200 1 2)]
           (Run Resumed)
           world_b (mkTask None new_handle false false (AwaitCapture 0 2 5))
           [CaptureFrame (mkAudioFrame [50%Z] 200 1 1)]
           (mkAudioFrame [50%Z] 200 1 1)).
  - vm_compute; reflexivity.
  - vm_compute; reflexivity.
  - by left.
Defined.

Lemma mid_frame_break_defers_termination_witness :
  let w := mkWorld 1 (mkExpFilter 0x1p-10 0x1p-20)
                   {[0 := mkAudioFrame [100; 0; 0; 5]%Z 100 1 4]} in
  let t := mkTask None (mkHandle true false) false false (AwaitCapture 0 1 3) in
  run_script (interrupted_start ++ [Run Resumed; Run Resumed])
             world_c (new_task None) =
    (w, t, [PlayoutStarted; CaptureFrame (mkAudioFrame [100%Z] 100 1 1);
            CaptureFrame (mkAudioFrame [0%Z] 100 1 1);
            CaptureFrame (mkAudioFrame [0%Z] 100 1 1)]) /\
  point t = AwaitCapture 0 1 3 /\
  3 < length (data (frames w !!! 0)) /\
  should_break w t = true /\
  exists t1,
    resume Resumed w t = (w, t1, []) /\
    point t1 = AwaitNext /\ cancelled t1 = true /\
    forall cs w2 t2, calls cs w t1 = (w2, t2) ->
      point t2 = AwaitNext /\
      forall inp, inp <> Resumed ->
        exists t3,
          resume inp w2 t2 = (w2, t3, [PlayoutStopped true; SetResult]) /\
          point t3 = Finished (match inp with Raised e => Some e | _ => None end) /\
          done_fut (handle t3) = true.
Proof.
  cbv zeta.
  split; [vm_compute; reflexivity|].
  split; [reflexivity|].
  split; [vm_compute; lia|].
  split; [vm_compute; reflexivity|].
  apply (mid_frame_break_defers_termination None world_c
           (interrupted_start ++ [Run Resumed; Run Resumed])
           (mkWorld 1 (mkExpFilter 0x1p-10 0x1p-20)
                    {[0 := mkAudioFrame [100; 0; 0; 5]%Z 100 1 4]})
           (mkTask None (mkHandle true false) false false (AwaitCapture 0 1 3))
           [PlayoutStarted; CaptureFrame (mkAudioFrame [100%Z] 100 1 1);
            CaptureFrame (mkAudioFrame [0%Z] 100 1 1);
            CaptureFrame (mkAudioFrame [0%Z] 100 1 1)]
           0 1 3).
  - vm_compute; reflexivity.
  - reflexivity.
  - vm_compute; lia.
  - vm_compute; reflexivity.
Defined.

(** ** The orchestrator under the event loop *)

Section OrchestratorFacts.
Context {F : Type} `{VolFilter F}.

(** What a step of a task means for the bookkeeping of the system. *)
Lemma resume_sys r (w : @World F) t w' t' evs :
  resume r w t = (w', t', evs) ->
  old_task t' = old_task t /\
  (is_created t' = true -> is_created t = true) /\
  (is_finished t = true -> t' = t /\ evs = []) /\
  (past_handoff t = true -> past_handoff t' = true) /\
  (forall c, In (CaptureFrame c) evs ->
     past_handoff t = true /\ past_handoff t' = true) /\
  (forall o, In (CancelTask o) evs ->
     point t = Created /\ r = Resumed /\ old_task t = Some o /\ evs = [CancelTask o]).
Proof.
  unfold resume, on_frame, window_loop, finalize, is_created, is_finished, past_handoff.
  intros Hr.
  repeat case_match; simplify_eq; simpl;
    (split_and!; try done);
    try (intros x Hin; simpl in Hin;
    repeat (destruct Hin as [Hin|Hin]; [try discriminate; simplify_eq|]);
    try done; by split_and!);
    congruence.
Qed.

(** A task that is started normally resolves its handle exactly when it
    finishes, announces the cancellation of its predecessor when it starts,
    and gets past the hand-off only from the wait for its predecessor. *)
Lemma resume_started r (w : @World F) t w' t' evs :
  resume r w t = (w', t', evs) ->
  done_fut (handle t) = is_finished t ->
  (point t = Created -> r = Resumed) ->
  done_fut (handle t') = is_finished t' /\
  (is_finished t' = true -> is_finished t = false -> In SetResult evs) /\
  (is_created t = true -> is_created t' = false ->
   forall o, old_task t = Some o -> In (CancelTask o) evs) /\
  (past_handoff t' = true -> past_handoff t = false ->
   point t = AwaitOld \/ (point t = Created /\ old_task t = None)).
Proof.
  unfold resume, on_frame, window_loop, finalize, is_created, is_finished, past_handoff.
  intros Hr Hd Hc.
  repeat case_match; simplify_eq; simpl in *;
    try (specialize (Hc eq_refl)); try congruence;
    (split_and!; try done; try congruence; auto);
    try (intros; simplify_eq; by left);
    try (intros _ _; apply in_or_app; right; by left);
    try (intros _ _; right; apply in_or_app; right; by left).
Qed.

(** [cancel] touches nothing but the pending cancellations, and marks only
    tasks that exist, are unfinished and are no younger than the target. *)
Lemma cancel_task_spec fuel : forall (s : @System F) tid,
  (forall k t, tasks s !! k = Some t -> old_task t = pred_task k) ->
  let s' := cancel_task fuel s tid in
  world s' = world s /\ playout_atask s' = playout_atask s /\
  closed s' = closed s /\ tasks s' = tasks s /\ closers s' = closers s /\
  forall k, k ∈ must_cancel s' ->
    k ∈ must_cancel s \/
    (k <= tid /\ exists t, tasks s !! k = Some t /\ is_finished t = false).
Proof.
  induction fuel as [|fuel IH]; intros s tid Hchain; simpl.
  - destruct (tasks s !! tid) as [t|] eqn:Ht; [|by split_and!; auto].
    assert (Hmark : forall k, k ∈ {[tid]} ∪ must_cancel s ->
              is_finished t = false ->
              k ∈ must_cancel s \/
              (k <= tid /\ exists t, tasks s !! k = Some t /\ is_finished t = false)).
    { intros k Hk Hf. apply elem_of_union in Hk as [Hk|Hk]; [|by left].
      apply elem_of_singleton in Hk as ->. right. split; [lia|]. by exists t. }
    unfold is_finished in Hmark.
    destruct (point t) eqn:Hp; try destruct (old_task t); simpl;
      split_and!; auto.
  - destruct (tasks s !! tid) as [t|] eqn:Ht; [|by split_and!; auto].
    assert (Hmark : forall k, k ∈ {[tid]} ∪ must_cancel s ->
              is_finished t = false ->
              k ∈ must_cancel s \/
              (k <= tid /\ exists t, tasks s !! k = Some t /\ is_finished t = false)).
    { intros k Hk Hf. apply elem_of_union in Hk as [Hk|Hk]; [|by left].
      apply elem_of_singleton in Hk as ->. right. split; [lia|]. by exists t. }
    unfold is_finished in Hmark.
    destruct (point t) eqn:Hp; simpl; try (split_and!; by auto).
    destruct (old_task t) as [o|] eqn:Ho; simpl; [|split_and!; by auto].
    destruct (tasks s !! o) as [to|] eqn:Hto; simpl; [|split_and!; by auto].
    destruct (is_finished to) eqn:Hfo; [split_and!; by auto|].
    destruct (IH s o Hchain) as (? & ? & ? & ? & ? & Hmc).
    split_and!; try done.
    intros k Hk. destruct (Hmc k Hk) as [?|[Hle Hex]]; [by left|].
    right. split; [|done].
    rewrite (Hchain _ _ Ht) in Ho.
    destruct tid as [|n]; simpl in Ho; [discriminate|]. injection Ho as ->. lia.
Qed.

Lemma effects_spec evs : forall (s : @System F),
  (forall k t, tasks s !! k = Some t -> old_task t = pred_task k) ->
  let s' := foldl effect s evs in
  world s' = world s /\ playout_atask s' = playout_atask s /\
  closed s' = closed s /\ tasks s' = tasks s /\ closers s' = closers s /\
  forall k, k ∈ must_cancel s' ->
    k ∈ must_cancel s \/
    exists o t, In (CancelTask o) evs /\ k <= o /\
                tasks s !! k = Some t /\ is_finished t = false.
Proof.
  induction evs as [|e evs IH]; intros s Hchain; simpl.
  - split_and!; auto.
  - assert (Hstep : let s1 := effect s e in
              world s1 = world s /\ playout_atask s1 = playout_atask s /\
              closed s1 = closed s /\ tasks s1 = tasks s /\ closers s1 = closers s /\
              forall k, k ∈ must_cancel s1 ->
                k ∈ must_cancel s \/
                exists o t, e = CancelTask o /\ k <= o /\
                            tasks s !! k = Some t /\ is_finished t = false).
    { destruct e as [| | |o|]; simpl; try (split_and!; by auto).
      destruct (cancel_task_spec (S o) s o Hchain) as (? & ? & ? & ? & ? & Hmc).
      split_and!; try done. intros k Hk.
      destruct (Hmc k Hk) as [?|(? & t & ? & ?)]; [by left|].
      right. by exists o, t. }
    cbv zeta in Hstep. destruct Hstep as (Hw & Ha & Hc & Ht & Hcl & Hmc).
    destruct (IH (effect s e)) as (Hw' & Ha' & Hc' & Ht' & Hcl' & Hmc').
    { by rewrite Ht. }
    split_and!; try congruence.
    intros k Hk. destruct (Hmc' k Hk) as [Hk1|(o & t & Hin & Hle & Hlk & Hf)].
    + destruct (Hmc k Hk1) as [?|(o & t & -> & ? & ? & ?)]; [by left|].
      right. exists o, t. split_and!; try done. by left.
    + right. exists o, t. rewrite Ht in Hlk. split_and!; try done. by right.
Qed.

(** What the event loop delivers, under the invariant. *)
Lemma delivered_spec (s : @System F) tid t inp r :
  sys_inv s -> tasks s !! tid = Some t ->
  delivered s tid t inp = Some r ->
  is_finished t = false /\
  (point t = Created ->
   r = Resumed /\
   forall j tj, j < tid -> tasks s !! j = Some tj -> is_created tj = false) /\
  (point t = AwaitOld ->
   exists o to, old_task t = Some o /\ tasks s !! o = Some to /\
                is_finished to = true).
Proof.
  intros Hinv Ht Hd. unfold delivered in Hd. unfold is_finished.
  destruct (point t) as [| | |fr ms20 i|x] eqn:Hp; [| | | |done].
  - destruct (forallb _ _) eqn:Hall; [|done].
    split; [done|]. split; [|done]. intros _.
    assert (Hnp : bool_decide (tid ∈ must_cancel s) = false).
    { apply bool_decide_eq_false. intros Hin.
      destruct (inv_cancel s Hinv tid Hin) as (t0 & Ht0 & Hc0).
      rewrite Ht in Ht0. simplify_eq. unfold is_created in Hc0. by rewrite Hp in Hc0. }
    rewrite Hnp in Hd. split; [by destruct inp; simplify_eq|].
    intros j tj Hj Hlk. rewrite forallb_forall in Hall.
    apply negb_true_iff, Hall, list_elem_of_In.
    apply list_elem_of_lookup. exists j. rewrite lookup_take_lt; done.
  - split; [done|]. split; [done|]. intros _.
    destruct (old_task t) as [o|]; [|done].
    unfold await_task in Hd.
    destruct (tasks s !! o) as [to|] eqn:Hto; simpl in Hd; [|done].
    exists o, to. split_and!; try done. unfold is_finished.
    by destruct (point to).
  - done.
  - done.
Qed.

Lemma insert_task_lookup (l : list Task) tid t' k x :
  <[tid := t']> l !! k = Some x ->
  (k = tid /\ x = t') \/ (k <> tid /\ l !! k = Some x).
Proof.
  intros Hlk. destruct (decide (k = tid)) as [->|Hne].
  - left. split; [done|].
    rewrite list_lookup_insert_eq in Hlk; [by simplify_eq|].
    apply lookup_lt_Some in Hlk. by rewrite length_insert in Hlk.
  - right. by rewrite list_lookup_insert_ne in Hlk.
Qed.

Lemma app_cut {A} (l1 l2 r1 r2 : list A) x :
  l1 ++ l2 = r1 ++ x :: r2 ->
  (exists r, l1 = r1 ++ x :: r /\ r2 = r ++ l2) \/
  (exists l, r1 = l1 ++ l /\ l2 = l ++ x :: r2).
Proof.
  revert r1. induction l1 as [|a l1 IH]; intros r1 Heq; simpl in Heq.
  - right. by exists r1.
  - destruct r1 as [|b r1]; simpl in Heq.
    + inversion Heq; subst. left. by exists l1.
    + inversion Heq; subst. destruct (IH r1 H2) as [(r & -> & ->)|(l & -> & ->)].
      * left. by exists r.
      * right. by exists l.
Qed.

(** Appending events keeps the order property when they come from no
    task older than one that has written to the sink, and when every new
    write to the sink comes after the hand-off. *)
Lemma no_interleaving_app (tr evs : list SysEvent) :
  no_interleaving tr ->
  (forall k c j e, In (TaskEvent k (CaptureFrame c)) tr ->
     In (TaskEvent j e) evs -> ~ j < k) ->
  (forall l k c r, evs = l ++ TaskEvent k (CaptureFrame c) :: r ->
     (forall o, k = S o -> In (TaskEvent k (CancelTask o)) (tr ++ l)) /\
     (forall j, j < k ->
        In (TaskEvent j SetResult) (tr ++ l) /\ forall e, ~ In (TaskEvent j e) r)) ->
  no_interleaving (tr ++ evs).
Proof.
  intros Hni Hold Hnew tr1 k c tr2 Heq.
  apply app_cut in Heq as [(r & -> & ->)|(l & -> & ->)].
  - destruct (Hni tr1 k c r eq_refl) as [Hc Hj]. split; [done|].
    intros j Hlt. destruct (Hj j Hlt) as [Hs Hn]. split; [done|].
    intros e Hin. apply in_app_or in Hin as [Hin|Hin]; [by eapply Hn|].
    eapply (Hold k c j e); [|exact Hin|exact Hlt].
    apply in_or_app. right. by left.
  - exact (Hnew l k c tr2 eq_refl).
Qed.

Lemma in_task_events tid (evs : list Event) k e :
  In (TaskEvent k e) (map (TaskEvent tid) evs) <-> k = tid /\ In e evs.
Proof.
  rewrite in_map_iff. split.
  - intros (x & Hx & Hin). by simplify_eq.
  - intros [-> Hin]. by exists e.
Qed.

Lemma map_task_cut tid (evs : list Event) l x r :
  map (TaskEvent tid) evs = l ++ x :: r ->
  exists e, x = TaskEvent tid e /\ In e evs /\
            forall j e', In (TaskEvent j e') r -> j = tid.
Proof.
  intros Heq. apply map_eq_app in Heq as (l0 & r0 & -> & <- & Heq).
  destruct r0 as [|e r0]; simpl in Heq; [done|]. inversion Heq; subst.
  exists e. split; [done|]. split; [apply in_or_app; right; by left|].
  intros j e' Hin. by apply in_task_events in Hin as [-> _].
Qed.

Lemma step_task_inv (s : @System F) tr tid inp s' evs :
  sys_inv s -> trace_inv s tr ->
  sys_step (Step tid inp) s = Some (s', evs) ->
  sys_inv s' /\ trace_inv s' (tr ++ evs).
Proof.
  intros Hinv Htr Hstep. simpl in Hstep.
  destruct (tasks s !! tid) as [t|] eqn:Ht; [|done].
  destruct (delivered s tid t inp) as [r|] eqn:Hdel; [|done].
  destruct (resume r (world s) t) as [[w' t'] evs0] eqn:Hr.
  inversion Hstep; subst s' evs; clear Hstep.
  destruct (delivered_spec _ _ _ _ _ Hinv Ht Hdel) as (Hnf & Hcre & Hold).
  destruct (resume_sys _ _ _ _ _ _ Hr) as (Ho & Hcr & _ & Hph & Hcap & Hcan).
  destruct (resume_started _ _ _ _ _ _ Hr (inv_done s Hinv _ _ Ht)) as (Hd' & Hsr & Hct & Hpast).
  { intros Hp. by destruct (Hcre Hp). }
  set (s1 := mkSystem w' (playout_atask s) (closed s) (<[tid := t']> (tasks s))
                      (must_cancel s ∖ {[tid]}) (closers s)) in *.
  assert (Hchain1 : forall k x, tasks s1 !! k = Some x -> old_task x = pred_task k).
  { simpl. intros k x Hlk. apply insert_task_lookup in Hlk as [[-> ->]|[_ Hlk]].
    - rewrite Ho. by apply (inv_chain s Hinv).
    - by apply (inv_chain s Hinv). }
  destruct (effects_spec evs0 s1 Hchain1) as (Hw2 & Ha2 & Hc2 & Ht2 & Hcl2 & Hmc2).
  set (s2 := foldl effect s1 evs0) in *.
  simpl in Ha2, Hc2, Ht2, Hcl2.
  assert (Hlk2 : forall k x, tasks s2 !! k = Some x ->
            (k = tid /\ x = t') \/ (k <> tid /\ tasks s !! k = Some x)).
  { rewrite Ht2. intros k x. apply insert_task_lookup. }
  assert (Hlen : tid < length (tasks s)) by (by eapply lookup_lt_Some).
  assert (Htid2 : tasks s2 !! tid = Some t')
    by (rewrite Ht2; by apply list_lookup_insert_eq).
  assert (Hne2 : forall k, k <> tid -> tasks s2 !! k = tasks s !! k)
    by (intros k Hk; rewrite Ht2; by apply list_lookup_insert_ne).
  assert (Hpred : forall o, old_task t = Some o -> tid = S o).
  { intros o Hot. rewrite (inv_chain s Hinv _ _ Ht) in Hot.
    destruct tid; simpl in Hot; by simplify_eq. }
  split.
  - constructor.
    + intros k x Hlk. rewrite Ht2 in Hlk. by apply Hchain1.
    + intros j k tj tk Hjk Hj Hk Hcj.
      destruct (Hlk2 _ _ Hj) as [[-> ->]|[Hnj Hj']];
        destruct (Hlk2 _ _ Hk) as [[-> ->]|[Hnk Hk']]; try lia.
      * eapply (inv_fifo s Hinv tid k t tk); auto.
      * assert (Hct0 : is_created t = true)
          by (eapply (inv_fifo s Hinv j tid tj t); auto).
        unfold is_created in Hct0.
        destruct (point t) eqn:Hp; try done.
        destruct (Hcre eq_refl) as [_ Hall]. by rewrite (Hall j tj Hjk Hj') in Hcj.
      * eapply (inv_fifo s Hinv j k tj tk); auto.
    + intros j k tj tk Hjk Hj Hk Hpk.
      destruct (Hlk2 _ _ Hj) as [[-> ->]|[Hnj Hj']];
        destruct (Hlk2 _ _ Hk) as [[-> ->]|[Hnk Hk']]; try lia.
      * rewrite (inv_handoff s Hinv tid k t tk Hjk Ht Hk' Hpk) in Hnf. done.
      * destruct (past_handoff t) eqn:Hpt.
        { eapply (inv_handoff s Hinv j tid tj t); auto. }
        destruct (Hpast Hpk eq_refl) as [Hp|[Hp Hnone]].
        -- destruct (Hold Hp) as (o & to & Hot & Hto & Hfo).
           pose proof (Hpred o Hot) as ->.
           destruct (decide (j = o)) as [->|Hjo].
           ++ rewrite Hj' in Hto. by simplify_eq.
           ++ eapply (inv_handoff s Hinv j o tj to); auto; [lia|].
              unfold past_handoff, is_finished in *. by destruct (point to).
        -- rewrite (inv_chain s Hinv _ _ Ht) in Hnone.
           destruct tid; [lia|done].
      * eapply (inv_handoff s Hinv j k tj tk); auto.
    + intros k Hk. destruct (Hmc2 k Hk) as [Hk1|(o & x & Hin & Hle & Hx & Hfx)].
      * simpl in Hk1. apply elem_of_difference in Hk1 as [Hk1 Hk2].
        rewrite not_elem_of_singleton in Hk2.
        destruct (inv_cancel s Hinv k Hk1) as (x & Hx & Hcx).
        exists x. by rewrite Hne2.
      * destruct (Hcan o Hin) as (Hp & _ & Hot & _).
        pose proof (Hpred o Hot) as ->.
        simpl in Hx. apply insert_task_lookup in Hx as [[-> ->]|[Hnk Hx]]; [lia|].
        exists x. rewrite Hne2 by done. split; [done|].
        destruct (Hcre Hp) as [_ Hall]. apply (Hall k x); [lia|done].
    + intros k x Hlk. destruct (Hlk2 _ _ Hlk) as [[-> ->]|[Hnk Hk']]; [done|].
      by apply (inv_done s Hinv k).
    + rewrite Ha2, Ht2, length_insert. apply (inv_atask s Hinv).
    + rewrite Hc2, Hcl2. apply (inv_open s Hinv).
    + rewrite Hc2, Hcl2. apply (inv_closed s Hinv).
    + rewrite Hcl2, Ha2. apply (inv_closer s Hinv).
    + rewrite Hcl2. intros Hdr.
      rewrite (inv_drained s Hinv Hdr tid t Ht) in Hnf. done.
  - constructor.
    + intros k x Hlk Hfx. apply in_or_app.
      destruct (Hlk2 _ _ Hlk) as [[-> ->]|[Hnk Hk']].
      * right. apply in_task_events. split; [done|]. by apply Hsr.
      * left. by apply (tr_done s tr Htr k x).
    + intros k x o Hlk Hcx Hox. apply in_or_app.
      destruct (Hlk2 _ _ Hlk) as [[-> ->]|[Hnk Hk']].
      * rewrite Ho in Hox. destruct (is_created t) eqn:Hct0.
        -- right. apply in_task_events. split; [done|]. by apply Hct.
        -- left. by apply (tr_cancel s tr Htr tid t o).
      * left. by apply (tr_cancel s tr Htr k x o).
    + intros k c Hin. apply in_app_or in Hin as [Hin|Hin].
      * destruct (tr_capture s tr Htr k c Hin) as (x & Hx & Hpx).
        destruct (decide (k = tid)) as [->|Hnk].
        -- exists t'. split; [done|]. rewrite Ht in Hx. simplify_eq. by apply Hph.
        -- exists x. by rewrite Hne2.
      * apply in_task_events in Hin as [-> Hin].
        exists t'. split; [done|]. by apply (Hcap c).
    + apply no_interleaving_app; [apply (tr_order s tr Htr)| |].
      * intros k c j e Hink Hinj Hlt.
        apply in_task_events in Hinj as [-> _].
        destruct (tr_capture s tr Htr k c Hink) as (x & Hx & Hpx).
        rewrite (inv_handoff s Hinv tid k t x Hlt Ht Hx Hpx) in Hnf. done.
      * intros l k c r0 Heq.
        destruct (map_task_cut _ _ _ _ _ Heq) as (e & He & Hine & Hr0).
        simplify_eq. destruct (Hcap c Hine) as [Hpt _].
        split.
        -- intros o ->. apply in_or_app. left.
           apply (tr_cancel s tr Htr (S o) t o Ht).
           ++ unfold past_handoff, is_created in *. by destruct (point t).
           ++ by rewrite (inv_chain s Hinv _ _ Ht).
        -- intros j Hlt. split.
           ++ apply in_or_app. left.
              destruct (lookup_lt_is_Some_2 (tasks s) j) as [tj Htj]; [lia|].
              apply (tr_done s tr Htr j tj Htj).
              by apply (inv_handoff s Hinv j tid tj t).
           ++ intros e Hin. apply Hr0 in Hin. lia.
    + intros Hcl. rewrite Hcl2. apply (tr_close s tr Htr).
      destruct Hcl as [Hin|[e Hin]].
      * left. apply in_app_or in Hin as [Hin|Hin]; [done|].
        apply in_map_iff in Hin as (? & ? & ?). done.
      * right. exists e. apply in_app_or in Hin as [Hin|Hin]; [done|].
        apply in_map_iff in Hin as (? & ? & ?). done.
Qed.

Lemma no_interleaving_other (tr evs : list SysEvent) :
  no_interleaving tr -> (forall k e, ~ In (TaskEvent k e) evs) ->
  no_interleaving (tr ++ evs).
Proof.
  intros Hni Hno. apply no_interleaving_app; [done| |].
  - intros k c j e _ Hin. by destruct (Hno j e).
  - intros l k c r ->. destruct (Hno k (CaptureFrame c)).
    apply in_or_app. right. by left.
Qed.

Lemma trace_inv_other (s s' : @System F) tr evs :
  trace_inv s tr ->
  (forall k e, ~ In (TaskEvent k e) evs) ->
  (forall k x, tasks s' !! k = Some x ->
     is_created x = true \/
     exists x0, tasks s !! k = Some x0 /\ point x0 = point x /\
                old_task x0 = old_task x) ->
  (forall k x, tasks s !! k = Some x ->
     exists x', tasks s' !! k = Some x' /\ point x' = point x) ->
  ((In (CloseReturned 0) (tr ++ evs) \/ exists e, In (CloseRaised 0 e) (tr ++ evs)) ->
   closers s' !! 0 = Some None) ->
  trace_inv s' (tr ++ evs).
Proof.
  intros Htr Hno Hback Hfwd Hclose. constructor.
  - intros k x Hlk Hfx. apply in_or_app. left.
    destruct (Hback k x Hlk) as [Hx|(x0 & Hx0 & Hp & _)].
    { unfold is_created, is_finished in *. by destruct (point x). }
    apply (tr_done s tr Htr k x0 Hx0). unfold is_finished in *. by rewrite Hp.
  - intros k x o Hlk Hcx Hox. apply in_or_app. left.
    destruct (Hback k x Hlk) as [Hx|(x0 & Hx0 & Hp & Ho)]; [congruence|].
    apply (tr_cancel s tr Htr k x0 o Hx0); [|congruence].
    unfold is_created in *. by rewrite Hp.
  - intros k c Hin. apply in_app_or in Hin as [Hin|Hin]; [|by destruct (Hno _ _ Hin)].
    destruct (tr_capture s tr Htr k c Hin) as (x & Hx & Hpx).
    destruct (Hfwd k x Hx) as (x' & Hx' & Hp). exists x'. split; [done|].
    unfold past_handoff in *. by rewrite Hp.
  - apply no_interleaving_other; [apply (tr_order s tr Htr)|done].
  - done.
Qed.

(** Events that are no completion of the first [aclose()] leave what the
    trace says about it as it is. *)
Lemma close_events_other (s : @System F) (cl : list (option nat)) tr evs :
  trace_inv s tr -> cl !! 0 = closers s !! 0 ->
  ~ In (CloseReturned 0) evs -> (forall e, ~ In (CloseRaised 0 e) evs) ->
  (In (CloseReturned 0) (tr ++ evs) \/ exists e, In (CloseRaised 0 e) (tr ++ evs)) ->
  cl !! 0 = Some None.
Proof.
  intros Htr Heq Hn1 Hn2 Hcl. rewrite Heq. apply (tr_close s tr Htr).
  destruct Hcl as [Hin|[e Hin]].
  - left. apply in_app_or in Hin as [Hin|Hin]; done.
  - right. exists e. apply in_app_or in Hin as [Hin|Hin]; [done|by destruct (Hn2 e)].
Qed.

Lemma play_inv (s : @System F) tr s' evs :
  sys_inv s -> trace_inv s tr ->
  sys_step Play s = Some (s', evs) ->
  sys_inv s' /\ trace_inv s' (tr ++ evs).
Proof.
  intros Hinv Htr Hstep. simpl in Hstep. unfold play in Hstep.
  destruct (closed s) eqn:Hcl; inversion Hstep; subst s' evs; clear Hstep.
  { split; [done|]. apply (trace_inv_other s s); auto.
    - intros k e [Hin|[]]. done.
    - intros k x Hx. right. by exists x.
    - intros k x Hx. by exists x.
    - apply (close_events_other s); auto.
      + intros [Hin|[]]. done.
      + intros e [Hin|[]]. done. }
  pose proof (inv_open s Hinv Hcl) as Hclosers.
  split.
  - constructor; simpl.
    + intros k x Hlk. apply lookup_snoc_Some in Hlk as [[Hk Hlk]|[-> <-]].
      * by apply (inv_chain s Hinv).
      * simpl. apply (inv_atask s Hinv).
    + intros j k tj tk Hjk Hj Hk Hcj.
      apply lookup_snoc_Some in Hj as [[Hj1 Hj]|[-> <-]];
        apply lookup_snoc_Some in Hk as [[Hk1 Hk]|[-> <-]]; try lia; try done.
      by apply (inv_fifo s Hinv j k tj tk).
    + intros j k tj tk Hjk Hj Hk Hpk.
      apply lookup_snoc_Some in Hj as [[Hj1 Hj]|[-> <-]];
        apply lookup_snoc_Some in Hk as [[Hk1 Hk]|[-> <-]]; try lia; try done.
      by apply (inv_handoff s Hinv j k tj tk).
    + intros k Hk. destruct (inv_cancel s Hinv k Hk) as (x & Hx & Hcx).
      exists x. split; [|done]. by apply lookup_app_l_Some.
    + intros k x Hlk. apply lookup_snoc_Some in Hlk as [[Hk Hlk]|[-> <-]]; [|done].
      by apply (inv_done s Hinv k).
    + by rewrite length_app, Nat.add_1_r.
    + done.
    + done.
    + rewrite Hclosers. done.
    + rewrite Hclosers. done.
  - apply (trace_inv_other s); auto; simpl.
    + intros k e [Hin|[]]. done.
    + intros k x Hlk. apply lookup_snoc_Some in Hlk as [[Hk Hlk]|[-> <-]]; [|by left].
      right. by exists x.
    + intros k x Hx. exists x. split; [|done]. by apply lookup_app_l_Some.
    + apply (close_events_other s); auto.
      * intros [Hin|[]]. done.
      * intros e [Hin|[]]. done.
Qed.


Lemma close_inv (s : @System F) tr s' evs :
  sys_inv s -> trace_inv s tr ->
  sys_step Close s = Some (s', evs) ->
  sys_inv s' /\ trace_inv s' (tr ++ evs).
Proof.
  intros Hinv Htr Hstep. simpl in Hstep. unfold aclose in Hstep.
  destruct (closed s) eqn:Hcl.
  - (* a repeated call *)
    inversion Hstep; subst s' evs; clear Hstep.
    pose proof (inv_closed s Hinv Hcl) as Hne.
    assert (H0 : (closers s ++ [None]) !! 0 = closers s !! 0).
    { apply lookup_app_l. destruct (closers s); [done|simpl; lia]. }
    assert (Hk : length (closers s) <> 0) by (by destruct (closers s)).
    split.
    + constructor; simpl;
        [apply (inv_chain s Hinv)|apply (inv_fifo s Hinv)|apply (inv_handoff s Hinv)
        |apply (inv_cancel s Hinv)|apply (inv_done s Hinv)|apply (inv_atask s Hinv)
        | | | | ].
      * congruence.
      * intros _ Heq. by apply app_eq_nil in Heq as [_ ?].
      * rewrite H0. apply (inv_closer s Hinv).
      * rewrite H0. apply (inv_drained s Hinv).
    + apply (trace_inv_other s); simpl; auto.
      * intros k e [Hin|[]]. done.
      * intros k x Hx. right. by exists x.
      * intros k x Hx. by exists x.
      * apply (close_events_other s); simpl; auto.
        -- intros [Hin|[]]. by simplify_eq.
        -- intros e [Hin|[]]. done.
  - (* the first call *)
    pose proof (inv_open s Hinv Hcl) as Hclosers.
    pose proof (inv_atask s Hinv) as Hat.
    assert (Htr0 : ~ (In (CloseReturned 0) tr \/ exists e, In (CloseRaised 0 e) tr)).
    { intros Hc. apply (tr_close s tr Htr) in Hc. by rewrite Hclosers in Hc. }
    simpl in Hstep.
    destruct (playout_atask s) as [t|] eqn:Hpa;
      inversion Hstep; subst s' evs; clear Hstep; rewrite Hclosers; simpl.
    + split.
      * constructor; simpl;
          [apply (inv_chain s Hinv)|apply (inv_fifo s Hinv)|apply (inv_handoff s Hinv)
          |apply (inv_cancel s Hinv)|apply (inv_done s Hinv)|exact Hat
          |done|done| |done].
        intros t0 Ht0. by simplify_eq.
      * apply (trace_inv_other s); simpl; auto.
        -- intros k x Hx. right. by exists x.
        -- intros k x Hx. by exists x.
        -- rewrite app_nil_r. intros Hc. by destruct Htr0.
    + split.
      * constructor; simpl;
          [apply (inv_chain s Hinv)|apply (inv_fifo s Hinv)|apply (inv_handoff s Hinv)
          |apply (inv_cancel s Hinv)|apply (inv_done s Hinv)|exact Hat
          |done|done|done| ].
        intros _ k x Hx. destruct (tasks s); [done|discriminate].
      * apply (trace_inv_other s); simpl; auto.
        -- intros k e [Hin|[]]. done.
        -- intros k x Hx. right. by exists x.
        -- intros k x Hx. by exists x.
Qed.

Lemma close_resume_inv (s : @System F) tr k s' evs :
  sys_inv s -> trace_inv s tr ->
  sys_step (CloseResume k) s = Some (s', evs) ->
  sys_inv s' /\ trace_inv s' (tr ++ evs).
Proof.
  intros Hinv Htr Hstep. simpl in Hstep.
  destruct (closers s !! k) as [[t|]|] eqn:Hk; try done.
  destruct (await_task s t) as [r|] eqn:Haw; [|done].
  inversion Hstep; subst s' evs; clear Hstep.
  assert (Hfin : exists x, tasks s !! t = Some x /\ is_finished x = true).
  { unfold await_task in Haw. destruct (tasks s !! t) as [x|]; simpl in Haw; [|done].
    exists x. split; [done|]. unfold is_finished. by destruct (point x). }
  assert (Hlen : k < length (closers s)) by (by eapply lookup_lt_Some).
  assert (Hdrain : k = 0 -> forall j x, tasks s !! j = Some x -> is_finished x = true).
  { intros -> j x Hx. destruct Hfin as (xt & Hxt & Hft).
    pose proof (inv_closer s Hinv t Hk) as Hpa.
    rewrite (inv_atask s Hinv) in Hpa.
    assert (Hj : j < length (tasks s)) by (by eapply lookup_lt_Some).
    destruct (length (tasks s)) as [|n] eqn:Hn; simpl in Hpa; [done|].
    injection Hpa as ->.
    destruct (decide (j = t)) as [->|Hjt]; [by simplify_eq|].
    apply (inv_handoff s Hinv j t x xt); auto; [lia|].
    unfold past_handoff, is_finished in *. by destruct (point xt). }
  assert (H0 : k <> 0 -> <[k := None]> (closers s) !! 0 = closers s !! 0)
    by (intros; by apply list_lookup_insert_ne).
  split.
  - constructor; simpl;
      [apply (inv_chain s Hinv)|apply (inv_fifo s Hinv)|apply (inv_handoff s Hinv)
      |apply (inv_cancel s Hinv)|apply (inv_done s Hinv)|apply (inv_atask s Hinv)
      | | | | ].
    + intros Hc. rewrite (inv_open s Hinv Hc) in Hk. done.
    + intros _ Heq. apply (f_equal length) in Heq. rewrite length_insert in Heq.
      simpl in Heq. lia.
    + intros t0 Ht0. destruct (decide (k = 0)) as [->|Hk0].
      * rewrite list_lookup_insert_eq in Ht0 by done. done.
      * rewrite H0 in Ht0 by done. by apply (inv_closer s Hinv).
    + intros Hc. destruct (decide (k = 0)) as [->|Hk0]; [by apply Hdrain|].
      rewrite H0 in Hc by done. by apply (inv_drained s Hinv).
  - apply (trace_inv_other s); simpl; auto.
    + intros j e [Hin|[]]. by destruct r.
    + intros j x Hx. right. by exists x.
    + intros j x Hx. by exists x.
    + destruct (decide (k = 0)) as [->|Hk0].
      * intros _. by apply list_lookup_insert_eq.
      * apply (close_events_other s); simpl; auto.
        -- intros [Hin|[]]. destruct r; by simplify_eq.
        -- intros e [Hin|[]]. destruct r; by simplify_eq.
Qed.

Lemma interrupt_inv (s : @System F) tr tid s' evs :
  sys_inv s -> trace_inv s tr ->
  sys_step (HandleInterrupt tid) s = Some (s', evs) ->
  sys_inv s' /\ trace_inv s' (tr ++ evs).
Proof.
  intros Hinv Htr Hstep. simpl in Hstep.
  destruct (tasks s !! tid) as [t|] eqn:Ht; [|done].
  inversion Hstep; subst s' evs; clear Hstep.
  set (t' := set_handle (interrupt (handle t)) t).
  assert (Hsame : point t' = point t /\ old_task t' = old_task t /\
                  done_fut (handle t') = done_fut (handle t)).
  { subst t'. unfold interrupt. simpl. by destruct (negb (playing (handle t))). }
  destruct Hsame as (Hp & Ho & Hd).
  assert (Hlen : tid < length (tasks s)) by (by eapply lookup_lt_Some).
  assert (Hback : forall k x, <[tid := t']> (tasks s) !! k = Some x ->
            exists x0, tasks s !! k = Some x0 /\ point x0 = point x /\
                       old_task x0 = old_task x /\
                       done_fut (handle x0) = done_fut (handle x)).
  { intros k x Hlk. apply insert_task_lookup in Hlk as [[-> ->]|[_ Hlk]].
    - exists t. by split_and!.
    - exists x. by split_and!. }
  assert (Hfwd : forall k x, tasks s !! k = Some x ->
            exists x', <[tid := t']> (tasks s) !! k = Some x' /\ point x' = point x).
  { intros k x Hx. destruct (decide (k = tid)) as [->|Hne].
    - exists t'. rewrite list_lookup_insert_eq by done. split; [done|]. congruence.
    - exists x. by rewrite list_lookup_insert_ne. }
  split.
  - constructor; simpl.
    + intros k x Hlk. destruct (Hback k x Hlk) as (x0 & Hx0 & _ & <- & _).
      by apply (inv_chain s Hinv).
    + intros j k tj tk Hjk Hj Hk Hcj.
      destruct (Hback j tj Hj) as (xj & Hxj & Hpj & _).
      destruct (Hback k tk Hk) as (xk & Hxk & Hpk & _).
      unfold is_created in *. rewrite <- Hpk. rewrite <- Hpj in Hcj.
      by apply (inv_fifo s Hinv j k xj xk).
    + intros j k tj tk Hjk Hj Hk Hph.
      destruct (Hback j tj Hj) as (xj & Hxj & Hpj & _).
      destruct (Hback k tk Hk) as (xk & Hxk & Hpk & _).
      unfold is_finished, past_handoff in *. rewrite <- Hpj. rewrite <- Hpk in Hph.
      by apply (inv_handoff s Hinv j k xj xk).
    + intros k Hk. destruct (inv_cancel s Hinv k Hk) as (x & Hx & Hcx).
      destruct (Hfwd k x Hx) as (x' & Hx' & Hpx). exists x'. split; [done|].
      unfold is_created in *. by rewrite Hpx.
    + intros k x Hlk. destruct (Hback k x Hlk) as (x0 & Hx0 & Hp0 & _ & Hd0).
      rewrite <- Hd0. unfold is_finished. rewrite <- Hp0. by apply (inv_done s Hinv k).
    + rewrite length_insert. apply (inv_atask s Hinv).
    + apply (inv_open s Hinv).
    + apply (inv_closed s Hinv).
    + apply (inv_closer s Hinv).
    + intros Hc k x Hlk. destruct (Hback k x Hlk) as (x0 & Hx0 & Hp0 & _).
      unfold is_finished. rewrite <- Hp0. by apply (inv_drained s Hinv Hc k).
  - apply (trace_inv_other s); simpl; auto.
    + intros k x Hlk. right. destruct (Hback k x Hlk) as (x0 & ? & ? & ? & _).
      by exists x0.
    + rewrite app_nil_r. apply (tr_close s tr Htr).
Qed.

Lemma volume_inv (s : @System F) tr v s' evs :
  sys_inv s -> trace_inv s tr ->
  sys_step (Volume v) s = Some (s', evs) ->
  sys_inv s' /\ trace_inv s' (tr ++ evs).
Proof.
  intros Hinv Htr Hstep. simpl in Hstep.
  inversion Hstep; subst s' evs; clear Hstep.
  split.
  - constructor; simpl;
      [apply (inv_chain s Hinv)|apply (inv_fifo s Hinv)|apply (inv_handoff s Hinv)
      |apply (inv_cancel s Hinv)|apply (inv_done s Hinv)|apply (inv_atask s Hinv)
      |apply (inv_open s Hinv)|apply (inv_closed s Hinv)|apply (inv_closer s Hinv)
      |apply (inv_drained s Hinv)].
  - apply (trace_inv_other s); simpl; auto.
    + intros k x Hx. right. by exists x.
    + intros k x Hx. by exists x.
    + rewrite app_nil_r. apply (tr_close s tr Htr).
Qed.

(** Every action keeps the invariants of the system and of its trace. *)
Lemma sys_step_inv (s : @System F) tr a s' evs :
  sys_inv s -> trace_inv s tr ->
  sys_step a s = Some (s', evs) ->
  sys_inv s' /\ trace_inv s' (tr ++ evs).
Proof.
  destruct a.
  - apply play_inv.
  - apply close_inv.
  - apply close_resume_inv.
  - apply interrupt_inv.
  - apply volume_inv.
  - apply step_task_inv.
Qed.

Lemma init_inv (flt : F) fs :
  sys_inv (init_system flt fs) /\ trace_inv (init_system flt fs) [].
Proof.
  split; constructor; simpl; try done.
  - intros tr1 k c tr2 Heq. by destruct tr1.
  - intros [[]|[e []]].
Qed.

Lemma sys_run_inv acts : forall (s : @System F) tr s' evs,
  sys_inv s -> trace_inv s tr ->
  sys_run acts s = Some (s', evs) ->
  sys_inv s' /\ trace_inv s' (tr ++ evs).
Proof.
  induction acts as [|a acts IH]; simpl; intros s tr s' evs Hinv Htr Hrun.
  - inversion Hrun; subst. by rewrite app_nil_r.
  - destruct (sys_step a s) as [[s1 evs1]|] eqn:Hstep; [|done].
    destruct (sys_run acts s1) as [[s2 evs2]|] eqn:Hrest; [|done].
    inversion Hrun; subst. rewrite app_assoc.
    destruct (sys_step_inv _ _ _ _ _ Hinv Htr Hstep) as [Hinv1 Htr1].
    by apply (IH s1).
Qed.


(** A task is never cancelled before its first step: when the event loop
    runs a task for the first time, the task enters its body. *)
Lemma first_step_is_normal (flt : F) fs acts (s : @System F) tr tid t inp r :
  sys_run acts (init_system flt fs) = Some (s, tr) ->
  tasks s !! tid = Some t -> point t = Created ->
  delivered s tid t inp = Some r -> r = Resumed.
Proof.
  intros Hrun Ht Hp Hd.
  destruct (init_inv flt fs) as [Hi0 Ht0].
  destruct (sys_run_inv _ _ _ _ _ Hi0 Ht0 Hrun) as [Hinv _].
  destruct (delivered_spec _ _ _ _ _ Hinv Ht Hd) as (_ & Hc & _).
  by destruct (Hc Hp).
Qed.

(** C3.  In every run of the orchestrator, when a playout task hands a
    frame to the sink it has before that asked for the cancellation of its
    predecessor, every playout created before it has by then completed its
    handle, and none of them does anything afterwards: the frames of two
    playouts never interleave. *)
Theorem consecutive_playouts_never_interleave (flt : F) (fs : gmap nat AudioFrame)
    (acts : list SysAct) (s : @System F) tr tr1 k c tr2 :
  sys_run acts (init_system flt fs) = Some (s, tr) ->
  tr = tr1 ++ TaskEvent k (CaptureFrame c) :: tr2 ->
  (forall o, k = S o -> In (TaskEvent k (CancelTask o)) tr1) /\
  (forall j, j < k ->
     In (TaskEvent j SetResult) tr1 /\ forall e, ~ In (TaskEvent j e) tr2).
Proof.
  intros Hrun Heq.
  destruct (init_inv flt fs) as [Hi0 Ht0].
  destruct (sys_run_inv _ _ _ _ _ Hi0 Ht0 Hrun) as [_ Htr].
  simpl in Htr. exact (tr_order s tr Htr tr1 k c tr2 Heq).
Qed.

Lemma cancel_task_closed fuel : forall (s : @System F) tid,
  closed (cancel_task fuel s tid) = closed s.
Proof.
  induction fuel as [|fuel IH]; intros s tid; simpl; repeat case_match; simpl; auto.
Qed.

Lemma sys_step_closed a (s : @System F) s' evs :
  sys_step a s = Some (s', evs) ->
  (closed s = true -> closed s' = true) /\ (a = Close -> closed s' = true).
Proof.
  intros Hstep. destruct a; simpl in Hstep.
  - unfold play in Hstep. destruct (closed s) eqn:Hc; by simplify_eq.
  - unfold aclose in Hstep. destruct (closed s) eqn:Hc; simpl in Hstep;
      [|destruct (playout_atask s)]; by simplify_eq.
  - repeat case_match; by simplify_eq.
  - repeat case_match; by simplify_eq.
  - by simplify_eq.
  - destruct (tasks s !! tid) as [t|]; [|done].
    destruct (delivered s tid t inp) as [r|]; [|done].
    destruct (resume r (world s) t) as [[w' t'] evs0] eqn:Hr.
    simplify_eq.
    assert (Hcl : forall evs (s0 : @System F), closed (foldl effect s0 evs) = closed s0).
    { clear. induction evs as [|e evs IH]; intros s0; cbn [foldl]; [done|].
      rewrite IH. destruct e; unfold effect; try done. apply cancel_task_closed. }
    rewrite Hcl. simpl. by split.
Qed.

Lemma sys_run_closed acts : forall (s : @System F) s' evs,
  sys_run acts s = Some (s', evs) ->
  (closed s = true \/ In Close acts) -> closed s' = true.
Proof.
  induction acts as [|a acts IH]; simpl; intros s s' evs Hrun Hc.
  - simplify_eq. by destruct Hc.
  - destruct (sys_step a s) as [[s1 evs1]|] eqn:Hstep; [|done].
    destruct (sys_run acts s1) as [[s2 evs2]|] eqn:Hrest; [|done].
    simplify_eq. destruct (sys_step_closed _ _ _ _ Hstep) as [Hk Hcl].
    apply (IH _ _ _ Hrest).
    destruct Hc as [Hc|[->|Hin]]; auto.
Qed.


(** C7.  In every run of the orchestrator: once [aclose()] has been called
    the orchestrator is closed; on a closed orchestrator [play()] raises
    [ValueError] and leaves the orchestrator as it is, with no handle and
    no task created; on an open orchestrator [play()] returns a handle that
    names no earlier playout, is not interrupted and is playing, and it
    creates exactly one task, handed the previous task, which becomes the
    current one. *)
Theorem play_fails_after_close (flt : F) (fs : gmap nat AudioFrame)
    (acts : list SysAct) (s : @System F) tr :
  sys_run acts (init_system flt fs) = Some (s, tr) ->
  (In Close acts -> closed s = true) /\
  (closed s = true ->
   play s = inl ValueError /\
   sys_step Play s = Some (s, [PlayRaised ValueError])) /\
  (closed s = false ->
   exists s' h, play s = inr (s', h) /\
     tasks s !! h = None /\
     tasks s' = tasks s ++ [new_task (playout_atask s)] /\
     tasks s' !! h = Some (new_task (playout_atask s)) /\
     interrupted (handle (new_task (playout_atask s))) = false /\
     playing (handle (new_task (playout_atask s))) = true /\
     playout_atask s' = Some h /\ closed s' = false /\
     world s' = world s).
Proof.
  intros Hrun.
  split_and!.
  - intros Hin. apply (sys_run_closed _ _ _ _ Hrun). by right.
  - intros Hcl. unfold sys_step, play. by rewrite Hcl.
  - intros Hcl. unfold play. rewrite Hcl. eexists _, _. split; [done|]. simpl.
    split_and!; try done.
    + apply lookup_ge_None. lia.
    + by apply list_lookup_middle.
Qed.

End OrchestratorFacts.

(** ** Concrete runs of the orchestrator *)

Lemma consecutive_playouts_never_interleave_witness :
  exists s tr tr1,
    sys_run [Play; Play; Step 0 Resumed; Step 1 Resumed; Step 0 (Frame 0);
             Step 1 Resumed; Step 1 (Frame 0)] system_b = Some (s, tr) /\
    tr1 = [PlayReturned 0; PlayReturned 1; TaskEvent 1 (CancelTask 0);
           TaskEvent 0 SetResult; TaskEvent 1 PlayoutStarted] /\
    tr = tr1 ++ [TaskEvent 1 (CaptureFrame (mkAudioFrame [10; 20]%Z 200 1 2))] /\
    (forall o, 1 = S o -> In (TaskEvent 1 (CancelTask o)) tr1) /\
    (forall j, j < 1 ->
       In (TaskEvent j SetResult) tr1 /\ forall e, ~ In (TaskEvent j e) []).
Proof.
  exists (mkSystem world_b (Some 1) false
            [mkTask None (mkHandle false true) true false (Finished (Some CancelledError));
             mkTask (Some 0) new_handle false false (AwaitCapture 0 2 2)] ∅ []).
  exists ([PlayReturned 0; PlayReturned 1; TaskEvent 1 (CancelTask 0);
           TaskEvent 0 SetResult; TaskEvent 1 PlayoutStarted]
          ++ [TaskEvent 1 (CaptureFrame (mkAudioFrame [10; 20]%Z 200 1 2))]).
  exists [PlayReturned 0; PlayReturned 1; TaskEvent 1 (CancelTask 0);
          TaskEvent 0 SetResult; TaskEvent 1 PlayoutStarted].
  split; [vm_compute; reflexivity|].
  split; [reflexivity|].
  split; [reflexivity|].
  apply (consecutive_playouts_never_interleave (new_filter alpha_default) {[0 := frame_b]}
           [Play; Play; Step 0 Resumed; Step 1 Resumed; Step 0 (Frame 0);
            Step 1 Resumed; Step 1 (Frame 0)]
           (mkSystem world_b (Some 1) false
              [mkTask None (mkHandle false true) true false (Finished (Some CancelledError));
               mkTask (Some 0) new_handle false false (AwaitCapture 0 2 2)] ∅ [])
           ([PlayReturned 0; PlayReturned 1; TaskEvent 1 (CancelTask 0);
             TaskEvent 0 SetResult; TaskEvent 1 PlayoutStarted]
            ++ [TaskEvent 1 (CaptureFrame (mkAudioFrame [10; 20]%Z 200 1 2))])
           [PlayReturned 0; PlayReturned 1; TaskEvent 1 (CancelTask 0);
            TaskEvent 0 SetResult; TaskEvent 1 PlayoutStarted]
           1 (mkAudioFrame [10; 20]%Z 200 1 2) []).
  - vm_compute; reflexivity.
  - reflexivity.
Defined.



Lemma play_fails_after_close_witness :
  exists s tr,
    sys_run [Play; Close] system_b = Some (s, tr) /\
    closed s = true /\
    (In Close [Play; Close] -> closed s = true) /\
    (closed s = true ->
     play s = inl ValueError /\
     sys_step Play s = Some (s, [PlayRaised ValueError])) /\
    (closed s = false ->
     exists s' h, play s = inr (s', h) /\
       tasks s !! h = None /\
       tasks s' = tasks s ++ [new_task (playout_atask s)] /\
       tasks s' !! h = Some (new_task (playout_atask s)) /\
       interrupted (handle (new_task (playout_atask s))) = false /\
       playing (handle (new_task (playout_atask s))) = true /\
       playout_atask s' = Some h /\ closed s' = false /\
       world s' = world s).
Proof.
  exists (mkSystem world_b (Some 0) true [new_task None] ∅ [Some 0]).
  exists [PlayReturned 0].
  split; [vm_compute; reflexivity|].
  split; [reflexivity|].
  apply (play_fails_after_close (new_filter alpha_default) {[0 := frame_b]} [Play; Close]
           (mkSystem world_b (Some 0) true [new_task None] ∅ [Some 0])
           [PlayReturned 0]).
  vm_compute; reflexivity.
Defined.

(** * Further properties *)

(** ** Frames, exceptions and callers: what a step does *)

Section StreamFacts.
Context {F : Type} `{VolFilter F}.

Lemma reachable_inv (old : option nat) (w0 : @World F) sc w t evs0 :
  run_script sc w0 (new_task old) = (w, t, evs0) -> task_inv w t.
Proof.
  intros Hrun. exact (proj1 (run_script_inv sc _ _ _ _ _ (new_task_inv w0 old) Hrun)).
Qed.

Lemma should_break_first_frame (w : @World F) t b :
  should_break w (set_first_frame b t) = should_break w t.
Proof. done. Qed.

(** X3.  Frames without a window.  An empty frame is passed over: nothing
    is sent and the orchestrator is left as it is, but the frame counts as
    the first frame of the playout ([playout_started] is emitted).  A
    non-empty frame with a sample rate below 100 Hz has [ms20 = 0]: the
    first window is empty, [1 / len(data)] raises [ZeroDivisionError], and
    the playout ends with that exception after [playout_stopped(False)] and
    the completion of its handle, again with nothing sent. *)
Theorem frames_without_a_window (old : option nat) (w0 : @World F) sc w t evs0 fr :
  run_script sc w0 (new_task old) = (w, t, evs0) ->
  point t = AwaitNext ->
  should_break w t = false ->
  let started := if first_frame t then [PlayoutStarted] else [] in
  (data (frames w !!! fr) = [] ->
   exists t', resume (Frame fr) w t = (w, t', started) /\
     point t' = AwaitNext /\ first_frame t' = false /\
     handle t' = handle t /\ cancelled t' = false) /\
  (data (frames w !!! fr) <> [] -> sample_rate (frames w !!! fr) < 100 ->
   exists t', resume (Frame fr) w t =
                (w, t', started ++ [PlayoutStopped false; SetResult]) /\
     point t' = Finished (Some ZeroDivisionError) /\
     done_fut (handle t') = true).
Proof.
  intros Hrun Hp Hsb started.
  pose proof (reachable_inv _ _ _ _ _ _ Hrun) as [Hc Hinv].
  rewrite Hp in Hinv.
  assert (Hcf : cancelled t = false).
  { destruct (cancelled t); [|done]. destruct (Hc eq_refl). congruence. }
  unfold resume. rewrite Hp. unfold on_frame. split.
  - intros Hd. unfold started.
    destruct (first_frame t) eqn:Hff; rewrite ?should_break_first_frame, Hsb;
      unfold window_loop; rewrite Hd; simpl; eexists; split_and!; done.
  - intros Hd Hsr.
    assert (Hms : sample_rate (frames w !!! fr) / 100 = 0) by (apply Nat.div_small; lia).
    assert (Hlen : (0 <? length (data (frames w !!! fr))) = true).
    { apply Nat.ltb_lt. destruct (data (frames w !!! fr)); [done|simpl; lia]. }
    unfold started.
    destruct (first_frame t) eqn:Hff; rewrite ?should_break_first_frame, Hsb;
      unfold window_loop; rewrite Hlen, ?should_break_first_frame, Hsb;
      unfold process_window; rewrite Hms; cbn -[Nat.div];
      unfold finalize; cbn; rewrite ?Hff, Hinv, Hcf; eexists; split_and!; done.
Qed.

(** X4.  An exception that reaches the task while it waits for its source
    or for the sink (raised by the source, by [capture_frame], or a
    cancellation) ends the playout with that exception.  The [finally]
    block still runs: [playout_stopped] is emitted if a frame had been
    received, with the flag the loop had set, and the handle is completed;
    the orchestrator is left as it is. *)
Theorem exception_ends_playout (old : option nat) (w0 : @World F) sc w t evs0 e :
  run_script sc w0 (new_task old) = (w, t, evs0) ->
  point t = AwaitNext \/ (exists fr ms20 i, point t = AwaitCapture fr ms20 i) ->
  exists t',
    resume (Raised e) w t =
      (w, t', (if first_frame t then [] else [PlayoutStopped (cancelled t)])
              ++ [SetResult]) /\
    point t' = Finished (Some e) /\ done_fut (handle t') = true /\
    interrupted (handle t') = interrupted (handle t) /\
    cancelled t' = cancelled t /\ first_frame t' = first_frame t.
Proof.
  intros Hrun Hp.
  pose proof (reachable_inv _ _ _ _ _ _ Hrun) as [Hc Hinv].
  assert (Hd : done_fut (handle t) = false).
  { destruct Hp as [Hp|(fr & ms20 & i & Hp)]; rewrite Hp in Hinv; [done|].
    by destruct Hinv as [(? & _) _]. }
  unfold resume.
  destruct Hp as [Hp|(fr & ms20 & i & Hp)]; rewrite Hp;
    unfold finalize; rewrite Hd; eexists; split_and!; done.
Qed.

Lemma act_uninterrupted a (w : @World F) t w' t' evs :
  a <> Call CallInterrupt ->
  interrupted (handle t) = false -> cancelled t = false ->
  act a w t = (w', t', evs) ->
  interrupted (handle t') = false /\ cancelled t' = false /\
  forall c, In (PlayoutStopped c) evs -> c = false.
Proof.
  intros Ha Hi Hc Hact.
  assert (Hsb : forall w1 t1, interrupted (handle t1) = false -> should_break w1 t1 = false).
  { intros w1 t1 Hi1. unfold should_break. by rewrite Hi1. }
  destruct a as [[|v]|inp]; [done|..].
  - simpl in Hact. simplify_eq. done.
  - simpl in Hact. unfold resume, on_frame, window_loop, finalize in Hact.
    repeat (case_match; simplify_eq; cbn in *; try done);
      try match goal with
          | Hb : should_break _ ?t1 = true |- _ =>
              rewrite Hsb in Hb by (cbn; done); done
          end;
      split_and!; try done; intros c Hin; cbn in Hin; intuition congruence.
Qed.

(** X5.  A playout whose handle is never interrupted is never cut short by
    the loop: as long as no caller runs [interrupt()], the handle reads
    not interrupted, the break condition does not hold, the local
    [cancelled] stays [False], and a [playout_stopped] that is emitted
    carries [False], whatever the volume is set to and however the playout
    ends. *)
Theorem uninterrupted_playout_is_not_cancelled (old : option nat) (w0 : @World F)
    (sc : list Act) w t evs :
  Forall (fun a => a <> Call CallInterrupt) sc ->
  run_script sc w0 (new_task old) = (w, t, evs) ->
  interrupted (handle t) = false /\ cancelled t = false /\
  should_break w t = false /\
  forall c, In (PlayoutStopped c) evs -> c = false.
Proof.
  intros Hsc Hrun.
  assert (Hgen : forall sc (w0 : @World F) t0 w t evs,
    Forall (fun a => a <> Call CallInterrupt) sc ->
    interrupted (handle t0) = false -> cancelled t0 = false ->
    run_script sc w0 t0 = (w, t, evs) ->
    interrupted (handle t) = false /\ cancelled t = false /\
    forall c, In (PlayoutStopped c) evs -> c = false).
  { clear. induction sc as [|a sc IH]; intros w0 t0 w t evs Hsc Hi Hc Hrun.
    - simpl in Hrun. simplify_eq. done.
    - apply Forall_cons in Hsc as [Ha Hsc]. simpl in Hrun.
      destruct (act a w0 t0) as [[w1 t1] evs1] eqn:Hact.
      destruct (run_script sc w1 t1) as [[w2 t2] evs2] eqn:Hrest. simplify_eq.
      destruct (act_uninterrupted _ _ _ _ _ _ Ha Hi Hc Hact) as (Hi1 & Hc1 & He1).
      destruct (IH _ _ _ _ _ Hsc Hi1 Hc1 Hrest) as (Hi2 & Hc2 & He2).
      split_and!; try done. intros c Hin. apply in_app_or in Hin as [Hin|Hin]; eauto. }
  destruct (Hgen sc w0 (new_task old) w t evs Hsc eq_refl eq_refl Hrun) as (Hi & Hc & He).
  split_and!; try done. unfold should_break. by rewrite Hi.
Qed.

End StreamFacts.

(** ** Samples in, samples out *)

Section ConservationFacts.
Context {F : Type} `{VolFilter F}.

Lemma samples_out_app evs1 evs2 :
  samples_out (evs1 ++ evs2) = samples_out evs1 + samples_out evs2.
Proof.
  induction evs1 as [|e evs1 IH]; [done|].
  destruct e; simpl; rewrite IH; lia.
Qed.

Lemma finalize_disturbed r t t' evs :
  finalize r t = (t', evs) ->
  undisturbed t' = true -> r = None /\ cancelled t = false.
Proof.
  unfold finalize, undisturbed. intros Hf Hu.
  destruct (done_fut (handle t)); simplify_eq; cbn in Hu; [by rewrite andb_false_r in Hu|].
  apply andb_true_iff in Hu as [Hc Hr]. apply negb_true_iff in Hc.
  by destruct r.
Qed.

Lemma window_loop_conserves (w : @World F) t fr ms20 i w' t' evs :
  window_loop w t fr ms20 i = (w', t', evs) ->
  undisturbed t' = true ->
  samples_out evs + pending_samples w' t' = length (data (frames w !!! fr)) - i.
Proof.
  unfold window_loop. intros Hw Hu.
  destruct (i <? length (data (frames w !!! fr))) eqn:Hi.
  - destruct (should_break w t).
    { by simplify_eq. }
    destruct (process_window w t fr ms20 i) as [w1 [e|[chunk i']]] eqn:Hpw.
    + destruct (finalize (Some e) t) as [t1 evs1] eqn:Hf. simplify_eq.
      by destruct (finalize_disturbed _ _ _ _ Hf Hu).
    + simplify_eq.
      destruct (process_window_stable _ _ _ _ _ _ _ Hpw) as (_ & Hst & _).
      destruct (Hst fr) as (_ & _ & _ & Hlen).
      destruct (process_window_ok _ _ _ _ _ _ _ _ Hpw) as (Hn & Hle & -> & Hout & -> & _).
      unfold pending_samples. cbn. rewrite Hlen, Hout. lia.
  - simplify_eq. apply Nat.ltb_ge in Hi. unfold pending_samples. cbn. lia.
Qed.

Lemma resume_cancelled inp (w : @World F) t w' t' evs :
  resume inp w t = (w', t', evs) -> cancelled t = true -> cancelled t' = true.
Proof.
  intros Hres Hc. unfold resume, on_frame, window_loop, finalize in Hres.
  repeat (case_match; simplify_eq; cbn in *; try done).
Qed.

Lemma act_undisturbed a (w : @World F) t w' t' evs :
  act a w t = (w', t', evs) -> undisturbed t' = true -> undisturbed t = true.
Proof.
  intros Hact Hu. destruct a as [[|v]|inp].
  - simpl in Hact. simplify_eq. done.
  - simpl in Hact. simplify_eq. done.
  - simpl in Hact. unfold undisturbed in *.
    apply andb_true_iff in Hu as [Hc Hp]. apply negb_true_iff in Hc.
    destruct (cancelled t) eqn:Hct.
    { rewrite (resume_cancelled _ _ _ _ _ _ Hact Hct) in Hc. done. }
    destruct (point t) as [| | | |[e|]] eqn:Hpt; try done.
    unfold resume in Hact. rewrite Hpt in Hact.
    destruct inp; simplify_eq; by rewrite Hpt in Hp.
Qed.

Lemma act_conserves a (w : @World F) t w' t' evs :
  task_inv w t ->
  act a w t = (w', t', evs) -> undisturbed t' = true ->
  samples_out evs + pending_samples w' t' =
  pending_samples w t +
  match a, point t with
  | Run (Frame fr), AwaitNext => length (data (frames w !!! fr))
  | _, _ => 0
  end.
Proof.
  intros Hinv Hact Hu.
  assert (Hfin : forall r t0 t1 evs1 (w1 : @World F),
    finalize r t0 = (t1, evs1) -> undisturbed t1 = true ->
    samples_out evs1 + pending_samples w1 t1 = 0).
  { clear. intros r t0 t1 evs1 w1 Hf Hu. unfold finalize in Hf.
    destruct (done_fut (handle t0)), (first_frame t0); simplify_eq; done. }
  destruct a as [[|v]|inp].
  - simpl in Hact. simplify_eq. cbn. unfold pending_samples. cbn. lia.
  - simpl in Hact. simplify_eq. cbn. unfold pending_samples. cbn. lia.
  - simpl in Hact. unfold resume in Hact. unfold pending_samples at 2.
    destruct (point t) eqn:Hp.
    + destruct inp as [| | |e]; [destruct (old_task t)|..]; simplify_eq;
        unfold pending_samples; cbn; rewrite ?Hp; done.
    + destruct inp as [| | |e].
      * simplify_eq. done.
      * simplify_eq. unfold pending_samples. by rewrite Hp.
      * simplify_eq. unfold pending_samples. by rewrite Hp.
      * destruct e; try (simplify_eq; done);
          destruct (finalize _ t) as [t1 evs1] eqn:Hf; simplify_eq;
          by rewrite (Hfin _ _ _ _ w' Hf Hu).
    + destruct inp as [|fr| |e].
      * simplify_eq. unfold pending_samples. by rewrite Hp.
      * unfold on_frame in Hact.
        destruct (if first_frame t then (set_first_frame false t, [PlayoutStarted])
                  else (t, [])) as [t1 evs1] eqn:Hff.
        assert (Hevs1 : samples_out evs1 = 0) by (destruct (first_frame t); by simplify_eq).
        destruct (should_break w t1).
        { destruct (finalize None (set_cancelled true t1)) as [t2 evs2] eqn:Hf.
          simplify_eq. by destruct (finalize_disturbed _ _ _ _ Hf Hu). }
        destruct (window_loop w t1 fr (sample_rate (frames w !!! fr) / 100) 0)
          as [[w2 t2] evs2] eqn:Hwl. simplify_eq.
        rewrite samples_out_app, Hevs1.
        pose proof (window_loop_conserves _ _ _ _ _ _ _ _ Hwl Hu) as Hc. lia.
      * destruct (finalize None t) as [t1 evs1] eqn:Hf. simplify_eq.
        by rewrite (Hfin _ _ _ _ w' Hf Hu).
      * destruct (finalize (Some e) t) as [t1 evs1] eqn:Hf. simplify_eq.
        by rewrite (Hfin _ _ _ _ w' Hf Hu).
    + destruct inp as [| | |e].
      * rewrite (window_loop_conserves _ _ _ _ _ _ _ _ Hact Hu). by rewrite Nat.add_0_r.
      * simplify_eq. unfold pending_samples. rewrite Hp. cbn [samples_out]. lia.
      * simplify_eq. unfold pending_samples. rewrite Hp. cbn [samples_out]. lia.
      * destruct (finalize (Some e) t) as [t1 evs1] eqn:Hf. simplify_eq.
        by destruct (finalize_disturbed _ _ _ _ Hf Hu).
    + assert (w' = w /\ t' = t /\ evs = []) as (-> & -> & ->)
        by (destruct inp; by simplify_eq).
      unfold pending_samples. rewrite Hp. by destruct inp.
Qed.

Lemma run_script_conserves sc : forall (w : @World F) t w' t' evs,
  task_inv w t ->
  run_script sc w t = (w', t', evs) -> undisturbed t' = true ->
  undisturbed t = true /\
  samples_out evs + pending_samples w' t' = pending_samples w t + samples_in sc w t.
Proof.
  induction sc as [|a sc IH]; intros w t w' t' evs Hinv Hrun Hu.
  - simpl in Hrun. simplify_eq. simpl. split; [done|lia].
  - simpl in Hrun. cbn [samples_in].
    destruct (act a w t) as [[w1 t1] evs1] eqn:Hact.
    destruct (run_script sc w1 t1) as [[w2 t2] evs2] eqn:Hrest. simplify_eq.
    destruct (act_inv _ _ _ _ _ _ Hinv Hact) as [Hinv1 _].
    destruct (IH _ _ _ _ _ Hinv1 Hrest Hu) as [Hu1 Heq].
    split; [exact (act_undisturbed _ _ _ _ _ _ Hact Hu1)|].
    pose proof (act_conserves _ _ _ _ _ _ Hinv Hact Hu1) as Hstep.
    rewrite samples_out_app. lia.
Qed.

(** X6.  No sample is lost or sent twice.  As long as the playout has not
    raised and the loop has not met the break condition, the samples handed
    to the sink so far plus the samples of the frame in hand that are still
    to be sent add up to the samples of all frames received from the
    source; in particular a playout that returns normally without having
    been cut short has sent every sample it received. *)
Theorem playout_sends_every_sample (old : option nat) (w0 : @World F)
    (sc : list Act) w t evs :
  run_script sc w0 (new_task old) = (w, t, evs) ->
  undisturbed t = true ->
  samples_out evs + pending_samples w t = samples_in sc w0 (new_task old) /\
  (point t = Finished None -> samples_out evs = samples_in sc w0 (new_task old)).
Proof.
  intros Hrun Hu.
  destruct (run_script_conserves sc _ _ _ _ _ (new_task_inv w0 old) Hrun Hu) as [_ Heq].
  change (pending_samples w0 (new_task old)) with 0 in Heq.
  split; [lia|]. intros Hp. unfold pending_samples in Heq. rewrite Hp in Heq. lia.
Qed.

(** [int] fails on a NaN and on an infinity, and on nothing else. *)
Lemma py_int_raises (f : float) e :
  py_int f = inl e -> e = ValueError \/ e = OverflowError.
Proof.
  unfold py_int. intros Hf.
  destruct (Prim2SF f); try destruct (float_value f); simplify_eq; auto.
Qed.

Lemma gain_loop_raises n : forall off si dt tv (flt : F) buf flt' buf' e,
  gain_loop n off si dt tv flt buf = (flt', buf', Some e) ->
  e = ValueError \/ e = OverflowError.
Proof.
  induction n as [|n IH]; intros off si dt tv flt buf flt' buf' e Hg; [by simplify_eq|].
  cbn [gain_loop] in Hg. destruct (filter_apply dt tv flt) as [vol flt1].
  destruct (scale_sample _ vol) as [e'|v] eqn:Hsc.
  { simplify_eq. by apply py_int_raises in Hsc. }
  destruct (int16_ok _); [by eapply IH|]. simplify_eq. by left.
Qed.

Lemma process_window_raises (w : @World F) t fr ms20 i w' e :
  process_window w t fr ms20 i = (w', inl e) ->
  (e = ZeroDivisionError /\ w' = w) \/ e = ValueError \/ e = OverflowError.
Proof.
  unfold process_window. intros Hpw.
  destruct (_ =? 0); [left; by simplify_eq|].
  destruct (gain_loop _ _ _ _ _ _ _) as [[flt buf] [e'|]] eqn:Hg; simplify_eq.
  right. by eapply gain_loop_raises.
Qed.

(** X7.  What a step of the task leaves alone.  The task never writes the
    target volume and never changes the geometry of a frame object; a step
    that hands nothing to the sink and ends neither in [ValueError] nor in
    [OverflowError] (the exceptions the assignment of line 121 can raise
    after the filter has advanced) leaves the orchestrator (filter and
    frame objects) exactly as it was; and a
    step that hands a chunk to the sink writes to no frame object but the
    one in hand. *)
Theorem step_leaves_the_rest_alone (old : option nat) (w0 : @World F) sc w t evs0
    inp w' t' evs :
  run_script sc w0 (new_task old) = (w, t, evs0) ->
  resume inp w t = (w', t', evs) ->
  target_volume w' = target_volume w /\
  frames_stable w w' /\
  ((forall c, ~ In (CaptureFrame c) evs) ->
   point t' <> Finished (Some ValueError) ->
   point t' <> Finished (Some OverflowError) -> w' = w) /\
  (forall c, In (CaptureFrame c) evs ->
   exists fr ms20 i, point t' = AwaitCapture fr ms20 i /\
     forall fr', fr' <> fr -> frames w' !! fr' = frames w !! fr').
Proof.
  intros Hrun Hres.
  pose proof (reachable_inv _ _ _ _ _ _ Hrun) as Hinv.
  destruct (resume_inv _ _ _ _ _ _ Hinv Hres) as (_ & Hst & Htv).
  split_and!; try done.
  - intros Hno Hve Hoe.
    assert (Hwl : forall t0 fr ms20 i w1 t1 evs1,
      window_loop w t0 fr ms20 i = (w1, t1, evs1) ->
      (forall c, ~ In (CaptureFrame c) evs1) ->
      point t1 <> Finished (Some ValueError) ->
      point t1 <> Finished (Some OverflowError) ->
      done_fut (handle t0) = false -> w1 = w).
    { clear. intros t0 fr ms20 i w1 t1 evs1 Hw Hno Hve Hoe Hd. unfold window_loop in Hw.
      destruct (i <? _); [|by simplify_eq].
      destruct (should_break w t0); [by simplify_eq|].
      destruct (process_window w t0 fr ms20 i) as [w2 [e|[chunk i']]] eqn:Hpw.
      - unfold finalize in Hw. rewrite Hd in Hw. simplify_eq. cbn in Hve, Hoe.
        by destruct (process_window_raises _ _ _ _ _ _ _ Hpw) as [[-> ->]|[->| ->]].
      - simplify_eq. exfalso. eapply Hno. by left. }
    unfold resume in Hres. destruct Hinv as [_ Hinv].
    destruct (point t) eqn:Hp.
    + destruct inp; [destruct (old_task t)|..]; by simplify_eq.
    + destruct inp as [| | |[]]; try (by simplify_eq);
        destruct (finalize _ t); by simplify_eq.
    + destruct inp as [|fr| |e].
      * by simplify_eq.
      * unfold on_frame in Hres.
        destruct (if first_frame t then (set_first_frame false t, [PlayoutStarted])
                  else (t, [])) as [t1 evs1] eqn:Hff.
        assert (Hd1 : done_fut (handle t1) = false).
        { destruct (first_frame t); by simplify_eq. }
        destruct (should_break w t1).
        { destruct (finalize None (set_cancelled true t1)). by simplify_eq. }
        destruct (window_loop w t1 fr _ 0) as [[w2 t2] evs2] eqn:Hw. simplify_eq.
        eapply Hwl; [done| |done..].
        intros c Hin. eapply Hno. apply in_or_app. by right.
      * destruct (finalize None t). by simplify_eq.
      * destruct (finalize (Some e) t). by simplify_eq.
    + destruct Hinv as [(Hd & _) _].
      destruct inp as [| | |e].
      * eapply Hwl; done.
      * by simplify_eq.
      * by simplify_eq.
      * destruct (finalize (Some e) t). by simplify_eq.
    + destruct inp; by simplify_eq.
  - intros c Hin.
    assert (Hwl : forall t0 fr ms20 i w1 t1 evs1,
      window_loop w t0 fr ms20 i = (w1, t1, evs1) ->
      In (CaptureFrame c) evs1 ->
      exists i', point t1 = AwaitCapture fr ms20 i' /\
        forall fr', fr' <> fr -> frames w1 !! fr' = frames w !! fr').
    { clear. intros t0 fr ms20 i w1 t1 evs1 Hw Hin. unfold window_loop in Hw.
      destruct (i <? _); [|by simplify_eq].
      destruct (should_break w t0); [by simplify_eq|].
      destruct (process_window w t0 fr ms20 i) as [w2 [e|[chunk i']]] eqn:Hpw.
      - destruct (finalize (Some e) t0) as [t2 evs2] eqn:Hf. simplify_eq.
        by destruct (finalize_no_capture _ _ _ _ c Hf).
      - simplify_eq. eexists. split; [done|].
        by destruct (process_window_stable _ _ _ _ _ _ _ Hpw) as (_ & _ & ?). }
    unfold resume in Hres.
    destruct (point t) eqn:Hp.
    + repeat (case_match; simplify_eq); cbn in Hin; intuition congruence.
    + destruct inp as [| | |[]]; simplify_eq; try done;
        destruct (finalize _ t) as [t1 evs1] eqn:Hf; simplify_eq;
        by destruct (finalize_no_capture _ _ _ _ c Hf).
    + destruct inp as [|fr| |e]; simplify_eq; try done.
      * unfold on_frame in Hres.
        destruct (if first_frame t then (set_first_frame false t, [PlayoutStarted])
                  else (t, [])) as [t1 evs1] eqn:Hff.
        assert (Hevs1 : ~ In (CaptureFrame c) evs1).
        { destruct (first_frame t); simplify_eq; cbn; intuition congruence. }
        destruct (should_break w t1).
        { destruct (finalize None (set_cancelled true t1)) as [t2 evs2] eqn:Hf.
          simplify_eq. apply in_app_or in Hin as [Hin|Hin]; [done|].
          by destruct (finalize_no_capture _ _ _ _ c Hf). }
        destruct (window_loop w t1 fr _ 0) as [[w2 t2] evs2] eqn:Hw. simplify_eq.
        apply in_app_or in Hin as [Hin|Hin]; [done|].
        destruct (Hwl _ _ _ _ _ _ _ Hw Hin) as (i' & ? & ?). eauto.
      * destruct (finalize None t) as [t1 evs1] eqn:Hf. simplify_eq.
        by destruct (finalize_no_capture _ _ _ _ c Hf).
      * destruct (finalize (Some e) t) as [t1 evs1] eqn:Hf. simplify_eq.
        by destruct (finalize_no_capture _ _ _ _ c Hf).
    + destruct inp as [| | |e]; simplify_eq; try done.
      * destruct (Hwl _ _ _ _ _ _ _ Hres Hin) as (i' & ? & ?). eauto.
      * destruct (finalize (Some e) t) as [t1 evs1] eqn:Hf. simplify_eq.
        by destruct (finalize_no_capture _ _ _ _ c Hf).
    + destruct inp; simplify_eq; done.
Qed.

End ConservationFacts.

(** ** The order of playouts *)

Section OrderFacts.
Context {F : Type} `{VolFilter F}.

(** [cancel] changes nothing but the set of pending cancellations, and
    only adds to it. *)
Lemma cancel_task_frame fuel : forall (s : @System F) tid,
  let s' := cancel_task fuel s tid in
  world s' = world s /\ playout_atask s' = playout_atask s /\
  closed s' = closed s /\ tasks s' = tasks s /\ closers s' = closers s /\
  must_cancel s ⊆ must_cancel s'.
Proof.
  assert (Hmark : forall (s : @System F) tid,
    let s' := mkSystem (world s) (playout_atask s) (closed s) (tasks s)
                       ({[tid]} ∪ must_cancel s) (closers s) in
    world s' = world s /\ playout_atask s' = playout_atask s /\
    closed s' = closed s /\ tasks s' = tasks s /\ closers s' = closers s /\
    must_cancel s ⊆ must_cancel s').
  { intros s tid. cbn. split_and!; try done. apply union_subseteq_r. }
  induction fuel as [|fuel IH]; intros s tid; cbn [cancel_task].
  - destruct (tasks s !! tid) as [t|]; [|done].
    destruct (point t); try apply Hmark; try done.
    destruct (old_task t); apply Hmark.
  - destruct (tasks s !! tid) as [t|]; [|done].
    destruct (point t); try apply Hmark; try done.
    destruct (old_task t) as [o|]; [|apply Hmark].
    destruct (is_finished <$> tasks s !! o) as [[|]|]; try apply Hmark.
    apply IH.
Qed.

Lemma effects_frame evs : forall (s : @System F),
  let s' := foldl effect s evs in
  world s' = world s /\ playout_atask s' = playout_atask s /\
  closed s' = closed s /\ tasks s' = tasks s /\ closers s' = closers s /\
  must_cancel s ⊆ must_cancel s'.
Proof.
  induction evs as [|e evs IH]; intros s; cbn [foldl]; [done|].
  destruct (IH (effect s e)) as (Hw & Ha & Hc & Ht & Hcl & Hm).
  assert (He : world (effect s e) = world s /\ playout_atask (effect s e) = playout_atask s /\
               closed (effect s e) = closed s /\ tasks (effect s e) = tasks s /\
               closers (effect s e) = closers s /\ must_cancel s ⊆ must_cancel (effect s e)).
  { destruct e; try done. apply cancel_task_frame. }
  destruct He as (Hw' & Ha' & Hc' & Ht' & Hcl' & Hm').
  split_and!; try congruence. by etrans.
Qed.

Lemma resume_handle r (w : @World F) t w' t' evs :
  resume r w t = (w', t', evs) ->
  interrupted (handle t') = interrupted (handle t).
Proof.
  unfold resume, on_frame, window_loop, finalize. intros Hr.
  repeat (case_match; simplify_eq; cbn; try done).
Qed.

Lemma should_break_interrupted (w : @World F) t :
  should_break w t = true -> interrupted (handle t) = true.
Proof. unfold should_break. by intros [? _]%andb_true_iff. Qed.

Lemma resume_locals r (w : @World F) t w' t' evs :
  resume r w t = (w', t', evs) ->
  (cancelled t' = true -> cancelled t = true \/ interrupted (handle t) = true) /\
  (past_handoff t' = false -> first_frame t' = first_frame t /\ cancelled t' = cancelled t).
Proof.
  unfold resume, on_frame, window_loop, finalize, past_handoff. intros Hr.
  repeat (case_match; simplify_eq; cbn in *; try done);
    try (split; [by left|done]); try (split; by auto);
    split; try done; intros _; right;
    match goal with
    | Hb : should_break _ _ = true |- _ => by apply should_break_interrupted in Hb
    end.
Qed.

Lemma resume_events r (w : @World F) t w' t' evs :
  resume r w t = (w', t', evs) ->
  (forall e, In e evs -> is_cancel_request e = false ->
     past_handoff t' = true /\ (past_handoff t = true \/ point t = AwaitOld)) /\
  (In SetResult evs -> is_finished t' = true) /\
  (forall c, In (PlayoutStopped c) evs -> is_finished t' = true /\ cancelled t' = c).
Proof.
  unfold resume, on_frame, window_loop, finalize, past_handoff, is_finished. intros Hr.
  repeat (case_match; simplify_eq; cbn in *; try done);
    split_and!; try done;
    try (intros e Hin He; cbn in Hin;
         repeat (destruct Hin as [Hin|Hin]; [simplify_eq|]); try done;
         split; auto);
    try (intros Hin; cbn in Hin; intuition congruence);
    try (intros c Hin; cbn in Hin;
         repeat (destruct Hin as [Hin|Hin]; [simplify_eq|]); try done).
Qed.


Lemma same_locals_refl x : same_locals x x.
Proof. unfold same_locals. split_and!; auto. Qed.

(** What an action that is no step of a task does to the tasks: a new
    task at the end, or a handle interrupted, and nothing else. *)
Lemma other_step_tasks a (s : @System F) s' evs :
  (forall tid inp, a <> Step tid inp) ->
  sys_step a s = Some (s', evs) ->
  (forall k e, ~ In (TaskEvent k e) evs) /\
  vol_filter (world s') = vol_filter (world s) /\
  frames (world s') = frames (world s) /\
  must_cancel s' = must_cancel s /\
  (forall k x, tasks s' !! k = Some x ->
     (tasks s !! k = None /\ x = new_task (playout_atask s)) \/
     exists x0, tasks s !! k = Some x0 /\ same_locals x0 x) /\
  (forall k x0, tasks s !! k = Some x0 ->
     exists x, tasks s' !! k = Some x /\ same_locals x0 x).
Proof.
  intros Ha Hstep.
  assert (Hid : forall l : list Task,
    (forall k x, l !! k = Some x ->
       (l !! k = None /\ x = new_task (playout_atask s)) \/
       exists x0, l !! k = Some x0 /\ same_locals x0 x) /\
    (forall k x0, l !! k = Some x0 -> exists x, l !! k = Some x /\ same_locals x0 x)).
  { intros l. split; intros k x Hx; [right|]; exists x; split; auto using same_locals_refl. }
  destruct a as [| |c|tid|v|tid inp]; simpl in Hstep.
  - unfold play in Hstep. destruct (closed s).
    + simplify_eq. split_and!; try done; try apply Hid. intros k e [Hin|[]]. done.
    + simplify_eq. cbn. split_and!; try done.
      * intros k e [Hin|[]]. done.
      * intros k x Hlk. apply lookup_snoc_Some in Hlk as [[Hk Hlk]|[-> <-]].
        -- right. exists x. split; auto using same_locals_refl.
        -- left. split; [|done]. apply lookup_ge_None. lia.
      * intros k x0 Hx0. exists x0. split; [by apply lookup_app_l_Some|].
        apply same_locals_refl.
  - unfold aclose in Hstep.
    destruct (closed s); [|destruct (playout_atask s)]; simplify_eq; cbn;
      split_and!; try done; try apply Hid; intros k e Hin; cbn in Hin; intuition congruence.
  - destruct (closers s !! c) as [[t|]|]; try done.
    destruct (await_task s t) as [r|]; [|done]. simplify_eq. cbn.
    split_and!; try done; try apply Hid.
    intros k e [Hin|[]]. by destruct r.
  - destruct (tasks s !! tid) as [t|] eqn:Ht; [|done]. simplify_eq. cbn.
    set (t' := set_handle (interrupt (handle t)) t).
    assert (Hsame : same_locals t t').
    { subst t'. unfold same_locals, interrupt, playing. cbn.
      destruct (done_fut (handle t)) eqn:Hd; cbn; rewrite ?Hd; split_and!; auto. }
    split_and!; [by intros k e []|done|done|done|..].
    + intros k x Hlk. right. apply insert_task_lookup in Hlk as [[-> ->]|[_ Hlk]].
      * by exists t.
      * exists x. split; auto using same_locals_refl.
    + intros k x0 Hx0. destruct (decide (k = tid)) as [->|Hne].
      * exists t'. rewrite list_lookup_insert_eq by (by eapply lookup_lt_Some).
        split; [done|]. rewrite Ht in Hx0. by simplify_eq.
      * exists x0. rewrite list_lookup_insert_ne by done.
        split; auto using same_locals_refl.
  - simplify_eq. cbn. split_and!; [by intros k e []|done|done|done|apply Hid..].
  - by destruct (Ha tid inp).
Qed.

Lemma serialized_app (tr evs : list SysEvent) :
  serialized tr ->
  (forall k e j e', In (TaskEvent k e) tr -> is_cancel_request e = false ->
     In (TaskEvent j e') evs -> ~ j < k) ->
  (forall l k e r, evs = l ++ TaskEvent k e :: r -> is_cancel_request e = false ->
     forall j, j < k ->
       In (TaskEvent j SetResult) (tr ++ l) /\ forall e', ~ In (TaskEvent j e') r) ->
  serialized (tr ++ evs).
Proof.
  intros Hser Hold Hnew tr1 k e tr2 Heq He j Hlt.
  apply app_cut in Heq as [(r & -> & ->)|(l & -> & ->)].
  - destruct (Hser tr1 k e r eq_refl He j Hlt) as [Hs Hn]. split; [done|].
    intros e' Hin. apply in_app_or in Hin as [Hin|Hin]; [by eapply Hn|].
    eapply (Hold k e j e'); [|exact He|exact Hin|exact Hlt].
    apply in_or_app. right. by left.
  - exact (Hnew l k e tr2 eq_refl He j Hlt).
Qed.

Lemma other_order_inv a (s : @System F) tr s' evs :
  (forall tid inp, a <> Step tid inp) ->
  order_inv s tr ->
  sys_step a s = Some (s', evs) ->
  order_inv s' (tr ++ evs).
Proof.
  intros Ha Hord Hstep.
  destruct (other_step_tasks _ _ _ _ Ha Hstep) as (Hno & _ & _ & _ & Hback & Hfwd).
  constructor.
  - intros k x Hlk Hpx. destruct (Hback k x Hlk) as [[_ ->]|(x0 & Hx0 & Hs)]; [done|].
    destruct Hs as (Hp & Hff & Hc & _). rewrite Hff, Hc.
    apply (ord_fresh s tr Hord k x0 Hx0). unfold past_handoff in *. by rewrite <- Hp.
  - intros k x Hlk Hcx. destruct (Hback k x Hlk) as [[_ ->]|(x0 & Hx0 & Hs)]; [done|].
    destruct Hs as (_ & _ & Hc & _ & _ & Hi & _). apply Hi.
    apply (ord_cancelled s tr Hord k x0 Hx0). by rewrite <- Hc.
  - intros k e Hin He. apply in_app_or in Hin as [Hin|Hin]; [|by destruct (Hno _ _ Hin)].
    destruct (ord_acted s tr Hord k e Hin He) as (x0 & Hx0 & Hpx).
    destruct (Hfwd k x0 Hx0) as (x & Hx & Hp & _). exists x. split; [done|].
    unfold past_handoff in *. by rewrite Hp.
  - intros k Hin. apply in_app_or in Hin as [Hin|Hin]; [|by destruct (Hno _ _ Hin)].
    destruct (ord_result s tr Hord k Hin) as (x0 & Hx0 & Hfx).
    destruct (Hfwd k x0 Hx0) as (x & Hx & Hp & _). exists x. split; [done|].
    unfold is_finished in *. by rewrite Hp.
  - intros k c Hin. apply in_app_or in Hin as [Hin|Hin]; [|by destruct (Hno _ _ Hin)].
    destruct (ord_stopped s tr Hord k c Hin) as (x0 & Hx0 & Hfx & Hcx).
    destruct (Hfwd k x0 Hx0) as (x & Hx & Hp & _ & Hc & _). exists x.
    split_and!; [done| |congruence]. unfold is_finished in *. by rewrite Hp.
  - apply serialized_app; [apply (ord_serial s tr Hord)| |].
    + intros k e j e' _ _ Hin. by destruct (Hno _ _ Hin).
    + intros l k e r -> _. destruct (Hno k e). apply in_or_app. right. by left.
Qed.

Lemma step_order_inv (s : @System F) tr tid inp s' evs :
  sys_inv s -> trace_inv s tr -> order_inv s tr ->
  sys_step (Step tid inp) s = Some (s', evs) ->
  order_inv s' (tr ++ evs).
Proof.
  intros Hinv Htr Hord Hstep. simpl in Hstep.
  destruct (tasks s !! tid) as [t|] eqn:Ht; [|done].
  destruct (delivered s tid t inp) as [r|] eqn:Hdel; [|done].
  destruct (resume r (world s) t) as [[w' t'] evs0] eqn:Hr.
  inversion Hstep; subst s' evs; clear Hstep.
  destruct (delivered_spec _ _ _ _ _ Hinv Ht Hdel) as (Hnf & Hcre & Hold).
  destruct (resume_sys _ _ _ _ _ _ Hr) as (Ho & Hcr & _ & Hph & _ & _).
  destruct (resume_locals _ _ _ _ _ _ Hr) as (Hcan & Hfresh).
  destruct (resume_events _ _ _ _ _ _ Hr) as (Hact & Hres & Hstop).
  pose proof (resume_handle _ _ _ _ _ _ Hr) as Hint.
  set (s1 := mkSystem w' (playout_atask s) (closed s) (<[tid := t']> (tasks s))
                      (must_cancel s ∖ {[tid]}) (closers s)) in *.
  destruct (effects_frame evs0 s1) as (_ & _ & _ & Ht2 & _ & _).
  set (s2 := foldl effect s1 evs0) in *. simpl in Ht2.
  assert (Hlk2 : forall k x, tasks s2 !! k = Some x ->
            (k = tid /\ x = t') \/ (k <> tid /\ tasks s !! k = Some x)).
  { rewrite Ht2. intros k x. apply insert_task_lookup. }
  assert (Hlen : tid < length (tasks s)) by (by eapply lookup_lt_Some).
  assert (Htid2 : tasks s2 !! tid = Some t')
    by (rewrite Ht2; by apply list_lookup_insert_eq).
  assert (Hne2 : forall k, k <> tid -> tasks s2 !! k = tasks s !! k)
    by (intros k Hk; rewrite Ht2; by apply list_lookup_insert_ne).
  assert (Hearlier : past_handoff t = true \/ point t = AwaitOld ->
            forall j tj, j < tid -> tasks s !! j = Some tj -> is_finished tj = true).
  { intros [Hpt|Hp] j tj Hlt Htj.
    - by apply (inv_handoff s Hinv j tid tj t).
    - destruct (Hold Hp) as (o & to & Hot & Hto & Hfo).
      rewrite (inv_chain s Hinv _ _ Ht) in Hot.
      destruct tid as [|o']; simpl in Hot; simplify_eq.
      destruct (decide (j = o)) as [->|Hjo].
      + rewrite Htj in Hto. by simplify_eq.
      + apply (inv_handoff s Hinv j o tj to); auto; [lia|].
        unfold past_handoff, is_finished in *. by destruct (point to). }
  constructor.
  - intros k x Hlk Hpx. destruct (Hlk2 _ _ Hlk) as [[-> ->]|[Hnk Hk']].
    + destruct (Hfresh Hpx) as [-> ->]. apply (ord_fresh s tr Hord tid t Ht).
      destruct (past_handoff t) eqn:Hpt; [|done]. by rewrite (Hph eq_refl) in Hpx.
    + by apply (ord_fresh s tr Hord k x).
  - intros k x Hlk Hcx. destruct (Hlk2 _ _ Hlk) as [[-> ->]|[Hnk Hk']].
    + rewrite Hint. destruct (Hcan Hcx) as [Hc|Hi]; [|done].
      by apply (ord_cancelled s tr Hord tid t).
    + by apply (ord_cancelled s tr Hord k x).
  - intros k e Hin He. apply in_app_or in Hin as [Hin|Hin].
    + destruct (ord_acted s tr Hord k e Hin He) as (x & Hx & Hpx).
      destruct (decide (k = tid)) as [->|Hnk].
      * exists t'. split; [done|]. rewrite Ht in Hx. simplify_eq. by apply Hph.
      * exists x. by rewrite Hne2.
    + apply in_task_events in Hin as [-> Hin].
      exists t'. split; [done|]. by destruct (Hact e Hin He).
  - intros k Hin. apply in_app_or in Hin as [Hin|Hin].
    + destruct (ord_result s tr Hord k Hin) as (x & Hx & Hfx).
      destruct (decide (k = tid)) as [->|Hnk].
      * rewrite Ht in Hx. simplify_eq. congruence.
      * exists x. by rewrite Hne2.
    + apply in_task_events in Hin as [-> Hin]. exists t'. split; [done|]. by apply Hres.
  - intros k c Hin. apply in_app_or in Hin as [Hin|Hin].
    + destruct (ord_stopped s tr Hord k c Hin) as (x & Hx & Hfx & Hcx).
      destruct (decide (k = tid)) as [->|Hnk].
      * rewrite Ht in Hx. simplify_eq. congruence.
      * exists x. by rewrite Hne2.
    + apply in_task_events in Hin as [-> Hin]. exists t'. split; [done|].
      by apply Hstop.
  - apply serialized_app; [apply (ord_serial s tr Hord)| |].
    + intros k e j e' Hink He Hinj Hlt.
      apply in_task_events in Hinj as [-> _].
      destruct (ord_acted s tr Hord k e Hink He) as (x & Hx & Hpx).
      rewrite (inv_handoff s Hinv tid k t x Hlt Ht Hx Hpx) in Hnf. done.
    + intros l k e r0 Heq He j Hlt.
      destruct (map_task_cut _ _ _ _ _ Heq) as (e0 & He0 & Hine & Hr0).
      simplify_eq. destruct (Hact e0 Hine He) as [_ Hbefore].
      split.
      * apply in_or_app. left.
        destruct (lookup_lt_is_Some_2 (tasks s) j) as [tj Htj]; [lia|].
        apply (tr_done s tr Htr j tj Htj). by apply (Hearlier Hbefore j tj).
      * intros e' Hin. apply Hr0 in Hin. lia.
Qed.

Lemma sys_step_order (s : @System F) tr a s' evs :
  sys_inv s -> trace_inv s tr -> order_inv s tr ->
  sys_step a s = Some (s', evs) ->
  order_inv s' (tr ++ evs).
Proof.
  intros Hinv Htr Hord Hstep.
  destruct a; try (by eapply other_order_inv; [| |exact Hstep]).
  by eapply step_order_inv.
Qed.

Lemma sys_run_order acts : forall (s : @System F) tr s' evs,
  sys_inv s -> trace_inv s tr -> order_inv s tr ->
  sys_run acts s = Some (s', evs) ->
  sys_inv s' /\ trace_inv s' (tr ++ evs) /\ order_inv s' (tr ++ evs).
Proof.
  induction acts as [|a acts IH]; simpl; intros s tr s' evs Hinv Htr Hord Hrun.
  - inversion Hrun; subst. by rewrite app_nil_r.
  - destruct (sys_step a s) as [[s1 evs1]|] eqn:Hstep; [|done].
    destruct (sys_run acts s1) as [[s2 evs2]|] eqn:Hrest; [|done].
    inversion Hrun; subst. rewrite app_assoc.
    destruct (sys_step_inv _ _ _ _ _ Hinv Htr Hstep) as [Hinv1 Htr1].
    pose proof (sys_step_order _ _ _ _ _ Hinv Htr Hord Hstep) as Hord1.
    by apply (IH s1).
Qed.

(** Every state the orchestrator can get into, with the trace that led
    there, satisfies the invariants. *)
Lemma reachable_invs (flt : F) fs acts (s : @System F) tr :
  sys_run acts (init_system flt fs) = Some (s, tr) ->
  sys_inv s /\ trace_inv s tr /\ order_inv s tr.
Proof.
  intros Hrun. destruct (init_inv flt fs) as [Hinv Htr].
  apply (sys_run_order acts (init_system flt fs) [] s tr Hinv Htr); [|done].
  constructor; simpl; try done.
  intros tr1 k e tr2 Heq. by destruct tr1.
Qed.

(** X8.  Playouts are serialized.  Apart from the request to cancel its
    predecessor, which a playout makes in its first step, everything a
    playout does ([playout_started], frames to the sink, [playout_stopped],
    completion of its handle) happens after every earlier playout has
    completed its handle, and no earlier playout does anything afterwards. *)
Theorem playouts_are_serialized (flt : F) (fs : gmap nat AudioFrame)
    (acts : list SysAct) (s : @System F) tr tr1 k e tr2 :
  sys_run acts (init_system flt fs) = Some (s, tr) ->
  tr = tr1 ++ TaskEvent k e :: tr2 ->
  is_cancel_request e = false ->
  forall j, j < k ->
    In (TaskEvent j SetResult) tr1 /\ forall e', ~ In (TaskEvent j e') tr2.
Proof.
  intros Hrun Heq He. destruct (reachable_invs _ _ _ _ _ Hrun) as (_ & _ & Hord).
  exact (ord_serial s tr Hord tr1 k e tr2 Heq He).
Qed.

Lemma sys_step_interrupted a (s : @System F) s' evs k :
  sys_step a s = Some (s', evs) ->
  (forall t, tasks s !! k = Some t ->
     exists t', tasks s' !! k = Some t' /\
       (interrupted (handle t) = true -> interrupted (handle t') = true)) /\
  (forall t', tasks s' !! k = Some t' -> interrupted (handle t') = true ->
     a = HandleInterrupt k \/
     exists t, tasks s !! k = Some t /\ interrupted (handle t) = true).
Proof.
  intros Hstep.
  assert (Hid : forall l : list Task,
    (forall t, l !! k = Some t ->
       exists t', l !! k = Some t' /\
         (interrupted (handle t) = true -> interrupted (handle t') = true)) /\
    (forall t', l !! k = Some t' -> interrupted (handle t') = true ->
       a = HandleInterrupt k \/
       exists t, l !! k = Some t /\ interrupted (handle t) = true)).
  { intros l. split; [intros t Ht; by exists t|intros t' Ht' Hi; right; by exists t']. }
  destruct a as [| |c|tid|v|tid inp]; simpl in Hstep.
  - unfold play in Hstep. destruct (closed s); simplify_eq; [apply Hid|]. cbn. split.
    + intros t Ht. exists t. split; [by apply lookup_app_l_Some|done].
    + intros t' Ht' Hi. apply lookup_snoc_Some in Ht' as [[_ Ht']|[_ <-]]; [|done].
      right. by exists t'.
  - unfold aclose in Hstep.
    destruct (closed s); [|destruct (playout_atask s)]; simplify_eq; cbn; apply Hid.
  - destruct (closers s !! c) as [[t|]|]; try done.
    destruct (await_task s t) as [r|]; [|done]. simplify_eq. cbn. apply Hid.
  - destruct (tasks s !! tid) as [t|] eqn:Ht; [|done]. simplify_eq. cbn.
    assert (Hlen : tid < length (tasks s)) by (by eapply lookup_lt_Some).
    destruct (decide (k = tid)) as [->|Hne].
    + rewrite list_lookup_insert_eq by done. split.
      * intros t0 Ht0. rewrite Ht in Ht0. inversion Ht0; subst t0.
        eexists. split; [done|].
        unfold interrupt. destruct (negb (playing (handle t))); cbn; auto.
      * intros t' Ht' Hi. by left.
    + rewrite list_lookup_insert_ne by done. apply Hid.
  - simplify_eq. cbn. apply Hid.
  - destruct (tasks s !! tid) as [t|] eqn:Ht; [|done].
    destruct (delivered s tid t inp) as [r|]; [|done].
    destruct (resume r (world s) t) as [[w' t'] evs0] eqn:Hr.
    inversion Hstep; subst s' evs; clear Hstep.
    destruct (effects_frame evs0
                (mkSystem w' (playout_atask s) (closed s) (<[tid := t']> (tasks s))
                          (must_cancel s ∖ {[tid]}) (closers s))) as (_ & _ & _ & -> & _).
    cbn. pose proof (resume_handle _ _ _ _ _ _ Hr) as Hint.
    assert (Hlen : tid < length (tasks s)) by (by eapply lookup_lt_Some).
    destruct (decide (k = tid)) as [->|Hne].
    + rewrite list_lookup_insert_eq by done. split.
      * intros t0 Ht0. rewrite Ht in Ht0. inversion Ht0; subst t0.
        exists t'. split; [done|]. congruence.
      * intros t0 Ht0 Hi. inversion Ht0; subst t0.
        right. exists t. split; [done|]. congruence.
    + rewrite list_lookup_insert_ne by done. apply Hid.
Qed.

(** X9.  The interrupted flag of a handle is set by [interrupt()] and by
    nothing else, and it is never reset: across any sequence of actions a
    handle that was interrupted stays interrupted, and a handle that is
    interrupted at the end either was so at the start or had [interrupt()]
    called on it in between. *)
Theorem interrupted_flag_is_set_by_interrupt_and_kept (s : @System F)
    (acts : list SysAct) s' tr k :
  sys_run acts s = Some (s', tr) ->
  (forall t, tasks s !! k = Some t ->
     exists t', tasks s' !! k = Some t' /\
       (interrupted (handle t) = true -> interrupted (handle t') = true)) /\
  (forall t', tasks s' !! k = Some t' -> interrupted (handle t') = true ->
     In (HandleInterrupt k) acts \/
     exists t, tasks s !! k = Some t /\ interrupted (handle t) = true).
Proof.
  revert s s' tr. induction acts as [|a acts IH]; simpl; intros s s' tr Hrun.
  - simplify_eq. split; [intros t Ht; by exists t|intros t' Ht' Hi; right; by exists t'].
  - destruct (sys_step a s) as [[s1 evs1]|] eqn:Hstep; [|done].
    destruct (sys_run acts s1) as [[s2 evs2]|] eqn:Hrest; [|done].
    inversion Hrun; subst s' tr; clear Hrun.
    destruct (sys_step_interrupted _ _ _ _ k Hstep) as [Hkeep1 Hset1].
    destruct (IH _ _ _ Hrest) as [Hkeep2 Hset2]. split.
    + intros t Ht. destruct (Hkeep1 t Ht) as (t1 & Ht1 & Hi1).
      destruct (Hkeep2 t1 Ht1) as (t2 & Ht2 & Hi2). exists t2. split; auto.
    + intros t' Ht' Hi. destruct (Hset2 t' Ht' Hi) as [Hin|(t1 & Ht1 & Hi1)]; [auto|].
      destruct (Hset1 t1 Ht1 Hi1) as [->|Hex]; auto.
Qed.

(** X10.  [playout_stopped] reports a cancelled playout only for a handle
    that was interrupted: every [playout_stopped] in a trace belongs to a
    playout that has ended, its flag is the final value of the local
    [cancelled], and when the flag is [True] the handle is interrupted and
    [interrupt()] was called on it. *)
Theorem stopped_flag_needs_interrupted_handle (flt : F) (fs : gmap nat AudioFrame)
    (acts : list SysAct) (s : @System F) tr k c :
  sys_run acts (init_system flt fs) = Some (s, tr) ->
  In (TaskEvent k (PlayoutStopped c)) tr ->
  exists t, tasks s !! k = Some t /\ is_finished t = true /\ cancelled t = c /\
    (c = true -> interrupted (handle t) = true /\ In (HandleInterrupt k) acts).
Proof.
  intros Hrun Hin. destruct (reachable_invs _ _ _ _ _ Hrun) as (_ & _ & Hord).
  destruct (ord_stopped s tr Hord k c Hin) as (t & Ht & Hf & Hc).
  exists t. split_and!; try done. intros ->.
  pose proof (ord_cancelled s tr Hord k t Ht Hc) as Hi. split; [done|].
  assert (Hset : forall t', tasks s !! k = Some t' -> interrupted (handle t') = true ->
            In (HandleInterrupt k) acts \/
            exists t0, tasks (init_system flt fs) !! k = Some t0 /\
                       interrupted (handle t0) = true).
  { revert Hrun. generalize (init_system flt fs). clear. revert s tr.
    induction acts as [|a acts IH]; simpl; intros s' tr s Hrun t' Ht' Hi.
    - simplify_eq. right. by exists t'.
    - destruct (sys_step a s) as [[s1 evs1]|] eqn:Hstep; [|done].
      destruct (sys_run acts s1) as [[s2 evs2]|] eqn:Hrest; [|done].
      inversion Hrun; subst s' tr; clear Hrun.
      destruct (sys_step_interrupted _ _ _ _ k Hstep) as [_ Hset1].
      destruct (IH _ _ _ Hrest t' Ht' Hi) as [Hin|(t1 & Ht1 & Hi1)]; [auto|].
      destruct (Hset1 t1 Ht1 Hi1) as [->|Hex]; auto. }
  destruct (Hset t Ht Hi) as [Hin'|(t0 & Ht0 & _)]; [done|].
  simpl in Ht0. by rewrite lookup_nil in Ht0.
Qed.


(** X12.  At most one playout is between its hand-off and its end.  While
    a playout is there, every earlier playout has ended, and every later
    one is still before its hand-off, has received no frame and has not
    met the break condition. *)
Theorem at_most_one_playout_streams (flt : F) (fs : gmap nat AudioFrame)
    (acts : list SysAct) (s : @System F) tr k t :
  sys_run acts (init_system flt fs) = Some (s, tr) ->
  tasks s !! k = Some t -> past_handoff t = true -> is_finished t = false ->
  (forall j tj, tasks s !! j = Some tj -> j < k -> is_finished tj = true) /\
  (forall j tj, tasks s !! j = Some tj -> k < j ->
     past_handoff tj = false /\ first_frame tj = true /\ cancelled tj = false).
Proof.
  intros Hrun Ht Hp Hf. destruct (reachable_invs _ _ _ _ _ Hrun) as (Hinv & _ & Hord).
  split.
  - intros j tj Htj Hlt. by apply (inv_handoff s Hinv j k tj t).
  - intros j tj Htj Hlt.
    assert (Hpj : past_handoff tj = false).
    { destruct (past_handoff tj) eqn:Hpj; [|done].
      by rewrite (inv_handoff s Hinv k j t tj Hlt Ht Htj Hpj) in Hf. }
    split; [done|]. by apply (ord_fresh s tr Hord j tj).
Qed.

Lemma not_elem_of_remove (k : nat) (X : gset nat) : k ∉ X ∖ {[k]}.
Proof. intros [_ Hn]%elem_of_difference. apply Hn. by apply elem_of_singleton. Qed.

Lemma elem_of_mark (k : nat) (X : gset nat) : k ∈ {[k]} ∪ X.
Proof. apply elem_of_union. left. by apply elem_of_singleton. Qed.

Lemma effects_quiet evs : forall (s : @System F),
  (forall o, ~ In (CancelTask o) evs) -> foldl effect s evs = s.
Proof.
  induction evs as [|e evs IH]; intros s Hno; [done|]. cbn [foldl].
  assert (He : effect s e = s).
  { destruct e; try done. destruct (Hno t). by left. }
  rewrite He. apply IH. intros o Hin. apply (Hno o). by right.
Qed.

(** X13.  A new playout cancels the one that is playing.  In its first
    step playout [k+1] calls [cancel()] on playout [k]; if [k] is past its
    hand-off and has not ended, the cancellation is pending on it from
    then on.  A playout with a pending cancellation ends in its next step,
    whatever it was waiting for: it sends no further frame, leaves the
    filter and the frames alone, emits [playout_stopped] (if it had
    received a frame, with the value of the local [cancelled]: [False]
    unless the loop had met the break condition before) and completes its
    handle, and the task ends with [CancelledError]. *)
Theorem successor_cancels_playing_playout (flt : F) (fs : gmap nat AudioFrame)
    (acts : list SysAct) (s : @System F) tr k tk :
  sys_run acts (init_system flt fs) = Some (s, tr) ->
  tasks s !! k = Some tk -> past_handoff tk = true ->
  (forall t1 inp s1 evs,
     is_finished tk = false ->
     tasks s !! S k = Some t1 -> point t1 = Created ->
     sys_step (Step (S k) inp) s = Some (s1, evs) ->
     evs = [TaskEvent (S k) (CancelTask k)] /\
     k ∈ must_cancel s1 /\
     tasks s1 = <[S k := set_point AwaitOld t1]> (tasks s) /\
     world s1 = world s) /\
  (forall inp s1 evs,
     k ∈ must_cancel s ->
     sys_step (Step k inp) s = Some (s1, evs) ->
     exists tk',
       tasks s1 = <[k := tk']> (tasks s) /\
       point tk' = Finished (Some CancelledError) /\
       done_fut (handle tk') = true /\
       evs = map (TaskEvent k)
               ((if first_frame tk then [] else [PlayoutStopped (cancelled tk)])
                ++ [SetResult]) /\
       world s1 = world s /\ k ∉ must_cancel s1).
Proof.
  intros Hrun Htk Hpk. destruct (reachable_invs _ _ _ _ _ Hrun) as (Hinv & _ & _).
  split.
  - intros t1 inp s1 evs Hnf Ht1 Hp1 Hstep. simpl in Hstep. rewrite Ht1 in Hstep.
    destruct (delivered s (S k) t1 inp) as [r|] eqn:Hdel; [|done].
    destruct (delivered_spec _ _ _ _ _ Hinv Ht1 Hdel) as (_ & Hcre & _).
    destruct (Hcre Hp1) as [-> _].
    pose proof (inv_chain s Hinv _ _ Ht1) as Hold. simpl in Hold.
    unfold resume in Hstep. rewrite Hp1, Hold in Hstep.
    set (s0 := mkSystem (world s) (playout_atask s) (closed s)
                        (<[S k := set_point AwaitOld t1]> (tasks s))
                        (must_cancel s ∖ {[S k]}) (closers s)) in Hstep.
    change (foldl effect s0 [CancelTask k]) with (cancel_task (S k) s0 k) in Hstep.
    assert (Hk1 : tasks s0 !! k = Some tk).
    { subst s0. cbn. rewrite list_lookup_insert_ne by lia. done. }
    assert (Hc : cancel_task (S k) s0 k =
                 mkSystem (world s0) (playout_atask s0) (closed s0) (tasks s0)
                          ({[k]} ∪ must_cancel s0) (closers s0)).
    { cbn [cancel_task]. rewrite Hk1.
      unfold past_handoff, is_finished in Hpk, Hnf. by destruct (point tk). }
    rewrite Hc in Hstep. inversion Hstep; subst s1 evs; clear Hstep.
    cbn. split_and!; try done. apply elem_of_mark.
  - intros inp s1 evs Hmc Hstep. simpl in Hstep. rewrite Htk in Hstep.
    destruct (delivered s k tk inp) as [r|] eqn:Hdel; [|done].
    destruct (delivered_spec _ _ _ _ _ Hinv Htk Hdel) as (Hnf & _ & _).
    pose proof (inv_done s Hinv k tk Htk) as Hd. rewrite Hnf in Hd.
    assert (Hr : r = Raised CancelledError /\
                 resume r (world s) tk =
                   (world s, fst (finalize (Some CancelledError) tk),
                    snd (finalize (Some CancelledError) tk))).
    { unfold delivered in Hdel. rewrite (bool_decide_eq_true_2 _ Hmc) in Hdel.
      unfold resume. unfold past_handoff, is_finished in Hpk, Hnf.
      destruct (point tk); try done; simplify_eq; split; try done;
        by destruct (finalize (Some CancelledError) tk). }
    destruct Hr as [-> Hr]. rewrite Hr in Hstep.
    destruct (finalize (Some CancelledError) tk) as [tk' evs0] eqn:Hfin.
    destruct (finalize_spec _ _ _ _ Hfin Hd) as [-> ->]. cbn [fst snd] in Hstep.
    rewrite effects_quiet in Hstep.
    2:{ intros o Hin. unfold final_events in Hin.
        destruct (first_frame tk); cbn in Hin; intuition congruence. }
    inversion Hstep; subst s1 evs; clear Hstep. cbn.
    eexists. split_and!; try done. apply not_elem_of_remove.
Qed.

(** X14.  A cancellation does not stop a playout that still waits for an
    unfinished predecessor.  When playout [k+2] starts while playout [k+1]
    waits for playout [k], which is playing, the [cancel()] on [k+1] is
    passed on to [k]: a cancellation becomes pending on [k], none on
    [k+1]. *)
Theorem cancellation_passes_to_awaited_playout (flt : F) (fs : gmap nat AudioFrame)
    (acts : list SysAct) (s : @System F) tr k tk t1 t2 inp s1 evs :
  sys_run acts (init_system flt fs) = Some (s, tr) ->
  tasks s !! k = Some tk -> past_handoff tk = true -> is_finished tk = false ->
  tasks s !! S k = Some t1 -> point t1 = AwaitOld -> S k ∉ must_cancel s ->
  tasks s !! S (S k) = Some t2 -> point t2 = Created ->
  sys_step (Step (S (S k)) inp) s = Some (s1, evs) ->
  evs = [TaskEvent (S (S k)) (CancelTask (S k))] /\
  k ∈ must_cancel s1 /\ (S k ∉ must_cancel s1) /\
  tasks s1 = <[S (S k) := set_point AwaitOld t2]> (tasks s) /\
  world s1 = world s.
Proof.
  intros Hrun Htk Hpk Hnf Ht1 Hp1 Hmc Ht2 Hp2 Hstep.
  destruct (reachable_invs _ _ _ _ _ Hrun) as (Hinv & _ & _).
  simpl in Hstep. rewrite Ht2 in Hstep.
  destruct (delivered s (S (S k)) t2 inp) as [r|] eqn:Hdel; [|done].
  destruct (delivered_spec _ _ _ _ _ Hinv Ht2 Hdel) as (_ & Hcre & _).
  destruct (Hcre Hp2) as [-> _].
  pose proof (inv_chain s Hinv _ _ Ht2) as Hold2. simpl in Hold2.
  pose proof (inv_chain s Hinv _ _ Ht1) as Hold1. simpl in Hold1.
  unfold resume in Hstep. rewrite Hp2, Hold2 in Hstep.
  set (s0 := mkSystem (world s) (playout_atask s) (closed s)
                      (<[S (S k) := set_point AwaitOld t2]> (tasks s))
                      (must_cancel s ∖ {[S (S k)]}) (closers s)) in Hstep.
  change (foldl effect s0 [CancelTask (S k)])
    with (cancel_task (S (S k)) s0 (S k)) in Hstep.
  assert (Hk : tasks s0 !! k = Some tk).
  { subst s0. cbn. rewrite list_lookup_insert_ne by lia. done. }
  assert (Hk1 : tasks s0 !! S k = Some t1).
  { subst s0. cbn. rewrite list_lookup_insert_ne by lia. done. }
  assert (Hc : cancel_task (S (S k)) s0 (S k) =
               mkSystem (world s0) (playout_atask s0) (closed s0) (tasks s0)
                        ({[k]} ∪ must_cancel s0) (closers s0)).
  { cbn [cancel_task]. rewrite Hk1, Hp1, Hold1, Hk. cbn [fmap option_fmap option_map].
    rewrite Hnf.
    unfold past_handoff, is_finished in Hpk, Hnf. by destruct (point tk). }
  rewrite Hc in Hstep. inversion Hstep; subst s1 evs; clear Hstep.
  cbn. split_and!; try done; [apply elem_of_mark|].
  intros [Hin|Hin]%elem_of_union.
  - apply elem_of_singleton in Hin. lia.
  - apply elem_of_difference in Hin as [Hin _]. done.
Qed.

(** X15.  How the hand-off turns out.  A playout that waits for its
    predecessor is resumed when the predecessor has ended.  It goes on to
    its playout source if the predecessor returned or ended with
    [CancelledError], and also if it has a cancellation pending itself
    (the [suppress] block swallows it).  If the predecessor raised
    anything else, the playout ends with the same exception at once: it
    plays nothing, emits neither [playout_started] nor [playout_stopped],
    and only completes its handle. *)
Theorem handoff_follows_predecessor (flt : F) (fs : gmap nat AudioFrame)
    (acts : list SysAct) (s : @System F) tr k t inp s1 evs :
  sys_run acts (init_system flt fs) = Some (s, tr) ->
  tasks s !! k = Some t -> point t = AwaitOld ->
  sys_step (Step k inp) s = Some (s1, evs) ->
  exists o r t',
    k = S o /\ point <$> tasks s !! o = Some (Finished r) /\
    tasks s1 = <[k := t']> (tasks s) /\ world s1 = world s /\
    (k ∉ must_cancel s1) /\
    if bool_decide (k ∈ must_cancel s) ||
       match r with None | Some CancelledError => true | Some _ => false end
    then t' = set_point AwaitNext t /\ evs = []
    else point t' = Finished r /\ done_fut (handle t') = true /\
         first_frame t' = true /\ evs = [TaskEvent k SetResult].
Proof.
  intros Hrun Ht Hp Hstep.
  destruct (reachable_invs _ _ _ _ _ Hrun) as (Hinv & _ & Hord).
  simpl in Hstep. rewrite Ht in Hstep.
  destruct (delivered s k t inp) as [r0|] eqn:Hdel; [|done].
  pose proof (inv_chain s Hinv _ _ Ht) as Hold.
  pose proof (inv_done s Hinv _ _ Ht) as Hd.
  destruct (ord_fresh s tr Hord k t Ht) as [Hff Hc].
  { unfold past_handoff. by rewrite Hp. }
  unfold is_finished in Hd. rewrite Hp in Hd.
  unfold delivered in Hdel. rewrite Hp in Hdel.
  destruct (old_task t) as [o|] eqn:Ho; [|done].
  destruct k as [|k']; [done|]. simpl in Hold. simplify_eq.
  unfold await_task in Hdel.
  destruct (tasks s !! k') as [to|] eqn:Hto; [|done]. cbn in Hdel.
  destruct (point to) as [| | | |r] eqn:Hpo; try done.
  exists k', r.
  assert (Hfin : forall e, finalize (Some e) t =
            (set_point (Finished (Some e)) (set_handle (mkHandle (interrupted (handle t)) true) t),
             [SetResult])).
  { intros e. unfold finalize. by rewrite Hff, Hd. }
  assert (Hr0 : r0 = if bool_decide (S k' ∈ must_cancel s) then Raised CancelledError
                     else match r with None => Resumed | Some e => Raised e end).
  { destruct r; cbn in Hdel; congruence. }
  clear Hdel. subst r0.
  assert (Hpt : point <$> tasks s !! k' = Some (Finished r)).
  { rewrite Hto. cbn. by rewrite Hpo. }
  unfold resume in Hstep. rewrite Hp in Hstep.
  destruct (bool_decide (S k' ∈ must_cancel s)) eqn:Hmc.
  - inversion Hstep; subst s1 evs; clear Hstep. cbn.
    eexists. split_and!; try done. apply not_elem_of_remove.
  - destruct r as [[]|]; rewrite ?Hfin in Hstep;
      inversion Hstep; subst s1 evs; clear Hstep;
      cbn; eexists; split_and!; try done; apply not_elem_of_remove.
Qed.

End OrderFacts.

(** ** Concrete runs for the properties above *)

Lemma frames_without_a_window_witness :
  let t := mkTask None new_handle true false AwaitNext in
  run_script [Run Resumed] world_d (new_task None) = (world_d, t, []) /\
  (exists t', resume (Frame 1) world_d t = (world_d, t', [PlayoutStarted]) /\
     point t' = AwaitNext /\ first_frame t' = false /\
     handle t' = handle t /\ cancelled t' = false) /\
  (exists t', resume (Frame 0) world_d t =
                (world_d, t', [PlayoutStarted; PlayoutStopped false; SetResult]) /\
     point t' = Finished (Some ZeroDivisionError) /\
     done_fut (handle t') = true).
Proof.
  intros t.
  assert (Hrun : run_script [Run Resumed] world_d (new_task None) = (world_d, t, []))
    by (vm_compute; reflexivity).
  assert (Hp : point t = AwaitNext) by reflexivity.
  assert (Hsb : should_break world_d t = false) by (vm_compute; reflexivity).
  split; [exact Hrun|]. split.
  - apply (proj1 (frames_without_a_window None world_d [Run Resumed] world_d t [] 1
                    Hrun Hp Hsb)).
    vm_compute; reflexivity.
  - apply (proj2 (frames_without_a_window None world_d [Run Resumed] world_d t [] 0
                    Hrun Hp Hsb)).
    + vm_compute; discriminate.
    + vm_compute; lia.
Defined.

Lemma exception_ends_playout_witness :
  let t := mkTask None new_handle false false (AwaitCapture 0 2 2) in
  run_script [Run Resumed; Run (Frame 0)] world_b (new_task None) =
    (world_b, t, [PlayoutStarted; CaptureFrame (mkAudioFrame [10; 20]%Z 200 1 2)]) /\
  exists t',
    resume (Raised (Failure 7)) world_b t =
      (world_b, t', [PlayoutStopped false; SetResult]) /\
    point t' = Finished (Some (Failure 7)) /\ done_fut (handle t') = true /\
    interrupted (handle t') = interrupted (handle t) /\
    cancelled t' = cancelled t /\ first_frame t' = first_frame t.
Proof.
  intros t.
  assert (Hrun : run_script [Run Resumed; Run (Frame 0)] world_b (new_task None) =
            (world_b, t, [PlayoutStarted; CaptureFrame (mkAudioFrame [10; 20]%Z 200 1 2)]))
    by (vm_compute; reflexivity).
  assert (Hp : point t = AwaitNext \/ exists fr ms20 i, point t = AwaitCapture fr ms20 i)
    by (right; exists 0, 2, 2; reflexivity).
  split; [exact Hrun|].
  exact (exception_ends_playout None world_b [Run Resumed; Run (Frame 0)] world_b t
           [PlayoutStarted; CaptureFrame (mkAudioFrame [10; 20]%Z 200 1 2)]
           (Failure 7) Hrun Hp).
Defined.

Lemma uninterrupted_playout_is_not_cancelled_witness :
  let sc := [Run Resumed; Call (CallSetVolume 0.5); Run (Frame 0); Run Resumed;
             Run Resumed; Run Resumed; Run Stop] in
  let w := mkWorld 0.5 (mkExpFilter 0.25 0.5078125)
                   {[0 := mkAudioFrame [62; 1; -3]%Z 100 1 3]} in
  let t := mkTask None (mkHandle false true) false false (Finished None) in
  let evs := [PlayoutStarted; CaptureFrame (mkAudioFrame [62]%Z 100 1 1);
              CaptureFrame (mkAudioFrame [1]%Z 100 1 1);
              CaptureFrame (mkAudioFrame [-3]%Z 100 1 1);
              PlayoutStopped false; SetResult] in
  run_script sc world_a (new_task None) = (w, t, evs) /\
  interrupted (handle t) = false /\ cancelled t = false /\
  should_break w t = false /\
  forall c, In (PlayoutStopped c) evs -> c = false.
Proof.
  intros sc w t evs.
  assert (Hsc : Forall (fun a => a <> Call CallInterrupt) sc)
    by (repeat constructor; discriminate).
  assert (Hrun : run_script sc world_a (new_task None) = (w, t, evs))
    by (vm_compute; reflexivity).
  split; [exact Hrun|].
  exact (uninterrupted_playout_is_not_cancelled None world_a sc w t evs Hsc Hrun).
Defined.

Lemma playout_sends_every_sample_witness :
  let sc := [Run Resumed; Run (Frame 0); Run Resumed; Run Resumed; Run Resumed; Run Stop] in
  let t := mkTask None (mkHandle false true) false false (Finished None) in
  let evs := [PlayoutStarted; CaptureFrame (mkAudioFrame [10; 20]%Z 200 1 2);
              CaptureFrame (mkAudioFrame [30; 40]%Z 200 1 2);
              CaptureFrame (mkAudioFrame [50]%Z 200 1 1);
              PlayoutStopped false; SetResult] in
  run_script sc world_b (new_task None) = (world_b, t, evs) /\
  samples_in sc world_b (new_task None) = 5 /\
  samples_out evs + pending_samples world_b t = samples_in sc world_b (new_task None) /\
  (point t = Finished None -> samples_out evs = samples_in sc world_b (new_task None)).
Proof.
  intros sc t evs.
  assert (Hrun : run_script sc world_b (new_task None) = (world_b, t, evs))
    by (vm_compute; reflexivity).
  assert (Hu : undisturbed t = true) by reflexivity.
  split; [exact Hrun|]. split; [vm_compute; reflexivity|].
  exact (playout_sends_every_sample None world_b sc world_b t evs Hrun Hu).
Defined.

Lemma step_leaves_the_rest_alone_witness :
  let t := mkTask None new_handle true false AwaitNext in
  let t' := mkTask None new_handle false false (AwaitCapture 0 2 2) in
  let evs := [PlayoutStarted; CaptureFrame (mkAudioFrame [10; 20]%Z 200 1 2)] in
  run_script [Run Resumed] world_b (new_task None) = (world_b, t, []) /\
  resume (Frame 0) world_b t = (world_b, t', evs) /\
  target_volume world_b = target_volume world_b /\
  frames_stable world_b world_b /\
  ((forall c, ~ In (CaptureFrame c) evs) ->
   point t' <> Finished (Some ValueError) ->
   point t' <> Finished (Some OverflowError) -> world_b = world_b) /\
  (forall c, In (CaptureFrame c) evs ->
   exists fr ms20 i, point t' = AwaitCapture fr ms20 i /\
     forall fr', fr' <> fr -> frames world_b !! fr' = frames world_b !! fr').
Proof.
  intros t t' evs.
  assert (Hrun : run_script [Run Resumed] world_b (new_task None) = (world_b, t, []))
    by (vm_compute; reflexivity).
  assert (Hres : resume (Frame 0) world_b t = (world_b, t', evs))
    by (vm_compute; reflexivity).
  split; [exact Hrun|]. split; [exact Hres|].
  exact (step_leaves_the_rest_alone None world_b [Run Resumed] world_b t []
           (Frame 0) world_b t' evs Hrun Hres).
Defined.

Lemma playouts_are_serialized_witness :
  let acts := [Play; Play; Step 0 Resumed; Step 1 Resumed; Step 0 (Frame 0);
               Step 1 Resumed; Step 1 (Frame 0)] in
  let s := mkSystem world_b (Some 1) false
             [mkTask None (mkHandle false true) true false (Finished (Some CancelledError));
              mkTask (Some 0) new_handle false false (AwaitCapture 0 2 2)] ∅ [] in
  let tr1 := [PlayReturned 0; PlayReturned 1; TaskEvent 1 (CancelTask 0);
              TaskEvent 0 SetResult] in
  let tr2 := [TaskEvent 1 (CaptureFrame (mkAudioFrame [10; 20]%Z 200 1 2))] in
  sys_run acts system_b = Some (s, tr1 ++ TaskEvent 1 PlayoutStarted :: tr2) /\
  forall j, j < 1 ->
    In (TaskEvent j SetResult) tr1 /\ forall e', ~ In (TaskEvent j e') tr2.
Proof.
  intros acts s tr1 tr2.
  assert (Hrun : sys_run acts (init_system (new_filter alpha_default) {[0 := frame_b]}) =
            Some (s, tr1 ++ TaskEvent 1 PlayoutStarted :: tr2))
    by (vm_compute; reflexivity).
  split; [exact Hrun|].
  exact (playouts_are_serialized (new_filter alpha_default) {[0 := frame_b]} acts s
           (tr1 ++ TaskEvent 1 PlayoutStarted :: tr2) tr1 1 PlayoutStarted tr2
           Hrun eq_refl eq_refl).
Defined.

Lemma interrupted_flag_is_set_by_interrupt_and_kept_witness :
  let acts := [HandleInterrupt 0; Step 0 (Frame 0)] in
  let s := mkSystem world_a (Some 0) false
             [mkTask None new_handle true false AwaitNext] ∅ [] in
  let s' := mkSystem (mkWorld 1 (mkExpFilter 0.25 0.25)
                              {[0 := mkAudioFrame [25; 3; -7]%Z 100 1 3]})
              (Some 0) false
              [mkTask None (mkHandle true false) false false (AwaitCapture 0 1 1)] ∅ [] in
  let tr := [TaskEvent 0 PlayoutStarted;
             TaskEvent 0 (CaptureFrame (mkAudioFrame [25]%Z 100 1 1))] in
  sys_run acts s = Some (s', tr) /\
  (forall t, tasks s !! 0 = Some t ->
     exists t', tasks s' !! 0 = Some t' /\
       (interrupted (handle t) = true -> interrupted (handle t') = true)) /\
  (forall t', tasks s' !! 0 = Some t' -> interrupted (handle t') = true ->
     In (HandleInterrupt 0) acts \/
     exists t, tasks s !! 0 = Some t /\ interrupted (handle t) = true).
Proof.
  intros acts s s' tr.
  assert (Hrun : sys_run acts s = Some (s', tr)) by (vm_compute; reflexivity).
  split; [exact Hrun|].
  exact (interrupted_flag_is_set_by_interrupt_and_kept s acts s' tr 0 Hrun).
Defined.

Lemma stopped_flag_needs_interrupted_handle_witness :
  let acts := [Play; Step 0 Resumed; Step 0 (Frame 0); HandleInterrupt 0;
               Step 0 Resumed; Step 0 Resumed; Step 0 Resumed; Step 0 Stop] in
  let s := mkSystem (mkWorld 1 (mkExpFilter 0x1p-10 0x1p-20)
                             {[0 := mkAudioFrame [100; 0; 0; 5]%Z 100 1 4]})
             (Some 0) false
             [mkTask None (mkHandle true true) false true (Finished None)] ∅ [] in
  let tr := [PlayReturned 0; TaskEvent 0 PlayoutStarted;
             TaskEvent 0 (CaptureFrame (mkAudioFrame [100]%Z 100 1 1));
             TaskEvent 0 (CaptureFrame (mkAudioFrame [0]%Z 100 1 1));
             TaskEvent 0 (CaptureFrame (mkAudioFrame [0]%Z 100 1 1));
             TaskEvent 0 (PlayoutStopped true); TaskEvent 0 SetResult] in
  sys_run acts system_c = Some (s, tr) /\
  exists t, tasks s !! 0 = Some t /\ is_finished t = true /\ cancelled t = true /\
    (true = true -> interrupted (handle t) = true /\ In (HandleInterrupt 0) acts).
Proof.
  intros acts s tr.
  assert (Hrun : sys_run acts (init_system (new_filter 0x1p-10) {[0 := frame_c]}) =
            Some (s, tr)) by (vm_compute; reflexivity).
  assert (Hin : In (TaskEvent 0 (PlayoutStopped true)) tr)
    by (simpl; do 5 right; left; reflexivity).
  split; [exact Hrun|].
  exact (stopped_flag_needs_interrupted_handle (new_filter 0x1p-10) {[0 := frame_c]}
           acts s tr 0 true Hrun Hin).
Defined.


Lemma at_most_one_playout_streams_witness :
  let acts := [Play; Play; Step 0 Resumed; Step 1 Resumed; Step 0 (Frame 0);
               Step 1 Resumed; Step 1 (Frame 0)] in
  let t := mkTask (Some 0) new_handle false false (AwaitCapture 0 2 2) in
  let s := mkSystem world_b (Some 1) false
             [mkTask None (mkHandle false true) true false (Finished (Some CancelledError));
              t] ∅ [] in
  let tr := [PlayReturned 0; PlayReturned 1; TaskEvent 1 (CancelTask 0);
             TaskEvent 0 SetResult; TaskEvent 1 PlayoutStarted;
             TaskEvent 1 (CaptureFrame (mkAudioFrame [10; 20]%Z 200 1 2))] in
  sys_run acts system_b = Some (s, tr) /\
  (forall j tj, tasks s !! j = Some tj -> j < 1 -> is_finished tj = true) /\
  (forall j tj, tasks s !! j = Some tj -> 1 < j ->
     past_handoff tj = false /\ first_frame tj = true /\ cancelled tj = false).
Proof.
  intros acts t s tr.
  assert (Hrun : sys_run acts (init_system (new_filter alpha_default) {[0 := frame_b]}) =
            Some (s, tr)) by (vm_compute; reflexivity).
  assert (Ht : tasks s !! 1 = Some t) by reflexivity.
  assert (Hp : past_handoff t = true) by reflexivity.
  assert (Hf : is_finished t = false) by reflexivity.
  split; [exact Hrun|].
  exact (at_most_one_playout_streams (new_filter alpha_default) {[0 := frame_b]}
           acts s tr 1 t Hrun Ht Hp Hf).
Defined.

Lemma successor_cancels_playing_playout_witness :
  let tk := mkTask None new_handle false false (AwaitCapture 0 2 2) in
  let t1 := new_task (Some 0) in
  let trA := [PlayReturned 0; TaskEvent 0 PlayoutStarted;
              TaskEvent 0 (CaptureFrame (mkAudioFrame [10; 20]%Z 200 1 2));
              PlayReturned 1] in
  let sA := mkSystem world_b (Some 1) false [tk; t1] ∅ [] in
  let sB := mkSystem world_b (Some 1) false [tk; set_point AwaitOld t1] {[0]} [] in
  let sC := mkSystem world_b (Some 1) false
              [mkTask None (mkHandle false true) false false
                      (Finished (Some CancelledError));
               set_point AwaitOld t1] ∅ [] in
  sys_run [Play; Step 0 Resumed; Step 0 (Frame 0); Play] system_b = Some (sA, trA) /\
  sys_step (Step 1 Resumed) sA = Some (sB, [TaskEvent 1 (CancelTask 0)]) /\
  sys_step (Step 0 Resumed) sB =
    Some (sC, [TaskEvent 0 (PlayoutStopped false); TaskEvent 0 SetResult]) /\
  ([TaskEvent 1 (CancelTask 0)] = [TaskEvent 1 (CancelTask 0)] /\
   0 ∈ must_cancel sB /\
   tasks sB = <[1 := set_point AwaitOld t1]> (tasks sA) /\
   world sB = world sA) /\
  exists tk',
    tasks sC = <[0 := tk']> (tasks sB) /\
    point tk' = Finished (Some CancelledError) /\
    done_fut (handle tk') = true /\
    [TaskEvent 0 (PlayoutStopped false); TaskEvent 0 SetResult] =
      map (TaskEvent 0)
          ((if first_frame tk then [] else [PlayoutStopped (cancelled tk)])
           ++ [SetResult]) /\
    world sC = world sB /\ (0 ∉ must_cancel sC).
Proof.
  intros tk t1 trA sA sB sC.
  assert (HrunA : sys_run [Play; Step 0 Resumed; Step 0 (Frame 0); Play]
                    (init_system (new_filter alpha_default) {[0 := frame_b]}) =
            Some (sA, trA)) by (vm_compute; reflexivity).
  assert (HrunB : sys_run [Play; Step 0 Resumed; Step 0 (Frame 0); Play; Step 1 Resumed]
                    (init_system (new_filter alpha_default) {[0 := frame_b]}) =
            Some (sB, trA ++ [TaskEvent 1 (CancelTask 0)])) by (vm_compute; reflexivity).
  assert (HstepA : sys_step (Step 1 Resumed) sA = Some (sB, [TaskEvent 1 (CancelTask 0)]))
    by (vm_compute; reflexivity).
  assert (HstepB : sys_step (Step 0 Resumed) sB =
            Some (sC, [TaskEvent 0 (PlayoutStopped false); TaskEvent 0 SetResult]))
    by (vm_compute; reflexivity).
  assert (Hmc : 0 ∈ must_cancel sB)
    by (apply (bool_decide_eq_true_1 (0 ∈ must_cancel sB)); vm_compute; reflexivity).
  split; [exact HrunA|]. split; [exact HstepA|]. split; [exact HstepB|]. split.
  - exact (proj1 (successor_cancels_playing_playout (new_filter alpha_default)
                    {[0 := frame_b]} [Play; Step 0 Resumed; Step 0 (Frame 0); Play]
                    sA trA 0 tk HrunA eq_refl eq_refl)
                 t1 Resumed sB [TaskEvent 1 (CancelTask 0)] eq_refl eq_refl eq_refl HstepA).
  - exact (proj2 (successor_cancels_playing_playout (new_filter alpha_default)
                    {[0 := frame_b]}
                    [Play; Step 0 Resumed; Step 0 (Frame 0); Play; Step 1 Resumed]
                    sB (trA ++ [TaskEvent 1 (CancelTask 0)]) 0 tk HrunB eq_refl eq_refl)
                 Resumed sC [TaskEvent 0 (PlayoutStopped false); TaskEvent 0 SetResult]
                 Hmc HstepB).
Defined.

Lemma cancellation_passes_to_awaited_playout_witness :
  let acts := [Play; Step 0 Resumed; Play; Step 1 Resumed; Play] in
  let tk := mkTask None new_handle true false AwaitNext in
  let t1 := mkTask (Some 0) new_handle true false AwaitOld in
  let t2 := new_task (Some 1) in
  let s := mkSystem world_b (Some 2) false [tk; t1; t2] {[0]} [] in
  let tr := [PlayReturned 0; PlayReturned 1; TaskEvent 1 (CancelTask 0); PlayReturned 2] in
  let s1 := mkSystem world_b (Some 2) false [tk; t1; set_point AwaitOld t2] {[0]} [] in
  sys_run acts system_b = Some (s, tr) /\
  sys_step (Step 2 Resumed) s = Some (s1, [TaskEvent 2 (CancelTask 1)]) /\
  0 ∈ must_cancel s1 /\ (1 ∉ must_cancel s1) /\
  tasks s1 = <[2 := set_point AwaitOld t2]> (tasks s) /\
  world s1 = world s.
Proof.
  intros acts tk t1 t2 s tr s1.
  assert (Hrun : sys_run acts (init_system (new_filter alpha_default) {[0 := frame_b]}) =
            Some (s, tr)) by (vm_compute; reflexivity).
  assert (Htk : tasks s !! 0 = Some tk) by reflexivity.
  assert (Hpk : past_handoff tk = true) by reflexivity.
  assert (Hnf : is_finished tk = false) by reflexivity.
  assert (Ht1 : tasks s !! 1 = Some t1) by reflexivity.
  assert (Hp1 : point t1 = AwaitOld) by reflexivity.
  assert (Hmc : 1 ∉ must_cancel s)
    by (apply (bool_decide_eq_false_1 (1 ∈ must_cancel s)); vm_compute; reflexivity).
  assert (Ht2 : tasks s !! 2 = Some t2) by reflexivity.
  assert (Hp2 : point t2 = Created) by reflexivity.
  assert (Hstep : sys_step (Step 2 Resumed) s = Some (s1, [TaskEvent 2 (CancelTask 1)]))
    by (vm_compute; reflexivity).
  split; [exact Hrun|]. split; [exact Hstep|].
  exact (proj2 (cancellation_passes_to_awaited_playout
                  (new_filter alpha_default) {[0 := frame_b]} acts s tr 0 tk t1 t2 Resumed s1
                  [TaskEvent 2 (CancelTask 1)]
                  Hrun Htk Hpk Hnf Ht1 Hp1 Hmc Ht2 Hp2 Hstep)).
Defined.

Lemma handoff_follows_predecessor_witness :
  let acts := [Play; Step 0 Resumed; Step 0 (Frame 0); Play; Step 1 Resumed] in
  let t0 := mkTask None (mkHandle false true) false false
                   (Finished (Some ZeroDivisionError)) in
  let t := mkTask (Some 0) new_handle true false AwaitOld in
  let s := mkSystem world_d (Some 1) false [t0; t] ∅ [] in
  let tr := [PlayReturned 0; TaskEvent 0 PlayoutStarted;
             TaskEvent 0 (PlayoutStopped false); TaskEvent 0 SetResult;
             PlayReturned 1; TaskEvent 1 (CancelTask 0)] in
  let s1 := mkSystem world_d (Some 1) false
              [t0; mkTask (Some 0) (mkHandle false true) true false
                          (Finished (Some ZeroDivisionError))] ∅ [] in
  sys_run acts system_d = Some (s, tr) /\
  sys_step (Step 1 Resumed) s = Some (s1, [TaskEvent 1 SetResult]) /\
  exists o r t',
    1 = S o /\ point <$> tasks s !! o = Some (Finished r) /\
    tasks s1 = <[1 := t']> (tasks s) /\ world s1 = world s /\
    (1 ∉ must_cancel s1) /\
    if bool_decide (1 ∈ must_cancel s) ||
       match r with None | Some CancelledError => true | Some _ => false end
    then t' = set_point AwaitNext t /\ [TaskEvent 1 SetResult] = []
    else point t' = Finished r /\ done_fut (handle t') = true /\
         first_frame t' = true /\ [TaskEvent 1 SetResult] = [TaskEvent 1 SetResult].
Proof.
  intros acts t0 t s tr s1.
  assert (Hrun : sys_run acts
                   (init_system (new_filter alpha_default)
                      {[0 := frame_slow; 1 := frame_empty; 2 := frame_b]}) =
            Some (s, tr)) by (vm_compute; reflexivity).
  assert (Ht : tasks s !! 1 = Some t) by reflexivity.
  assert (Hp : point t = AwaitOld) by reflexivity.
  assert (Hstep : sys_step (Step 1 Resumed) s = Some (s1, [TaskEvent 1 SetResult]))
    by (vm_compute; reflexivity).
  split; [exact Hrun|]. split; [exact Hstep|].
  exact (handoff_follows_predecessor (new_filter alpha_default)
           {[0 := frame_slow; 1 := frame_empty; 2 := frame_b]} acts s tr 1 t Resumed s1
           [TaskEvent 1 SetResult] Hrun Ht Hp Hstep).
Defined.
(** ** A whole playout: the source and the sink *)

Section SourceFacts.
Context {F : Type} `{VolFilter F}.

Lemma calls_locals cs : forall (w : @World F) t w' t',
  calls cs w t = (w', t') ->
  point t' = point t /\ cancelled t' = cancelled t /\ frames w' = frames w.
Proof.
  unfold calls. induction cs as [|c cs IH]; simpl; intros w t w' t' Hc.
  - by simplify_eq.
  - destruct (call c w t) as [w1 t1] eqn:Hc1. simpl in Hc.
    destruct (IH _ _ _ _ Hc) as (Hp & Hcc & Hf).
    destruct (call_spec _ _ _ _ _ Hc1) as (Hf1 & _ & Hp1 & _ & Hcc1 & _).
    split_and!; congruence.
Qed.

Lemma source_samples_stable (w w' : @World F) src :
  frames_stable w w' -> source_samples w' src = source_samples w src.
Proof.
  intros Hst. unfold source_samples. f_equal. apply map_ext.
  intros [fr|ex]; [|done]. by destruct (Hst fr) as (_ & _ & _ & ?).
Qed.

(** A playout returns normally without having been cut short only when
    its source is exhausted. *)
Lemma resume_returns inp (w : @World F) t w' t' evs :
  resume inp w t = (w', t', evs) ->
  is_finished t = false -> point t' = Finished None -> cancelled t' = false ->
  point t = AwaitNext /\ inp = Stop.
Proof.
  unfold resume, on_frame, window_loop, finalize, is_finished. intros Hr Hnf Hp Hc.
  repeat (case_match; simplify_eq; cbn in *; try done).
  all: congruence.
Qed.

Lemma drive_conserves e fuel : forall k src (w : @World F) t w' t' evs,
  task_inv w t ->
  (undisturbed t = true -> is_finished t = true -> src = []) ->
  drive fuel k e src w t = (w', t', evs) ->
  undisturbed t' = true -> is_finished t' = true ->
  undisturbed t = true /\
  samples_out evs = pending_samples w t + source_samples w src.
Proof.
  induction fuel as [|fuel IH]; intros k src w t w' t' evs Hinv Hsrc Hdr Hu Hf.
  - simpl in Hdr. simplify_eq. split; [done|]. rewrite (Hsrc Hu Hf).
    unfold pending_samples, is_finished in *. by destruct (point t').
  - cbn [drive] in Hdr. destruct (is_finished t) eqn:Hft.
    { simplify_eq. split; [done|]. rewrite (Hsrc Hu eq_refl).
      unfold pending_samples, is_finished in *. by destruct (point t'). }
    destruct (calls (env_calls e k) w t) as [w0 t0] eqn:Hcalls.
    destruct (next_input e k src (point t0)) as [inp src'] eqn:Hnext.
    destruct (resume inp w0 t0) as [[w1 t1] evs1] eqn:Hres.
    destruct (drive fuel (S k) e src' w1 t1) as [[w2 t2] evs2] eqn:Hrest.
    simplify_eq.
    destruct (calls_spec _ _ _ _ _ Hcalls Hinv) as (Hinv0 & _).
    destruct (calls_locals _ _ _ _ _ Hcalls) as (Hp0 & Hc0 & Hf0).
    destruct (resume_inv _ _ _ _ _ _ Hinv0 Hres) as (Hinv1 & Hst & _).
    assert (Hnf0 : is_finished t0 = false) by (unfold is_finished in *; by rewrite Hp0).
    assert (Hsrc1 : undisturbed t1 = true -> is_finished t1 = true -> src' = []).
    { intros Hu1 Hf1. unfold undisturbed in Hu1. apply andb_true_iff in Hu1 as [Hc1 Hp1].
      apply negb_true_iff in Hc1. unfold is_finished in Hf1.
      destruct (point t1) as [| | | |[ex|]] eqn:Hpt1; try done.
      destruct (resume_returns _ _ _ _ _ _ Hres Hnf0 Hpt1 Hc1) as [Hpa ->].
      rewrite Hpa in Hnext. cbn in Hnext.
      destruct src as [|[fr|ex] src0]; by simplify_eq. }
    destruct (IH _ _ _ _ _ _ _ Hinv1 Hsrc1 Hrest Hu Hf) as [Hu1 Heq].
    assert (Hact : act (Run inp) w0 t0 = (w1, t1, evs1)) by done.
    pose proof (act_undisturbed _ _ _ _ _ _ Hact Hu1) as Hu0.
    pose proof (act_conserves _ _ _ _ _ _ Hinv0 Hact Hu1) as Hstep.
    split.
    { unfold undisturbed in *. by rewrite <- Hp0, <- Hc0. }
    rewrite samples_out_app, Heq.
    rewrite (source_samples_stable _ _ src' Hst).
    assert (Hpend : pending_samples w0 t0 = pending_samples w t).
    { unfold pending_samples. by rewrite Hp0, Hf0. }
    assert (Hsplit : source_samples w src =
              match inp, point t0 with
              | Frame fr, AwaitNext => length (data (frames w0 !!! fr))
              | _, _ => 0
              end + source_samples w0 src').
    { assert (Hw : forall l, source_samples w0 l = source_samples w l).
      { intros l. unfold source_samples. f_equal. apply map_ext.
        intros [fr|ex]; by rewrite ?Hf0. }
      rewrite Hw. unfold next_input in Hnext.
      destruct (point t0).
      - by simplify_eq.
      - destruct (env_old e); by simplify_eq.
      - destruct src as [|[fr|ex] src0]; simplify_eq; try done.
        unfold source_samples. cbn. by rewrite Hf0.
      - destruct (env_sink e k); by simplify_eq.
      - by simplify_eq. }
    lia.
Qed.

(** X17.  A playout that returns normally without having been cut short
    has sent its whole source: when the task, run against any
    surroundings, has ended without an exception and without having met
    the break condition, the samples handed to the sink are as many as the
    frames of the source held. *)
Theorem finished_playout_has_sent_its_source (e : Env) (src : list SourceItem)
    (w : @World F) (old : option nat) (fuel : nat) w' t' evs :
  drive fuel 0 e src w (new_task old) = (w', t', evs) ->
  point t' = Finished None -> cancelled t' = false ->
  samples_out evs = source_samples w src.
Proof.
  intros Hdr Hp Hc.
  assert (Hu : undisturbed t' = true) by (unfold undisturbed; by rewrite Hc, Hp).
  assert (Hf : is_finished t' = true) by (unfold is_finished; by rewrite Hp).
  destruct (drive_conserves e fuel 0 src w (new_task old) w' t' evs
              (new_task_inv w old)) as [_ Heq]; try done.
Qed.

End SourceFacts.

Lemma finished_playout_has_sent_its_source_witness :
  let e := mkEnv None (fun _ => None) (fun _ => []) in
  let t' := mkTask None (mkHandle false true) false false (Finished None) in
  let evs := [PlayoutStarted; CaptureFrame (mkAudioFrame [10; 20]%Z 200 1 2);
              CaptureFrame (mkAudioFrame [30; 40]%Z 200 1 2);
              CaptureFrame (mkAudioFrame [50]%Z 200 1 1);
              PlayoutStopped false; SetResult] in
  drive 10 0 e [Yield 0] world_b (new_task None) = (world_b, t', evs) /\
  source_samples world_b [Yield 0] = 5 /\
  samples_out evs = source_samples world_b [Yield 0].
Proof.
  intros e t' evs.
  assert (Hdr : drive 10 0 e [Yield 0] world_b (new_task None) = (world_b, t', evs))
    by (vm_compute; reflexivity).
  split; [exact Hdr|]. split; [vm_compute; reflexivity|].
  exact (finished_playout_has_sent_its_source e [Yield 0] world_b None 10 world_b t' evs
           Hdr eq_refl eq_refl).
Defined.

(** ** The first step of a playout *)

Section StartFacts.
Context {F : Type} `{VolFilter F}.

(** X16.  No playout is cancelled before it has started.  A task that has
    not taken its first step has no cancellation pending, so that its
    first step enters the body (and with it the [try] block whose
    [finally] completes the handle); the event loop runs that step only
    when every task created before has taken its own first step.  The
    step asks for the cancellation of the predecessor, if there is one,
    and does nothing else. *)
Theorem playout_is_not_cancelled_before_it_starts (flt : F)
    (fs : gmap nat AudioFrame) (acts : list SysAct) (s : @System F) tr k t :
  sys_run acts (init_system flt fs) = Some (s, tr) ->
  tasks s !! k = Some t -> point t = Created ->
  (k ∉ must_cancel s) /\ done_fut (handle t) = false /\
  forall inp s1 evs,
    sys_step (Step k inp) s = Some (s1, evs) ->
    inp = Resumed /\
    (forall j tj, j < k -> tasks s !! j = Some tj -> is_created tj = false) /\
    tasks s1 = <[k := set_point (match k with O => AwaitNext | S _ => AwaitOld end) t]>
                 (tasks s) /\
    evs = match k with O => [] | S o => [TaskEvent k (CancelTask o)] end /\
    world s1 = world s.
Proof.
  intros Hrun Ht Hp. destruct (reachable_invs _ _ _ _ _ Hrun) as (Hinv & _ & _).
  assert (Hmc : k ∉ must_cancel s).
  { intros Hin. destruct (inv_cancel s Hinv k Hin) as (x & Hx & Hcx).
    rewrite Ht in Hx. inversion Hx; subst x. unfold is_created in Hcx. by rewrite Hp in Hcx. }
  split; [done|]. split.
  { rewrite (inv_done s Hinv k t Ht). unfold is_finished. by rewrite Hp. }
  intros inp s1 evs Hstep. simpl in Hstep. rewrite Ht in Hstep.
  destruct (delivered s k t inp) as [r|] eqn:Hdel; [|done].
  destruct (delivered_spec _ _ _ _ _ Hinv Ht Hdel) as (_ & Hcre & _).
  destruct (Hcre Hp) as [-> Hall].
  assert (Hinp : inp = Resumed).
  { unfold delivered in Hdel. rewrite Hp in Hdel.
    rewrite (bool_decide_eq_false_2 _ Hmc) in Hdel.
    destruct (forallb _ _); [|done]. by destruct inp. }
  pose proof (inv_chain s Hinv _ _ Ht) as Hold.
  unfold resume in Hstep. rewrite Hp, Hold in Hstep.
  destruct k as [|o]; cbn [pred_task] in Hstep.
  - inversion Hstep; subst s1 evs; clear Hstep. cbn. by split_and!.
  - set (s0 := mkSystem (world s) (playout_atask s) (closed s)
                        (<[S o := set_point AwaitOld t]> (tasks s))
                        (must_cancel s ∖ {[S o]}) (closers s)) in Hstep.
    destruct (effects_frame [CancelTask o] s0) as (Hw & _ & _ & Hts & _).
    set (s2 := foldl effect s0 [CancelTask o]) in *.
    inversion Hstep; subst s1 evs; clear Hstep.
    by split_and!.
Qed.

End StartFacts.

Lemma playout_is_not_cancelled_before_it_starts_witness :
  let acts := [Play; Step 0 Resumed; Play] in
  let t := new_task (Some 0) in
  let s := mkSystem world_b (Some 1) false
             [mkTask None new_handle true false AwaitNext; t] ∅ [] in
  sys_run acts system_b = Some (s, [PlayReturned 0; PlayReturned 1]) /\
  (1 ∉ must_cancel s) /\ done_fut (handle t) = false /\
  forall inp s1 evs,
    sys_step (Step 1 inp) s = Some (s1, evs) ->
    inp = Resumed /\
    (forall j tj, j < 1 -> tasks s !! j = Some tj -> is_created tj = false) /\
    tasks s1 = <[1 := set_point AwaitOld t]> (tasks s) /\
    evs = [TaskEvent 1 (CancelTask 0)] /\
    world s1 = world s.
Proof.
  intros acts t s.
  assert (Hrun : sys_run acts (init_system (new_filter alpha_default) {[0 := frame_b]}) =
            Some (s, [PlayReturned 0; PlayReturned 1])) by (vm_compute; reflexivity).
  assert (Ht : tasks s !! 1 = Some t) by reflexivity.
  assert (Hp : point t = Created) by reflexivity.
  split; [exact Hrun|].
  exact (playout_is_not_cancelled_before_it_starts (new_filter alpha_default)
           {[0 := frame_b]} acts s [PlayReturned 0; PlayReturned 1] 1 t Hrun Ht Hp).
Defined.
